(** * THD master/worker command channel

    A shallow embedding of [torch/lib/THD/master_worker/common/CommandChannel.cpp]:
    the length-prefixed framing used on every connection, the master channel
    (accept barrier, [sendMessage], the background error listener and its
    failure latch, teardown) and the worker channel (join handshake,
    [recvMessage], [sendError], teardown).

    Every method is a computation over the state of one process: the C++
    object ([this]) together with the part of the operating system the code
    talks to (descriptors, byte streams, [poll]).  The system calls a method
    performs are appended to a log, so that "no network I/O" and "closed
    exactly once" are statements about that log. *)

From Stdlib Require Import ZArith List Strings.String Strings.Ascii Strings.Byte.
From Stdlib Require Import DecimalString DecimalNat Lia Bool.
From stdpp Require Import base list gmap strings.
Import ListNotations.
Local Open Scope Z_scope.

(* ===================================================================== *)
(** ** Bytes and fixed-width integers on the wire *)
(* ===================================================================== *)

Module Wire.

Definition byte_of_Z (z : Z) : byte :=
  match Byte.of_N (Z.to_N (z mod 256)) with
  | Some b => b
  | None => x00
  end.

Definition Z_of_byte (b : byte) : Z := Z.of_N (Byte.to_N b).

(** Modelled from the spec: [send_bytes<T>] and [recv_bytes<T>] are declared
    in base/ChannelUtils.hpp, which is not among the sources.  The spec
    describes them as the low-level primitives that move a numeric value in
    a fixed representation that does not depend on the host byte order.  We
    take most-significant-byte-first; [width] is [sizeof(T)]. *)
Fixpoint encode_uint (width : nat) (v : Z) : list byte :=
  match width with
  | O => []
  | S w => byte_of_Z (v / 256 ^ Z.of_nat w) :: encode_uint w v
  end.

Definition decode_uint (bs : list byte) : Z :=
  fold_left (fun acc b => acc * 256 + Z_of_byte b) bs 0.

Definition sizeof_uint64 : nat := 8.
Definition sizeof_uint8 : nat := 1.

(** Modelled from the spec: [rank_type] is declared outside the sources; the
    spec calls it a small unsigned integer sent as a fixed-size value. *)
Definition sizeof_rank_type : nat := 4.

(** [static_cast<std::uint64_t>(n)] *)
Definition to_uint64 (n : Z) : Z := n mod 2 ^ 64.

(** The conversion of an [int] to [std::size_t] that the comparison
    [rank >= _sockets.size()] performs. *)
Definition to_size_t (n : Z) : Z := n mod 2 ^ 64.

End Wire.

(** [std::to_string] on an unsigned value. *)
Definition to_string (n : nat) : string := NilZero.string_of_uint (Nat.to_uint n).

(* ===================================================================== *)
(** ** Exceptions *)
(* ===================================================================== *)

Inductive exn : Type :=
| system_error (what : string)   (* socket helpers, SYSCHECK *)
| out_of_range (what : string)   (* std::vector::at *)
| runtime_error (what : string)
| domain_error (what : string).

Definition what (e : exn) : string :=
  match e with
  | system_error s | out_of_range s | runtime_error s | domain_error s => s
  end.

(** The C++ hierarchy: [std::system_error] derives from [std::runtime_error];
    [std::domain_error] and [std::out_of_range] derive from
    [std::logic_error]. *)
Definition is_runtime_error (e : exn) : bool :=
  match e with
  | system_error _ | runtime_error _ => true
  | out_of_range _ | domain_error _ => false
  end.

Definition is_logic_error (e : exn) : bool := negb (is_runtime_error e).

(* ===================================================================== *)
(** ** The operating system seen by one process *)
(* ===================================================================== *)

Inductive syscall : Type :=
| SysListen (port fd : Z)
| SysAccept (lfd fd : Z)
| SysConnect (addr : string) (port fd : Z)
| SysSend (fd : Z) (data : list byte)
| SysRecv (fd : Z) (data : list byte)
| SysPoll (nfds : nat) (timeout : Z)
| SysClose (fd : Z)
| ThreadStart
| ThreadJoin.

(** What one call of [::poll] reports. *)
Inductive poll_result : Type :=
| PollFail (msg : string)                    (* SYSCHECK throws *)
| PollReady (ret : Z) (revents : list Z).    (* return value, one revents per entry *)

Record world : Type := World {
  w_open : gset Z;                    (* descriptors open in this process *)
  w_listening : option Z;             (* the listening descriptor, if any *)
  w_next_fd : Z;                      (* descriptor the next listen/connect yields *)
  w_backlog : list (Z * list byte);   (* connections waiting to be accepted:
                                         descriptor and bytes the peer writes *)
  w_rx : gmap Z (list byte);          (* inbound bytes not yet read *)
  w_hup : gset Z;                     (* connections whose peer is gone *)
  w_polls : list poll_result;         (* successive returns of ::poll *)
  w_exit_in : option nat;             (* loads of [_exiting] by the listener
                                         that still precede the destructor's
                                         store; [None]: no teardown, or none
                                         scheduled: the next load sees a
                                         store that has been made *)
  w_log : list syscall                (* system calls so far, oldest first *)
}.

Definition set_open f w := World (f (w_open w)) (w_listening w) (w_next_fd w)
  (w_backlog w) (w_rx w) (w_hup w) (w_polls w) (w_exit_in w) (w_log w).
Definition set_listening v w := World (w_open w) v (w_next_fd w)
  (w_backlog w) (w_rx w) (w_hup w) (w_polls w) (w_exit_in w) (w_log w).
Definition set_backlog v w := World (w_open w) (w_listening w) (w_next_fd w)
  v (w_rx w) (w_hup w) (w_polls w) (w_exit_in w) (w_log w).
Definition set_rx f w := World (w_open w) (w_listening w) (w_next_fd w)
  (w_backlog w) (f (w_rx w)) (w_hup w) (w_polls w) (w_exit_in w) (w_log w).
Definition set_polls v w := World (w_open w) (w_listening w) (w_next_fd w)
  (w_backlog w) (w_rx w) (w_hup w) v (w_exit_in w) (w_log w).
Definition set_exit_in v w := World (w_open w) (w_listening w) (w_next_fd w)
  (w_backlog w) (w_rx w) (w_hup w) (w_polls w) v (w_log w).
Definition log (e : syscall) w := World (w_open w) (w_listening w) (w_next_fd w)
  (w_backlog w) (w_rx w) (w_hup w) (w_polls w) (w_exit_in w) (w_log w ++ [e]).

(** The world once descriptor [fd] has been passed to [::close]. *)
Definition closed (fd : Z) (w : world) : world :=
  log (SysClose fd)
    (set_listening (if bool_decide (w_listening w = Some fd) then None
                    else w_listening w)
       (set_open (fun s => s ∖ {[fd]}) w)).

(** A process: the object a method runs on, and the world around it. *)
Record proc (O : Type) : Type := Proc { this : O; os : world }.
Arguments Proc {O} _ _.
Arguments this {O} _.
Arguments os {O} _.

(* ===================================================================== *)
(** ** Computations: state, exceptions, blocking *)
(* ===================================================================== *)

Inductive outcome (S A : Type) : Type :=
| Ret (a : A) (s : S)        (* the call returns *)
| Throw (e : exn) (s : S)    (* an exception leaves the call *)
| Block                      (* stuck in a blocking system call *)
| Fuel.                      (* the loop bound of the model ran out *)
Arguments Ret {S A} _ _.
Arguments Throw {S A} _ _.
Arguments Block {S A}.
Arguments Fuel {S A}.

Definition M (S A : Type) : Type := S -> outcome S A.

Definition ret {S A} (a : A) : M S A := fun s => Ret a s.
Definition throw {S A} (e : exn) : M S A := fun s => Throw e s.
Definition bind {S A B} (m : M S A) (k : A -> M S B) : M S B :=
  fun s => match m s with
           | Ret a s' => k a s'
           | Throw e s' => Throw e s'
           | Block => Block
           | Fuel => Fuel
           end.
(** [try { m } catch (const std::exception& e) { h e }] *)
Definition try_catch {S A} (m : M S A) (h : exn -> M S A) : M S A :=
  fun s => match m s with
           | Throw e s' => h e s'
           | r => r
           end.

Declare Scope cmd_scope.
Delimit Scope cmd_scope with cmd.
Notation "x <- m ;; k" := (bind m (fun x => k))
  (at level 100, m at next level, right associativity) : cmd_scope.
Notation "m ;; k" := (bind m (fun _ => k))
  (at level 100, right associativity) : cmd_scope.
Local Open Scope cmd_scope.

Section Process.
Context {O : Type}.

Definition get_this : M (proc O) O := fun p => Ret (this p) p.
Definition get_os : M (proc O) world := fun p => Ret (os p) p.
Definition modify_this (f : O -> O) : M (proc O) unit :=
  fun p => Ret tt (Proc (f (this p)) (os p)).
Definition modify_os (f : world -> world) : M (proc O) unit :=
  fun p => Ret tt (Proc (this p) (f (os p))).
Definition block {A} : M (proc O) A := fun _ => Block.

(** *** Socket helpers of base/ChannelUtils.hpp *)

Definition usable (fd : Z) (w : world) : bool :=
  bool_decide (fd ∈ w_open w) && negb (bool_decide (fd ∈ w_hup w)).

(** Modelled from the spec: [send_bytes] writes the given bytes, in order,
    on the connection, and fails when the write fails.  The optional fourth
    argument of the C++ helper is kept as [more]; it does not change the
    bytes.  Nothing is written for an empty buffer. *)
Definition send_bytes (fd : Z) (data : list byte) (more : bool) : M (proc O) unit :=
  match data with
  | [] => ret tt
  | _ =>
      w <- get_os ;;
      if usable fd w then modify_os (log (SysSend fd data))
      else throw (system_error "send")
  end.

(** Modelled from the spec: [recv_bytes] reads exactly [n] bytes; it blocks
    until they are all there and fails when the connection closes first. *)
Definition recv_bytes (fd : Z) (n : Z) : M (proc O) (list byte) :=
  if n <=? 0 then ret []
  else
    w <- get_os ;;
    if bool_decide (fd ∈ w_open w) then
      let buf := w_rx w !!! fd in
      if n <=? Z.of_nat (length buf) then
        let data := take (Z.to_nat n) buf in
        modify_os (fun w => log (SysRecv fd data)
                              (set_rx <[fd := drop (Z.to_nat n) buf]> w)) ;;
        ret data
      else if bool_decide (fd ∈ w_hup w) then
        modify_os (set_rx <[fd := []]>) ;;
        throw (system_error "recv")
      else block
    else throw (system_error "recv").

Definition send_uint (width : nat) (fd : Z) (v : Z) (more : bool) : M (proc O) unit :=
  send_bytes fd (Wire.encode_uint width v) more.

Definition recv_uint (width : nat) (fd : Z) : M (proc O) Z :=
  bs <- recv_bytes fd (Z.of_nat width) ;;
  ret (Wire.decode_uint bs).

(** Modelled from the spec: [listen] opens a listening socket on the port
    and returns its descriptor together with the port. *)
Definition listen (port : Z) : M (proc O) (Z * Z) :=
  w <- get_os ;;
  let fd := w_next_fd w in
  modify_os (fun w => log (SysListen port fd)
                        (set_listening (Some fd) (set_open (union {[fd]}) w))) ;;
  ret (fd, port).

(** Modelled from the spec: [accept] waits for the next connection on a
    listening socket and returns its descriptor. *)
Definition accept (lfd : Z) : M (proc O) (Z * string) :=
  w <- get_os ;;
  if bool_decide (w_listening w = Some lfd) && bool_decide (lfd ∈ w_open w) then
    match w_backlog w with
    | [] => block
    | (fd, inbound) :: rest =>
        modify_os (fun w => log (SysAccept lfd fd)
                              (set_rx <[fd := inbound]>
                                 (set_backlog rest (set_open (union {[fd]}) w)))) ;;
        ret (fd, ""%string)
    end
  else throw (system_error "accept").

(** Modelled from the spec: [connect] opens a connection to the master. *)
Definition connect (addr : string) (port : Z) : M (proc O) Z :=
  w <- get_os ;;
  let fd := w_next_fd w in
  modify_os (fun w => log (SysConnect addr port fd) (set_open (union {[fd]}) w)) ;;
  ret fd.

(** [::close]; its return value is ignored by every caller. *)
Definition close (fd : Z) : M (proc O) unit := modify_os (closed fd).

End Process.

(* ===================================================================== *)
(** ** Framing: the two free functions of the anonymous namespace *)
(* ===================================================================== *)

Module thd.
Section Framing.
Context {O : Type}.

(** [void sendMessage(int socket, std::unique_ptr<rpc::RPCMessage> msg)];
    [bytes] is [msg->bytes()]. *)
Definition sendMessage (socket : Z) (bytes : list byte) : M (proc O) unit :=
  let msg_length := Wire.to_uint64 (Z.of_nat (length bytes)) in
  send_uint Wire.sizeof_uint64 socket msg_length true ;;
  send_bytes socket (take (Z.to_nat msg_length) bytes) false.

(** [std::unique_ptr<rpc::RPCMessage> receiveMessage(int socket)]; the
    result is the byte content of the message that is built. *)
Definition receiveMessage (socket : Z) : M (proc O) (list byte) :=
  msg_length <- recv_uint Wire.sizeof_uint64 socket ;;
  bytes <- recv_bytes socket msg_length ;;
  ret bytes.

End Framing.
End thd.

(* ===================================================================== *)
(** ** poll *)
(* ===================================================================== *)

(** The value of [POLLIN] in <poll.h>. *)
Definition POLLIN : Z := 1.

Record pollfd : Type := Pollfd { fd : Z; events : Z; revents : Z }.

#[global] Instance pollfd_inhabited : Inhabited pollfd := populate (Pollfd 0 0 0).

Definition set_fd (v : Z) (e : pollfd) : pollfd := Pollfd v (events e) (revents e).
Definition set_revents (v : Z) (e : pollfd) : pollfd := Pollfd (fd e) (events e) v.

(** What the kernel writes into one entry: an entry whose descriptor is
    negative is skipped and its [revents] is zero. *)
Definition report (e : pollfd) (rv : Z) : pollfd :=
  if fd e <? 0 then set_revents 0 e else set_revents rv e.

(** The events reported for entry [i]; none when the report is short. *)
Definition revents_at (revs : list Z) (i : nat) : Z :=
  match revs !! i with Some rv => rv | None => 0 end.

Section Poll.
Context {O : Type}.
Local Open Scope cmd_scope.

(** [SYSCHECK(ret = ::poll(fds, nfds, timeout))]: the next return of
    [::poll] is taken from the world; when nothing is scheduled the call
    times out and returns 0.  [SYSCHECK] is a macro of base/ChannelUtils.hpp,
    outside the sources; as the [catch] clause around it in [recvError]
    expects, a failing call throws a [std::exception]. *)
Definition poll (fds : list pollfd) (timeout : Z) : M (proc O) (Z * list pollfd) :=
  w <- get_os ;;
  modify_os (fun w => log (SysPoll (length fds) timeout) (set_polls (tail (w_polls w)) w)) ;;
  match w_polls w with
  | [] => ret (0, map (set_revents 0) fds)
  | PollFail msg :: _ => throw (system_error msg)
  | PollReady r revs :: _ => ret (r, imap (fun i e => report e (revents_at revs i)) fds)
  end.

Fixpoint for_each {A} (l : list A) (body : A -> M (proc O) unit) : M (proc O) unit :=
  match l with
  | [] => ret tt
  | x :: l' => body x ;; for_each l' body
  end.

End Poll.

(* ===================================================================== *)
(** ** MasterCommandChannel *)
(* ===================================================================== *)

Module Master.
Local Open Scope cmd_scope.

Record MasterCommandChannel : Type := Build {
  _rank : nat;
  _port : Z;
  _sockets : list Z;
  _poll_events : option (list pollfd);
  _exiting : bool;
  _started : bool;
  _error : option string
}.

Definition set_sockets f c := Build (_rank c) (_port c) (f (_sockets c))
  (_poll_events c) (_exiting c) (_started c) (_error c).
Definition set_poll_events v c := Build (_rank c) (_port c) (_sockets c)
  v (_exiting c) (_started c) (_error c).
Definition set_exiting v c := Build (_rank c) (_port c) (_sockets c)
  (_poll_events c) v (_started c) (_error c).
Definition set_started v c := Build (_rank c) (_port c) (_sockets c)
  (_poll_events c) (_exiting c) v (_error c).
Definition set_error v c := Build (_rank c) (_port c) (_sockets c)
  (_poll_events c) (_exiting c) (_started c) v.

Definition t : Type := proc MasterCommandChannel.

(** The constructor; [port] and [world_size] are what [load_master_env]
    returns. *)
Definition new (port : Z) (world_size : nat) : MasterCommandChannel :=
  Build 0 port (replicate world_size (-1)) None false false None.

(** [_sockets.at(rank) = socket], which throws outside the table.  The
    unchecked [_sockets[i]] is a total lookup: wherever the code uses it the
    index is inside the table (of a world size of at least 1). *)
Definition sockets_at_put (rank : nat) (socket : Z) : M t unit :=
  c <- get_this ;;
  if bool_decide (rank < length (_sockets c))%nat
  then modify_this (set_sockets <[rank := socket]>)
  else throw (out_of_range "vector::_M_range_check").

(** Body of the first loop of [init]. *)
Definition accept_one : M t unit :=
  c <- get_this ;;
  r <- accept (_sockets c !!! 0%nat) ;;
  let socket := fst r in
  rank <- recv_uint Wire.sizeof_rank_type socket ;;
  sockets_at_put (Z.to_nat rank) socket.

(** Body of the second loop of [init]. *)
Definition confirm_one (i : nat) : M t unit :=
  c <- get_this ;;
  let confirm_byte := x01 in
  send_bytes (_sockets c !!! i) [confirm_byte] false.

Definition init : M t bool :=
  c <- get_this ;;
  r <- listen (_port c) ;;
  modify_this (set_sockets <[0%nat := fst r]>) ;;
  for_each (seq 1 (length (_sockets c) - 1)) (fun _ => accept_one) ;;
  for_each (seq 1 (length (_sockets c) - 1)) confirm_one ;;
  c <- get_this ;;
  close (_sockets c !!! 0%nat) ;;
  modify_this (set_sockets <[0%nat := -1]>) ;;
  modify_this (set_started true) ;;
  modify_os (log ThreadStart) ;;
  ret true.

(** A load of the shared flag [_exiting] by the listener thread.  The
    destructor stores [true] from another thread; the world says how many
    loads still come before that store. *)
Definition load_exiting : M t bool :=
  fun p =>
    if _exiting (this p) then Ret true p
    else match w_exit_in (os p) with
         | Some O => Ret true (Proc (set_exiting true (this p)) (os p))
         | Some (S k) => Ret false (Proc (this p) (set_exit_in (Some k) (os p)))
         | None => Ret false p
         end.

Definition poll_events (c : MasterCommandChannel) : list pollfd :=
  match _poll_events c with Some pe => pe | None => [] end.

(** The [while (ret == 0)] loop of [recvError]; [Some r] is a [return r]
    from inside the loop. *)
Fixpoint wait_loop (fuel : nat) : M t (option (nat * string)) :=
  match fuel with
  | O => fun _ => Fuel
  | S fuel' =>
      c <- get_this ;;
      r <- poll (poll_events c) 500 ;;
      modify_this (set_poll_events (Some (snd r))) ;;
      exiting <- load_exiting ;;
      if exiting then ret (Some (0%nat, ""%string))
      else if fst r =? 0 then wait_loop fuel'
      else ret None
  end.

(** [new char[error_length + 1]]: the number of elements of the buffer of
    the second [try] block.  It is computed in [std::uint64_t], so for the
    largest length it is 0. *)
Definition error_buffer (error_length : Z) : Z :=
  Wire.to_uint64 (error_length + 1).

(** The body of the second [try] block of [recvError]: the two reads and
    the report built from them.  The bytes of the second read are stored, as
    they come, in a buffer of [error_buffer error_length] elements; the
    computation returns them as a value and says nothing of that storage.
    Bytes stored past the end of the buffer (possible only where its size
    has wrapped to 0) are undefined behaviour of the C++ program, which no
    outcome of the model stands for: statements that rely on this
    computation for a report that was not complete on the connection say
    that what arrived fits [error_buffer]. *)
Definition receive_error (rank : nat) (socket : Z) : M t (nat * string) :=
  error_length <- recv_uint Wire.sizeof_uint64 socket ;;
  error <- recv_bytes socket error_length ;;
  ret (rank, string_of_list_byte error).

(** The last loop of [recvError], over the ranks still to visit. *)
Fixpoint scan (ranks : list nat) : M t (nat * string) :=
  match ranks with
  | [] => ret (0%nat, "failed to receive error from worker"%string)
  | rank :: ranks' =>
      c <- get_this ;;
      let pe := poll_events c !!! rank in
      if revents pe =? 0 then scan ranks'
      else if negb (Z.lxor (revents pe) POLLIN =? 0) then
        modify_this (set_poll_events
                       (Some (<[rank := set_fd (-1) pe]> (poll_events c)))) ;;
        ret (rank, "connection with worker has been closed"%string)
      else
        try_catch (receive_error rank (fd pe))
          (fun e => ret (rank, "recv: " +:+ what e))
  end.

Definition recvError (fuel : nat) : M t (nat * string) :=
  c <- get_this ;;
  match _poll_events c with
  | Some _ => ret tt
  | None =>
      modify_this (set_poll_events
                     (Some (map (fun s => Pollfd s POLLIN 0) (_sockets c))))
  end ;;
  modify_this (fun c => set_poll_events (Some (map (set_revents 0) (poll_events c))) c) ;;
  early <- try_catch (wait_loop fuel)
             (fun e => ret (Some (0%nat, "poll: " +:+ what e))) ;;
  match early with
  | Some r => ret r
  | None => scan (seq 0 (length (_sockets c)))
  end.

Definition format_error (error : nat * string) : string :=
  "error (rank " +:+ to_string (fst error) +:+ "): " +:+ snd error.

(** One turn of the [while (true)] loop of [errorHandler]; [false] is the
    [return]. *)
Definition errorHandler_body (fuel : nat) : M t bool :=
  error <- recvError fuel ;;
  exiting <- load_exiting ;;
  if exiting then ret false
  else
    modify_this (set_error (Some (format_error error))) ;;
    ret true.

Fixpoint errorHandler (fuel : nat) : M t unit :=
  match fuel with
  | O => fun _ => Fuel
  | S fuel' =>
      go <- errorHandler_body fuel ;;
      if go then errorHandler fuel' else ret tt
  end.

Definition sendMessage (msg : list byte) (rank : Z) : M t unit :=
  c <- get_this ;;
  match _error c with
  | Some e => throw (runtime_error e)
  | None =>
      if (rank <=? 0) || (Wire.to_size_t rank >=? Z.of_nat (length (_sockets c)))
      then throw (domain_error "sendMessage received invalid rank as parameter")
      else thd.sendMessage (_sockets c !!! Z.to_nat rank) msg
  end.

(** [_exiting = true], the first statement of the destructor.  [_exiting]
    in the object is the flag as the listener thread reads it.  That thread
    has been running since [init] and is somewhere in a turn of its loop:
    when the world schedules loads of this turn before the store
    ([w_exit_in] is [Some (S _)]: the listener is past the test that follows
    [::poll] and is looking at the entries, or reading a report), they still
    read [false] and [load_exiting] makes the store visible after them;
    otherwise the listener is in its wait and its next load reads [true]. *)
Definition store_exiting : M t unit :=
  fun p =>
    if _started (this p) then
      match w_exit_in (os p) with
      | Some (S _) => Ret tt p
      | _ => Ret tt (Proc (set_exiting true (this p)) (os p))
      end
    else Ret tt (Proc (set_exiting true (this p)) (os p)).

(** [_error_thread.join()]: the caller waits until [errorHandler] has
    returned.  The turn the listener is in is run from its head (its
    [::poll] is the next one of the world), then the turns that follow, until
    the listener returns; if it is stuck in a read, so is the caller. *)
Definition join (fuel : nat) : M t unit :=
  errorHandler fuel ;;
  modify_os (log ThreadJoin).

(** The destructor. *)
Definition destroy (fuel : nat) : M t unit :=
  store_exiting ;;
  c <- get_this ;;
  (if _started c then join fuel else ret tt) ;;
  c <- get_this ;;
  for_each (_sockets c) (fun socket =>
    if negb (socket =? -1) then close socket else ret tt).

End Master.

(* ===================================================================== *)
(** ** WorkerCommandChannel *)
(* ===================================================================== *)

Module Worker.
Local Open Scope cmd_scope.

Record WorkerCommandChannel : Type := Build {
  _rank : nat;
  _socket : Z;
  _master_addr : string;
  _master_port : Z
}.

Definition set_socket v c := Build (_rank c) v (_master_addr c) (_master_port c).

Definition t : Type := proc WorkerCommandChannel.

(** The constructor; the arguments are what [load_rank_env] and
    [load_worker_env] return. *)
Definition new (rank : nat) (addr : string) (port : Z) : WorkerCommandChannel :=
  Build rank (-1) addr port.

Definition destroy : M t unit :=
  c <- get_this ;;
  if negb (_socket c =? -1) then close (_socket c) else ret tt.

Definition init : M t bool :=
  c <- get_this ;;
  s <- connect (_master_addr c) (_master_port c) ;;
  modify_this (set_socket s) ;;
  send_uint Wire.sizeof_rank_type s (Z.of_nat (_rank c)) false ;;
  confirm_byte <- recv_bytes s 1 ;;
  ret true.

Definition recvMessage : M t (list byte) :=
  c <- get_this ;;
  thd.receiveMessage (_socket c).

Definition sendError (error : string) : M t unit :=
  c <- get_this ;;
  let bytes := list_byte_of_string error in
  let error_length := Wire.to_uint64 (Z.of_nat (length bytes)) in
  send_uint Wire.sizeof_uint64 (_socket c) error_length true ;;
  send_bytes (_socket c) (take (Z.to_nat error_length) bytes) false.

End Worker.

(* ===================================================================== *)
(** ** Reading the log *)
(* ===================================================================== *)

(** The bytes written on descriptor [fd], in order. *)
Definition sent (fd : Z) (l : list syscall) : list byte :=
  flat_map (fun e => match e with
                     | SysSend fd' data => if fd' =? fd then data else []
                     | _ => []
                     end) l.

(** The descriptors passed to [::close], in order. *)
Definition closes (l : list syscall) : list Z :=
  flat_map (fun e => match e with SysClose fd => [fd] | _ => [] end) l.

(** The connections taken from the listening socket, in order. *)
Definition accepted (l : list syscall) : list Z :=
  flat_map (fun e => match e with SysAccept _ fd => [fd] | _ => [] end) l.

(** The effect of [send_bytes] on a usable descriptor. *)
Definition transmit (fd : Z) (data : list byte) (w : world) : world :=
  match data with
  | [] => w
  | _ => log (SysSend fd data) w
  end.

(** The effect of a completed [recv_bytes] of the first [n] inbound bytes. *)
Definition consume (fd : Z) (n : nat) (w : world) : world :=
  match n with
  | O => w
  | _ => log (SysRecv fd (take n (w_rx w !!! fd)))
           (set_rx <[fd := drop n (w_rx w !!! fd)]> w)
  end.

(** The bytes a call wrote on descriptor [fd], given the process before the
    call and the way the call ended. *)
Definition transmitted {O A} (fd : Z) (p : proc O) (o : outcome (proc O) A) : list byte :=
  match o with
  | Ret _ p' | Throw _ p' =>
      drop (length (sent fd (w_log (os p)))) (sent fd (w_log (os p')))
  | Block | Fuel => []
  end.

(* ===================================================================== *)
(** ** Executions of the master channel *)
(* ===================================================================== *)

Module Exec.

(** What happens to a constructed master object: [init] is called, the
    caller sends messages, and the listener thread takes turns of its
    loop, in any interleaving. *)
Inductive action : Type :=
| Init
| Send (msg : list byte) (rank : Z)
| Listen (fuel : nat).

Definition after {A} (o : outcome Master.t A) : option Master.t :=
  match o with
  | Ret _ p | Throw _ p => Some p
  | Block | Fuel => None
  end.

Definition exec (a : action) (p : Master.t) : option Master.t :=
  match a with
  | Init => after (Master.init p)
  | Send msg rank => after (Master.sendMessage msg rank p)
  | Listen fuel => after (Master.errorHandler_body fuel p)
  end.

(** The states an execution goes through, the first one included; it stops
    at an action that does not return. *)
Fixpoint trace (acts : list action) (p : Master.t) : list Master.t :=
  p :: match acts with
       | [] => []
       | a :: acts' =>
           match exec a p with
           | Some p' => trace acts' p'
           | None => []
           end
       end.

(** Is the failure flag set? *)
Definition failed (p : Master.t) : bool :=
  match Master._error (this p) with Some _ => true | None => false end.

(** Number of places where a sequence of flags goes from unset to set. *)
Fixpoint rises (l : list bool) : nat :=
  match l with
  | [] => 0
  | b :: l' =>
      match l' with
      | b' :: _ => (if negb b && b' then 1 else 0) + rises l'
      | [] => 0
      end
  end.

(** The poll entry of [rank] is marked as ignored. *)
Definition ignored (rank : nat) (p : Master.t) : Prop :=
  exists pe e, Master._poll_events (this p) = Some pe
               /\ pe !! rank = Some e /\ fd e = -1.

End Exec.

(* ===================================================================== *)
(** ** One wake of the listener *)
(* ===================================================================== *)

Module Wake.

(** The poll entries [recvError] works on: the cached ones, or the ones it
    builds from the connection table on its first call. *)
Definition cache (c : Master.MasterCommandChannel) : list pollfd :=
  match Master._poll_events c with
  | Some pe => pe
  | None => map (fun s => Pollfd s POLLIN 0) (Master._sockets c)
  end.

(** The entries as they are handed to [::poll]. *)
Definition armed (c : Master.MasterCommandChannel) : list pollfd :=
  map (set_revents 0) (cache c).

(** The entries as [::poll] leaves them when it reports [revs]. *)
Definition woken (c : Master.MasterCommandChannel) (revs : list Z) : list pollfd :=
  imap (fun i e => report e (revents_at revs i)) (armed c).

(** Teardown has begun, as far as the next load of [_exiting] can tell. *)
Definition exit_requested (p : Master.t) : Prop :=
  Master._exiting (this p) = true \/ w_exit_in (os p) = Some 0%nat.

(** One load of [_exiting] that precedes the destructor's store. *)
Definition tick (w : world) : world :=
  match w_exit_in w with
  | Some (S k) => set_exit_in (Some k) w
  | _ => w
  end.

(** The world after one return of [::poll] and the load that follows. *)
Definition after_wake (nfds : nat) (w : world) : world :=
  tick (log (SysPoll nfds 500) (set_polls (tail (w_polls w)) w)).


(** The entries are masked: one that is ignored shows no events. *)
Definition masked (p : Master.t) : Prop :=
  forall (i : nat) e,
    Master.poll_events (this p) !! i = Some e -> fd e < 0 -> revents e = 0.

(** When the destructor stores [_exiting] there is no listener, or the
    listener is in its wait: no load of [_exiting] of the turn it is in came
    before the store. *)
Definition in_wait (p : Master.t) : Prop :=
  Master._started (this p) = false
  \/ w_exit_in (os p) = None \/ w_exit_in (os p) = Some 0%nat.


End Wake.

(** A computation keeps a relation between the state before and the state
    it leaves behind, however it ends. *)
Definition preserves {S A} (R : S -> S -> Prop) (m : M S A) : Prop :=
  forall s, match m s with
            | Ret _ s' | Throw _ s' => R s s'
            | Block | Fuel => True
            end.

(** A system call that moves bytes on a connection or waits, with the
    bounded timeout, for something to read. *)
Definition calm (e : syscall) : Prop :=
  match e with
  | SysSend _ _ | SysRecv _ _ => True
  | SysPoll _ timeout => timeout = 500
  | _ => False
  end.

(** A change of the world that opens and closes nothing: descriptors are as
    they were and the log grew by calm system calls only. *)
Definition quiet (w w' : world) : Prop :=
  w_open w' = w_open w /\ w_listening w' = w_listening w
  /\ w_hup w' = w_hup w
  /\ exists evs, w_log w' = w_log w ++ evs /\ Forall calm evs.

(** A relation on processes that looks at the object only. *)
Definition on_this {O} (Q : O -> O -> Prop) (p p' : proc O) : Prop :=
  Q (this p) (this p').

(** The object is untouched and the world changes quietly. *)
Definition untouched {O} (p p' : proc O) : Prop :=
  this p' = this p /\ quiet (os p) (os p').

(** What [init] leaves alone in the object. *)
Definition init_keeps (c c' : Master.MasterCommandChannel) : Prop :=
  Master._error c' = Master._error c
  /\ Master._poll_events c' = Master._poll_events c
  /\ Master._exiting c' = Master._exiting c
  /\ length (Master._sockets c') = length (Master._sockets c).

(** How the cached poll entries evolve: once built they keep their number,
    and an entry keeps its descriptor or is marked with -1. *)
Definition pe_step (o o' : option (list pollfd)) : Prop :=
  match o with
  | None => True
  | Some pe =>
      exists pe', o' = Some pe' /\ length pe' = length pe
        /\ forall i e, pe !! i = Some e ->
             exists e', pe' !! i = Some e' /\ (fd e' = fd e \/ fd e' = -1)
  end.

(** What a call of [recvError] leaves alone. *)
Definition listener_keeps (p p' : Master.t) : Prop :=
  Master._sockets (this p') = Master._sockets (this p)
  /\ Master._error (this p') = Master._error (this p)
  /\ Master._started (this p') = Master._started (this p)
  /\ (Master._exiting (this p) = true -> Master._exiting (this p') = true)
  /\ pe_step (Master._poll_events (this p)) (Master._poll_events (this p'))
  /\ quiet (os p) (os p').

(* ===================================================================== *)
(** ** Workers joining *)
(* ===================================================================== *)

Module Join.

(** What a worker writes first on its connection: its rank, raw. *)
Definition handshake (rank : nat) : list byte :=
  Wire.encode_uint Wire.sizeof_rank_type (Z.of_nat rank).

(** A connection on its way in: the descriptor [accept] will return for it,
    the rank the worker announces, and what the worker writes after that. *)
Definition arrival : Type := Z * nat * list byte.
Definition a_fd (a : arrival) : Z := fst (fst a).
Definition a_rank (a : arrival) : nat := snd (fst a).
Definition a_extra (a : arrival) : list byte := snd a.

Definition backlog_of (arr : list arrival) : list (Z * list byte) :=
  map (fun a => (a_fd a, handshake (a_rank a) ++ a_extra a)) arr.

(** The world after [accept] has returned the connection at the head of the
    backlog and the rank has been read from it. *)
Definition accept_world (lfd : Z) (w : world) (a : arrival) : world :=
  consume (a_fd a) Wire.sizeof_rank_type
    (log (SysAccept lfd (a_fd a))
       (set_rx <[a_fd a := handshake (a_rank a) ++ a_extra a]>
          (set_backlog (tail (w_backlog w)) (set_open (union {[a_fd a]}) w)))).

(** The table after the connection has been stored. *)
Definition slot (sockets : list Z) (a : arrival) : list Z :=
  <[a_rank a := a_fd a]> sockets.

(** The system calls of one turn of the accept loop. *)
Definition join_calls (lfd : Z) (a : arrival) : list syscall :=
  [SysAccept lfd (a_fd a); SysRecv (a_fd a) (handshake (a_rank a))].

(** The workers of a job, each with its connection, in their order of
    arrival. *)
Definition workers (conn : nat -> Z) (extra : nat -> list byte) (order : list nat)
  : list arrival :=
  map (fun r => (conn r, r, extra r)) order.

(** The world after the confirmation byte has gone to the given ranks. *)
Definition confirm_world (sockets : list Z) (w : world) (i : nat) : world :=
  log (SysSend (sockets !!! i) [x01]) w.

(** The state [init] is in when it has accepted the connections [arr], all
    of which announced ranks of workers. *)
Definition loop_state (port : Z) (n : nat) (w : world) (arr : list arrival)
  : Master.t :=
  let lfd := w_next_fd w in
  Proc (Master.set_sockets (fun s => foldl slot s arr)
          (Master.set_sockets <[0%nat := lfd]> (Master.new port n)))
       (foldl (accept_world lfd)
          (log (SysListen port lfd)
             (set_listening (Some lfd) (set_open (union {[lfd]}) w)))
          arr).

(** The descriptors the table holds. *)
Definition held (c : Master.MasterCommandChannel) : list Z :=
  filter (fun fd => fd <> -1) (Master._sockets c).

(** The table and the process agree: the open descriptors are the ones the
    table holds, each in one slot, and none of them was closed before. *)
Definition tidy (p : Master.t) : Prop :=
  NoDup (closes (w_log (os p)) ++ held (this p))
  /\ forall fd, fd ∈ w_open (os p) <-> fd ∈ held (this p).

End Join.

(* ===================================================================== *)
(** ** A small job, used to run the definitions *)
(* ===================================================================== *)

Module Demo.

(** An error frame as a worker writes it. *)
Definition frame (text : string) : list byte :=
  Wire.encode_uint Wire.sizeof_uint64 (Z.of_nat (String.length text))
  ++ list_byte_of_string text.

Definition handshake := Join.handshake.

(** World size 2: the listening socket gets descriptor 4; worker 1 comes in
    on descriptor 5 and later reports "boom". *)
Definition world2 : world :=
  World ∅ None 4 [(5, handshake 1 ++ frame "boom")] ∅ ∅
        [PollReady 1 [0; POLLIN]] None [].

Definition master2 : Master.t := Proc (Master.new 29500 2) world2.

Definition run (acts : list Exec.action) (p : Master.t) : Master.t :=
  match last (Exec.trace acts p) with Some p' => p' | None => p end.

(** After [init] and one turn of the listener the flag is set. *)
Definition failed2 : Master.t := run [Exec.Init; Exec.Listen 1] master2.

(** World size 3: workers arrive in the order 2, 1 on descriptors 5 and 6.
    At the first wake worker 1 has an error frame to read and worker 2 has
    hung up (POLLHUP is 16). *)
Definition world3 : world :=
  World ∅ None 4 [(5, handshake 2); (6, handshake 1 ++ frame "boom")] ∅ ∅
        [PollReady 2 [0; POLLIN; 16]] None [].

Definition master3 : Master.t := run [Exec.Init] (Proc (Master.new 29500 3) world3).


(** The job of [world2] once [init] has returned. *)
Definition ready2 : Master.t := run [Exec.Init] master2.

(** Worker 1 of that job, past its own [init], with the given bytes
    waiting on its connection (descriptor 3). *)
Definition worker1 (inbound : list byte) : Worker.t :=
  Proc (Worker.set_socket 3 (Worker.new 1 "master" 29500))
       (World {[3]} None 3 [] {[3 := inbound]} ∅ [] None []).



(** World size 4: worker [r] comes in on descriptor [10 + r]; the workers
    arrive in the order 3, 2, 1. *)
Definition conn4 (r : nat) : Z := 10 + Z.of_nat r.

Definition world4 : world :=
  World ∅ None 4
        (Join.backlog_of (Join.workers conn4 (fun _ => []) [3; 2; 1]%nat))
        ∅ ∅ [] None [].

(** A worker of rank [r] before its [init], with the given bytes coming in
    on the connection it is going to open (descriptor 3). *)
Definition worker_new (r : nat) (inbound : list byte) : Worker.t :=
  Proc (Worker.new r "master" 29500)
       (World ∅ None 3 [] {[3 := inbound]} ∅ [] None []).

(** World size 3 where both connections announce rank 1. *)
Definition world3_twice : world :=
  World ∅ None 4 (Join.backlog_of [(5, 1%nat, []); (6, 1%nat, [])]) ∅ ∅ [] None [].

(** World size 3 where the first connection announces rank 0, or rank 9. *)
Definition world3_announcing (rank : nat) : world :=
  World ∅ None 4 (Join.backlog_of [(5, rank, []); (6, 1%nat, [])]) ∅ ∅ [] None [].

(** The job of [world3] when worker 1 went away after the first two bytes
    of a frame. *)
Definition master3_cut : Master.t :=
  let w := os master3 in
  Proc (this master3)
       (World (w_open w) (w_listening w) (w_next_fd w) (w_backlog w)
              (<[6 := [x00; x00]]> (w_rx w)) {[6]}
              [PollReady 1 [0; POLLIN; 0]] None (w_log w)).

(** The job of [world3] when worker 1 went away after the length of a
    report and two of the four bytes it announces. *)
Definition master3_cut_body : Master.t :=
  let w := os master3 in
  Proc (this master3)
       (World (w_open w) (w_listening w) (w_next_fd w) (w_backlog w)
              (<[6 := Wire.encode_uint 8 4 ++ [x62; x6f]]> (w_rx w)) {[6]}
              [PollReady 1 [0; POLLIN; 0]] None (w_log w)).

(** The job of [world3] when the destructor's store to [_exiting] lands
    after the listener's load that follows [::poll] and before its next
    one. *)
Definition master3_leaving : Master.t :=
  Proc (this master3) (set_exit_in (Some 1%nat) (os master3)).

(** The job of [world3] when worker 2 hangs up first and the report of
    worker 1 shows at the wake after that. *)
Definition master3_hup_first : Master.t :=
  Proc (this master3) (set_polls [PollReady 1 [0; 0; 16]; PollReady 1 [0; POLLIN; 0]]
                         (os master3)).

(** The job of [world3] when the destructor runs while the listener, past
    its test of [_exiting] for this turn, is reading a report of worker 1
    of which the length and two of four bytes have arrived; worker 1 is
    still connected and sends nothing more. *)
Definition master3_reading : Master.t :=
  let w := os master3 in
  Proc (this master3)
       (World (w_open w) (w_listening w) (w_next_fd w) (w_backlog w)
              (<[6 := Wire.encode_uint 8 4 ++ [x62; x6f]]> (w_rx w)) (w_hup w)
              [PollReady 1 [0; POLLIN; 0]] (Some 1%nat) (w_log w)).

(** World size 3 after an [init] that threw because the first connection
    (descriptor 5) announced rank 9: the connection is open and in no slot. *)
Definition master3_rejected : Master.t :=
  match Master.init (Proc (Master.new 29500 3) (world3_announcing 9)) with
  | Throw _ p => p
  | _ => Proc (Master.new 29500 3) (world3_announcing 9)
  end.

End Demo.

(* ===================================================================== *)
(** ** Callers that send and receive several frames *)
(* ===================================================================== *)

Module Stream.
Local Open Scope cmd_scope.

(** A caller on the master that sends the messages, in order, to one rank. *)
Definition send_all (msgs : list (list byte)) (rank : Z) : M Master.t unit :=
  for_each msgs (fun msg => Master.sendMessage msg rank).

(** A caller on the worker that takes [n] messages off its connection. *)
Fixpoint recv_all (n : nat) : M Worker.t (list (list byte)) :=
  match n with
  | O => ret []
  | S n' =>
      msg <- Worker.recvMessage ;;
      msgs <- recv_all n' ;;
      ret (msg :: msgs)
  end.

(** The bytes of one frame, and of several frames one after the other. *)
Definition frame (payload : list byte) : list byte :=
  Wire.encode_uint Wire.sizeof_uint64 (Z.of_nat (length payload)) ++ payload.

Definition frames (msgs : list (list byte)) : list byte :=
  flat_map frame msgs.

End Stream.

(* ===================================================================== *)
(** ** What a call did to the world and to the object *)
(* ===================================================================== *)

(** A system call of a listener that only waits and reads. *)
Definition listens (e : syscall) : Prop :=
  match e with
  | SysPoll _ timeout => timeout = 500
  | SysRecv _ _ => True
  | _ => False
  end.

(** The world changed by waiting and reading only. *)
Definition hears (w w' : world) : Prop :=
  w_open w' = w_open w
  /\ exists evs, w_log w' = w_log w ++ evs /\ Forall listens evs.

(** A write on descriptor [fd]. *)
Definition writes_on (fd : Z) (e : syscall) : Prop :=
  match e with
  | SysSend fd' _ => fd' = fd
  | _ => False
  end.

(** The world changed by writes on descriptor [fd] only. *)
Definition wrote_on (fd : Z) (w w' : world) : Prop :=
  w_open w' = w_open w /\ w_rx w' = w_rx w /\ w_polls w' = w_polls w
  /\ exists evs, w_log w' = w_log w ++ evs /\ Forall (writes_on fd) evs.

(** A computation from which no exception escapes. *)
Definition no_throw {S A} (m : M S A) : Prop :=
  forall s e s', m s <> Throw e s'.

(** The listener relation on processes: whatever happened to the object,
    the world changed by waiting and reading only. *)
Definition heard (p p' : Master.t) : Prop := hears (os p) (os p').

(** The object is as it was and the world changed by writes on [fd] only. *)
Definition only_wrote {O} (fd : Z) (p p' : proc O) : Prop :=
  this p' = this p /\ wrote_on fd (os p) (os p').

(** The decimal digits [to_string] writes; there is always one: zero is
    written as the digit 0. *)
Definition digits_of (n : nat) : Decimal.uint :=
  match Nat.to_uint n with
  | Decimal.Nil => Decimal.D0 Decimal.Nil
  | d => d
  end.

(** The cached poll entries fit a table of [n] slots: one entry per slot,
    each asking for [POLLIN]. *)
Definition cache_fits (n : nat) (c : Master.MasterCommandChannel) : Prop :=
  length (Master._sockets c) = n
  /\ forall pe, Master._poll_events c = Some pe ->
       length pe = n /\ Forall (fun e => events e = POLLIN) pe.

(** A system call that, if it is a [::poll], is given [n] entries. *)
Definition polls_all (n : nat) (e : syscall) : Prop :=
  match e with
  | SysPoll nfds _ => nfds = n
  | _ => True
  end.

(** Once the entries are cached and fit, they go on fitting and every
    [::poll] is given all of them. *)
Definition sized (n : nat) (p p' : Master.t) : Prop :=
  cache_fits n (this p) -> Master._poll_events (this p) <> None ->
  cache_fits n (this p') /\ Master._poll_events (this p') <> None
  /\ exists evs, w_log (os p') = w_log (os p) ++ evs /\ Forall (polls_all n) evs.

(* ===================================================================== *)
(** * Properties *)
(* ===================================================================== *)

(** ** Fixed-width integers *)

Module WireFacts.
Import Wire.

Lemma Z_of_byte_of_Z (z : Z) : Z_of_byte (byte_of_Z z) = z mod 256.
Proof.
  unfold Z_of_byte, byte_of_Z.
  assert (Hr : 0 <= z mod 256 < 256) by (apply Z.mod_pos_bound; lia).
  destruct (Byte.of_N (Z.to_N (z mod 256))) as [b|] eqn:E.
  - apply Byte.to_of_N in E. rewrite E. lia.
  - apply Byte.of_N_None_iff in E. lia.
Qed.

Lemma Z_of_byte_range (b : byte) : 0 <= Z_of_byte b < 256.
Proof.
  unfold Z_of_byte. pose proof (Byte.to_N_bounded b). lia.
Qed.

Lemma length_encode_uint (width : nat) (v : Z) :
  length (encode_uint width v) = width.
Proof. induction width as [|w IH]; simpl; [reflexivity | now rewrite IH]. Qed.

Lemma decode_encode_acc (width : nat) (v acc : Z) :
  fold_left (fun a b => a * 256 + Z_of_byte b) (encode_uint width v) acc
  = acc * 256 ^ Z.of_nat width + v mod 256 ^ Z.of_nat width.
Proof.
  revert acc. induction width as [|w IH]; intros acc.
  - simpl. rewrite Z.mod_1_r. lia.
  - cbn [encode_uint fold_left]. rewrite IH, Z_of_byte_of_Z.
    rewrite Nat2Z.inj_succ, Z.pow_succ_r by lia.
    rewrite (Z.mul_comm 256 (256 ^ Z.of_nat w)).
    rewrite (Z.rem_mul_r v (256 ^ Z.of_nat w) 256) by lia.
    ring.
Qed.

Lemma decode_encode_uint (width : nat) (v : Z) :
  decode_uint (encode_uint width v) = v mod 256 ^ Z.of_nat width.
Proof. unfold decode_uint. rewrite decode_encode_acc. lia. Qed.

Lemma decode_encode_uint64 (v : Z) :
  0 <= v < 2 ^ 64 -> decode_uint (encode_uint sizeof_uint64 v) = v.
Proof.
  intros Hv. rewrite decode_encode_uint.
  change (256 ^ Z.of_nat sizeof_uint64) with (2 ^ 64).
  apply Z.mod_small; exact Hv.
Qed.

Lemma decode_encode_rank (r : nat) :
  Z.of_nat r < 2 ^ 32 ->
  Z.to_nat (decode_uint (encode_uint sizeof_rank_type (Z.of_nat r))) = r.
Proof.
  intros Hr. rewrite decode_encode_uint.
  change (256 ^ Z.of_nat sizeof_rank_type) with (2 ^ 32).
  rewrite Z.mod_small by lia. apply Nat2Z.id.
Qed.

Lemma decode_uint_bound (bs : list byte) :
  0 <= decode_uint bs < 256 ^ Z.of_nat (length bs).
Proof.
  unfold decode_uint.
  enough (H : forall acc, 0 <= acc ->
    0 <= fold_left (fun a b => a * 256 + Z_of_byte b) bs acc
      < (acc + 1) * 256 ^ Z.of_nat (length bs)).
  { specialize (H 0 ltac:(lia)). lia. }
  induction bs as [|b bs IH]; intros acc Hacc.
  - simpl. lia.
  - cbn [fold_left length]. pose proof (Z_of_byte_range b) as Hb.
    specialize (IH (acc * 256 + Z_of_byte b) ltac:(lia)).
    rewrite Nat2Z.inj_succ, Z.pow_succ_r by lia.
    assert (0 < 256 ^ Z.of_nat (length bs)) by (apply Z.pow_pos_nonneg; lia).
    nia.
Qed.

Lemma to_uint64_small (n : Z) : 0 <= n < 2 ^ 64 -> to_uint64 n = n.
Proof. intros H. unfold to_uint64. now apply Z.mod_small. Qed.

Lemma to_uint64_range (n : Z) : 0 <= to_uint64 n < 2 ^ 64.
Proof. unfold to_uint64. apply Z.mod_pos_bound. lia. Qed.

End WireFacts.

(** ** The socket helpers, step by step *)

Section Helpers.
Context {O : Type}.
Implicit Types (p : proc O) (fd : Z).

Lemma send_bytes_usable fd data more p :
  usable fd (os p) = true ->
  send_bytes fd data more p = Ret tt (Proc (this p) (transmit fd data (os p))).
Proof.
  intros Hu. destruct p as [c w]. destruct data as [|b data]; [reflexivity|].
  unfold send_bytes, bind, get_os, modify_os. simpl in *. now rewrite Hu.
Qed.

Lemma send_bytes_unusable fd data more p :
  usable fd (os p) = false -> data <> [] ->
  send_bytes fd data more p = Throw (system_error "send") p.
Proof.
  intros Hu Hd. destruct p as [c w]. destruct data as [|b data]; [congruence|].
  unfold send_bytes, bind, get_os, throw. simpl in *. now rewrite Hu.
Qed.

Lemma recv_bytes_ready fd (n : nat) p :
  fd ∈ w_open (os p) ->
  (n <= length (w_rx (os p) !!! fd))%nat ->
  recv_bytes fd (Z.of_nat n) p
  = Ret (take n (w_rx (os p) !!! fd)) (Proc (this p) (consume fd n (os p))).
Proof.
  intros Ho Hn. destruct p as [c w]. simpl in *.
  destruct n as [|n].
  - unfold recv_bytes. simpl. now rewrite take_0.
  - unfold recv_bytes, bind, get_os, modify_os, ret.
    replace (Z.of_nat (S n) <=? 0) with false by (symmetry; apply Z.leb_gt; lia).
    simpl os. rewrite bool_decide_eq_true_2 by exact Ho.
    replace (Z.of_nat (S n) <=? Z.of_nat (length (w_rx w !!! fd))) with true
      by (symmetry; apply Z.leb_le; lia).
    rewrite Nat2Z.id. reflexivity.
Qed.

Lemma recv_bytes_waits fd (n : Z) p :
  fd ∈ w_open (os p) -> fd ∉ w_hup (os p) ->
  Z.of_nat (length (w_rx (os p) !!! fd)) < n ->
  recv_bytes fd n p = Block.
Proof.
  intros Ho Hh Hn. destruct p as [c w]. simpl in *.
  unfold recv_bytes, bind, get_os, block.
  replace (n <=? 0) with false by (symmetry; apply Z.leb_gt; lia).
  simpl os. rewrite bool_decide_eq_true_2 by exact Ho.
  replace (n <=? Z.of_nat (length (w_rx w !!! fd))) with false
    by (symmetry; apply Z.leb_gt; lia).
  now rewrite bool_decide_eq_false_2 by exact Hh.
Qed.

Lemma usable_transmit fd fd' data w :
  usable fd (transmit fd' data w) = usable fd w.
Proof. destruct data; reflexivity. Qed.

Lemma w_log_transmit fd data w :
  w_log (transmit fd data w)
  = w_log w ++ match data with [] => [] | _ => [SysSend fd data] end.
Proof. destruct data; simpl; [now rewrite app_nil_r | reflexivity]. Qed.

Lemma sent_app fd l1 l2 : sent fd (l1 ++ l2) = sent fd l1 ++ sent fd l2.
Proof. unfold sent. apply flat_map_app. Qed.

Lemma sent_transmit fd data w :
  sent fd (w_log (transmit fd data w)) = sent fd (w_log w) ++ data.
Proof.
  rewrite w_log_transmit, sent_app. f_equal.
  destruct data as [|b data]; [reflexivity|].
  simpl. rewrite Z.eqb_refl. now rewrite app_nil_r.
Qed.

Lemma sent_transmit_other fd fd' data w :
  fd' <> fd -> sent fd (w_log (transmit fd' data w)) = sent fd (w_log w).
Proof.
  intros Hne. rewrite w_log_transmit, sent_app.
  destruct data as [|b data]; simpl; [now rewrite app_nil_r|].
  apply Z.eqb_neq in Hne. rewrite Hne. now rewrite app_nil_r.
Qed.

End Helpers.

(** ** Framing *)

Section FramingFacts.
Context {O : Type}.
Implicit Types (p : proc O) (fd : Z).
Import Wire WireFacts.

Lemma sendMessage_usable fd bytes p :
  usable fd (os p) = true ->
  Z.of_nat (length bytes) < 2 ^ 64 ->
  thd.sendMessage fd bytes p
  = Ret tt (Proc (this p)
              (transmit fd bytes
                 (transmit fd (encode_uint sizeof_uint64 (Z.of_nat (length bytes)))
                    (os p)))).
Proof.
  intros Hu Hlen. unfold thd.sendMessage, send_uint, bind.
  rewrite to_uint64_small by lia.
  rewrite send_bytes_usable by exact Hu.
  rewrite send_bytes_usable by (cbn [os]; now rewrite usable_transmit).
  cbn [os this]. rewrite Nat2Z.id, firstn_all. reflexivity.
Qed.

Lemma receiveMessage_frame fd p (hdr body rest : list byte) :
  fd ∈ w_open (os p) ->
  w_rx (os p) !!! fd = hdr ++ body ++ rest ->
  length hdr = sizeof_uint64 ->
  decode_uint hdr = Z.of_nat (length body) ->
  thd.receiveMessage fd p
  = Ret body (Proc (this p)
                (consume fd (length body) (consume fd sizeof_uint64 (os p)))).
Proof.
  intros Ho Hrx Hh Hd. unfold thd.receiveMessage, recv_uint, bind, ret.
  rewrite recv_bytes_ready; [|exact Ho|rewrite Hrx, length_app; lia].
  assert (Hrx1 : w_rx (consume fd sizeof_uint64 (os p)) !!! fd = body ++ rest).
  { simpl. rewrite lookup_total_insert_eq, Hrx.
    change 8%nat with sizeof_uint64. rewrite <- Hh. apply drop_app_length. }
  rewrite Hrx, <- Hh, take_app_length, Hd.
  rewrite recv_bytes_ready.
  - cbn [os this]. rewrite Hh, Hrx1, take_app_length. reflexivity.
  - cbn [os]. rewrite Hh. destruct p as [c w]. exact Ho.
  - cbn [os]. rewrite Hh, Hrx1, length_app. lia.
Qed.

Lemma w_rx_consume fd n w :
  w_rx (consume fd n w) !!! fd = drop n (w_rx w !!! fd).
Proof.
  destruct n as [|n]; [now rewrite drop_0|].
  simpl. now rewrite lookup_total_insert_eq.
Qed.

Lemma w_open_consume fd n w : w_open (consume fd n w) = w_open w.
Proof. destruct n; reflexivity. Qed.

Lemma w_log_consume fd n w :
  w_log (consume fd n w)
  = w_log w ++ match n with
               | 0%nat => []
               | _ => [SysRecv fd (take n (w_rx w !!! fd))]
               end.
Proof. destruct n; simpl; [now rewrite app_nil_r | reflexivity]. Qed.

End FramingFacts.

(** ** Frame rules *)

Section Frame.
Context {S : Type} (R : S -> S -> Prop).
Hypothesis R_refl : forall s, R s s.
Hypothesis R_trans : forall s1 s2 s3, R s1 s2 -> R s2 s3 -> R s1 s3.

Lemma preserves_ret {A} (a : A) : preserves R (ret a).
Proof. intros s. apply R_refl. Qed.

Lemma preserves_throw {A} (e : exn) : preserves R (@throw S A e).
Proof. intros s. apply R_refl. Qed.

Lemma preserves_bind {A B} (m : M S A) (k : A -> M S B) :
  preserves R m -> (forall a, preserves R (k a)) -> preserves R (bind m k).
Proof.
  intros Hm Hk s. unfold bind. specialize (Hm s).
  destruct (m s) as [a s'| e s'| |]; try exact I; try exact Hm.
  specialize (Hk a s'). destruct (k a s'); try exact I; eauto.
Qed.

Lemma preserves_try_catch {A} (m : M S A) (h : exn -> M S A) :
  preserves R m -> (forall e, preserves R (h e)) -> preserves R (try_catch m h).
Proof.
  intros Hm Hh s. unfold try_catch. specialize (Hm s).
  destruct (m s) as [a s'| e s'| |]; try exact I; try exact Hm.
  specialize (Hh e s'). destruct (h e s'); try exact I; eauto.
Qed.

Lemma preserves_if {A} (b : bool) (m1 m2 : M S A) :
  preserves R m1 -> preserves R m2 -> preserves R (if b then m1 else m2).
Proof. destruct b; auto. Qed.

Lemma preserves_fuel {A} : preserves R (fun _ : S => @Fuel S A).
Proof. intros s. exact I. Qed.

End Frame.

Lemma preserves_weaken {S A} (R R' : S -> S -> Prop) (m : M S A) :
  (forall s s', R s s' -> R' s s') -> preserves R m -> preserves R' m.
Proof.
  intros HR Hm s. specialize (Hm s). destruct (m s); auto.
Qed.

Lemma quiet_refl w : quiet w w.
Proof.
  repeat split. exists []. split; [now rewrite app_nil_r | constructor].
Qed.

Lemma quiet_trans w1 w2 w3 : quiet w1 w2 -> quiet w2 w3 -> quiet w1 w3.
Proof.
  unfold quiet. intros (?&?&?&evs1&E1&F1) (?&?&?&evs2&E2&F2).
  split; [congruence|]. split; [congruence|]. split; [congruence|].
  exists (evs1 ++ evs2). split.
  - rewrite E2, E1. now rewrite app_assoc.
  - apply Forall_app. split; assumption.
Qed.

Lemma closes_app l1 l2 : closes (l1 ++ l2) = closes l1 ++ closes l2.
Proof. apply flat_map_app. Qed.

Lemma accepted_app l1 l2 : accepted (l1 ++ l2) = accepted l1 ++ accepted l2.
Proof. apply flat_map_app. Qed.

Section HelperFrames.
Context {O : Type}.
Implicit Types (p : proc O) (fd : Z).

Lemma untouched_refl p : untouched p p.
Proof. split; [reflexivity | apply quiet_refl]. Qed.

Lemma untouched_trans p1 p2 p3 : untouched p1 p2 -> untouched p2 p3 -> untouched p1 p3.
Proof.
  intros [H1 Q1] [H2 Q2]. split; [congruence | eapply quiet_trans; eauto].
Qed.

Lemma quiet_log (e : syscall) w : calm e -> quiet w (log e w).
Proof.
  intros He. repeat split. exists [e]. split; [reflexivity|].
  constructor; [exact He | constructor].
Qed.

Lemma calm_closes evs : Forall calm evs -> closes evs = [].
Proof.
  induction 1 as [|e evs He _ IH]; [reflexivity|].
  destruct e; simpl in *; try contradiction; exact IH.
Qed.

Lemma calm_accepted evs : Forall calm evs -> accepted evs = [].
Proof.
  induction 1 as [|e evs He _ IH]; [reflexivity|].
  destruct e; simpl in *; try contradiction; exact IH.
Qed.

Lemma quiet_closes w w' : quiet w w' -> closes (w_log w') = closes (w_log w).
Proof.
  intros (_&_&_&evs&E&F). rewrite E, closes_app, (calm_closes evs F).
  apply app_nil_r.
Qed.

Lemma quiet_accepted w w' : quiet w w' -> accepted (w_log w') = accepted (w_log w).
Proof.
  intros (_&_&_&evs&E&F). rewrite E, accepted_app, (calm_accepted evs F).
  apply app_nil_r.
Qed.

Lemma send_bytes_untouched fd data more :
  preserves untouched (@send_bytes O fd data more).
Proof.
  intros [c w]. unfold send_bytes. destruct data as [|b data].
  - apply untouched_refl.
  - unfold bind, get_os, modify_os, throw. simpl.
    destruct (usable fd w).
    + split; [reflexivity | apply quiet_log; exact I].
    + apply untouched_refl.
Qed.

Lemma recv_bytes_untouched fd n :
  preserves untouched (@recv_bytes O fd n).
Proof.
  intros [c w]. unfold recv_bytes. destruct (n <=? 0).
  - apply untouched_refl.
  - unfold bind, get_os, modify_os, throw, ret, block. simpl.
    destruct (bool_decide (fd ∈ w_open w)); [|apply untouched_refl].
    destruct (n <=? Z.of_nat (length (w_rx w !!! fd))).
    + split; [reflexivity|]. repeat split.
      eexists [_]. split; [reflexivity|]. constructor; [exact I | constructor].
    + destruct (bool_decide (fd ∈ w_hup w)); [|exact I].
      split; [reflexivity|]. repeat split.
      exists []. split; [simpl; now rewrite app_nil_r | constructor].
Qed.

Lemma recv_uint_untouched width fd :
  preserves untouched (@recv_uint O width fd).
Proof.
  unfold recv_uint. apply preserves_bind.
  - apply untouched_trans.
  - apply recv_bytes_untouched.
  - intros a. apply preserves_ret, untouched_refl.
Qed.

Lemma quiet_poll w n :
  quiet w (log (SysPoll n 500) (set_polls (tail (w_polls w)) w)).
Proof.
  repeat split. eexists [_]. split; [reflexivity|].
  constructor; [reflexivity | constructor].
Qed.

Lemma poll_untouched fds : preserves untouched (@poll O fds 500).
Proof.
  intros [c w]. unfold poll, bind, get_os, modify_os, throw, ret. simpl.
  pose proof (quiet_poll w (length fds)) as Hq.
  destruct (w_polls w) as [|[msg|r revs] rest]; (split; [reflexivity | exact Hq]).
Qed.

Lemma sendMessage_untouched fd bytes :
  preserves untouched (@thd.sendMessage O fd bytes).
Proof.
  unfold thd.sendMessage, send_uint. apply preserves_bind.
  - apply untouched_trans.
  - apply send_bytes_untouched.
  - intros _. apply send_bytes_untouched.
Qed.

End HelperFrames.

Section ThisOnly.
Context {O : Type} (Q : O -> O -> Prop).
Hypothesis Q_refl : forall c, Q c c.
Hypothesis Q_trans : forall c1 c2 c3, Q c1 c2 -> Q c2 c3 -> Q c1 c3.
Implicit Types (p : proc O) (fd : Z).

Lemma on_this_refl p : on_this Q p p.
Proof. apply Q_refl. Qed.

Lemma on_this_trans p1 p2 p3 : on_this Q p1 p2 -> on_this Q p2 p3 -> on_this Q p1 p3.
Proof. unfold on_this. eauto. Qed.

Lemma on_this_untouched p p' : untouched p p' -> on_this Q p p'.
Proof. intros [H _]. unfold on_this. rewrite H. apply Q_refl. Qed.

Lemma modify_os_on_this (f : world -> world) :
  preserves (on_this Q) (@modify_os O f).
Proof. intros [c w]. apply Q_refl. Qed.

Lemma modify_this_on_this (f : O -> O) :
  (forall c, Q c (f c)) -> preserves (on_this Q) (modify_this f).
Proof. intros Hf [c w]. apply Hf. Qed.

Lemma get_this_on_this : preserves (on_this Q) (@get_this O).
Proof. intros [c w]. apply Q_refl. Qed.

Lemma get_os_on_this : preserves (on_this Q) (@get_os O).
Proof. intros [c w]. apply Q_refl. Qed.

Lemma send_bytes_on_this fd data more :
  preserves (on_this Q) (@send_bytes O fd data more).
Proof.
  eapply preserves_weaken; [apply on_this_untouched | apply send_bytes_untouched].
Qed.

Lemma recv_uint_on_this width fd :
  preserves (on_this Q) (@recv_uint O width fd).
Proof.
  eapply preserves_weaken; [apply on_this_untouched | apply recv_uint_untouched].
Qed.

Lemma listen_on_this port : preserves (on_this Q) (@listen O port).
Proof. intros [c w]. apply Q_refl. Qed.

Lemma connect_on_this addr port : preserves (on_this Q) (@connect O addr port).
Proof. intros [c w]. apply Q_refl. Qed.

Lemma close_on_this fd : preserves (on_this Q) (@close O fd).
Proof. intros [c w]. apply Q_refl. Qed.

Lemma accept_on_this lfd : preserves (on_this Q) (@accept O lfd).
Proof.
  intros [c w]. unfold accept, bind, get_os. simpl.
  destruct (bool_decide (w_listening w = Some lfd) && bool_decide (lfd ∈ w_open w)).
  - destruct (w_backlog w) as [|[fd inbound] rest]; [exact I | apply Q_refl].
  - apply Q_refl.
Qed.

Lemma for_each_preserves {A} (R : proc O -> proc O -> Prop) (l : list A)
      (body : A -> M (proc O) unit) :
  (forall p, R p p) -> (forall p1 p2 p3, R p1 p2 -> R p2 p3 -> R p1 p3) ->
  (forall x, preserves R (body x)) -> preserves R (for_each l body).
Proof.
  intros Hr Ht Hb. induction l as [|x l IH]; simpl.
  - now apply preserves_ret.
  - apply preserves_bind; auto.
Qed.

End ThisOnly.

(** ** The master channel: what each method leaves alone *)

Module MasterFrames.
Import Master.

Lemma init_keeps_refl c : init_keeps c c.
Proof. repeat split. Qed.

Lemma init_keeps_trans c1 c2 c3 :
  init_keeps c1 c2 -> init_keeps c2 c3 -> init_keeps c1 c3.
Proof. unfold init_keeps. intros (?&?&?&?) (?&?&?&?). repeat split; congruence. Qed.

Lemma init_keeps_set_sockets i v c : init_keeps c (set_sockets <[i := v]> c).
Proof. repeat split. simpl. apply length_insert. Qed.

#[local] Hint Resolve init_keeps_refl init_keeps_trans init_keeps_set_sockets : core.

Ltac frame_init :=
  repeat lazymatch goal with
  | |- preserves _ (bind _ _) =>
      apply preserves_bind; [apply on_this_trans; apply init_keeps_trans | | intros ?]
  | |- preserves _ (ret _) => apply preserves_ret; apply on_this_refl; apply init_keeps_refl
  | |- preserves _ (throw _) => apply preserves_throw; apply on_this_refl; apply init_keeps_refl
  | |- preserves _ (if _ then _ else _) => apply preserves_if
  | |- preserves _ get_this => apply get_this_on_this; apply init_keeps_refl
  | |- preserves _ (modify_os _) => apply modify_os_on_this; apply init_keeps_refl
  | |- preserves _ (modify_this _) =>
      apply modify_this_on_this; intros ?; solve [auto | repeat split]
  | |- preserves _ (listen _) => apply listen_on_this; apply init_keeps_refl
  | |- preserves _ (accept _) => apply accept_on_this; apply init_keeps_refl
  | |- preserves _ (close _) => apply close_on_this; apply init_keeps_refl
  | |- preserves _ (recv_uint _ _) => apply recv_uint_on_this; apply init_keeps_refl
  | |- preserves _ (send_bytes _ _ _) => apply send_bytes_on_this; apply init_keeps_refl
  | |- preserves _ (for_each _ _) =>
      apply for_each_preserves;
      [apply on_this_refl, init_keeps_refl
      | apply on_this_trans, init_keeps_trans
      | intros ?]
  end.

Lemma sockets_at_put_keeps rank socket :
  preserves (on_this init_keeps) (sockets_at_put rank socket).
Proof. unfold sockets_at_put. frame_init. Qed.

Lemma accept_one_keeps : preserves (on_this init_keeps) accept_one.
Proof. unfold accept_one. frame_init. apply sockets_at_put_keeps. Qed.

Lemma confirm_one_keeps i : preserves (on_this init_keeps) (confirm_one i).
Proof. unfold confirm_one. frame_init. Qed.

Lemma init_preserves : preserves (on_this init_keeps) init.
Proof.
  unfold init. frame_init.
  - apply accept_one_keeps.
  - apply confirm_one_keeps.
Qed.

Lemma sendMessage_preserves msg rank : preserves untouched (sendMessage msg rank).
Proof.
  intros p. unfold sendMessage, bind, get_this.
  destruct (_error (this p)) as [e|].
  - apply untouched_refl.
  - destruct ((rank <=? 0) || _).
    + apply untouched_refl.
    + apply sendMessage_untouched.
Qed.

End MasterFrames.

Module ListenerFrames.
Import Master.

Lemma pe_step_refl o : pe_step o o.
Proof.
  destruct o as [pe|]; simpl; [|exact I].
  exists pe. repeat split. intros i e He. exists e. auto.
Qed.

Lemma pe_step_trans o1 o2 o3 : pe_step o1 o2 -> pe_step o2 o3 -> pe_step o1 o3.
Proof.
  destruct o1 as [pe1|]; simpl; [|auto].
  intros (pe2 & -> & Hl2 & H2). simpl.
  intros (pe3 & -> & Hl3 & H3).
  exists pe3. repeat split; [congruence|].
  intros i e He. destruct (H2 i e He) as (e2 & He2 & Hfd2).
  destruct (H3 i e2 He2) as (e3 & He3 & Hfd3).
  exists e3. split; [exact He3|]. destruct Hfd2, Hfd3; (left + right); congruence.
Qed.

Lemma pe_step_update (c : MasterCommandChannel) (pe' : list pollfd) :
  length pe' = length (poll_events c) ->
  (forall i e e', poll_events c !! i = Some e -> pe' !! i = Some e' ->
                  fd e' = fd e \/ fd e' = -1) ->
  pe_step (_poll_events c) (Some pe').
Proof.
  unfold poll_events. destruct (_poll_events c) as [pe|]; simpl; [|auto].
  intros Hl H. exists pe'. repeat split; [exact Hl|].
  intros i e He.
  destruct (pe' !! i) as [e'|] eqn:He'.
  - exists e'. split; [reflexivity | eauto].
  - apply lookup_ge_None in He'. apply lookup_lt_Some in He. lia.
Qed.

Lemma fd_report e rv : fd (report e rv) = fd e.
Proof. unfold report. destruct (fd e <? 0); reflexivity. Qed.

Lemma pe_step_clear c :
  pe_step (_poll_events c) (Some (map (set_revents 0) (poll_events c))).
Proof.
  apply pe_step_update.
  - apply length_map.
  - intros i e e' He He'. left.
    change (map (set_revents 0) (poll_events c))
      with (set_revents 0 <$> poll_events c) in He'.
    rewrite list_lookup_fmap, He in He'. simpl in He'. now inversion He'.
Qed.

Lemma pe_step_report c (revs : list Z) :
  pe_step (_poll_events c)
    (Some (imap (fun i e => report e (revents_at revs i)) (poll_events c))).
Proof.
  apply pe_step_update.
  - apply length_imap.
  - intros i e e' He He'. left.
    rewrite list_lookup_imap, He in He'. simpl in He'.
    inversion He'. apply fd_report.
Qed.

Lemma pe_step_mark c (rank : nat) :
  pe_step (_poll_events c)
    (Some (<[rank := set_fd (-1) (poll_events c !!! rank)]> (poll_events c))).
Proof.
  apply pe_step_update.
  - apply length_insert.
  - intros i e e' He He'.
    destruct (decide (i = rank)) as [->|Hne].
    + rewrite list_lookup_insert_eq in He' by (eapply lookup_lt_Some; eauto).
      inversion He'. now right.
    + rewrite list_lookup_insert_ne in He' by congruence. left. congruence.
Qed.

Lemma listener_keeps_refl p : listener_keeps p p.
Proof.
  unfold listener_keeps. auto 10 using pe_step_refl, quiet_refl.
Qed.

Lemma listener_keeps_trans p1 p2 p3 :
  listener_keeps p1 p2 -> listener_keeps p2 p3 -> listener_keeps p1 p3.
Proof.
  intros (?&?&?&?&?&?) (?&?&?&?&?&?).
  split; [congruence|]. split; [congruence|]. split; [congruence|].
  split; [auto|]. split; [eapply pe_step_trans; eauto | eapply quiet_trans; eauto].
Qed.

Lemma listener_keeps_untouched p p' : untouched p p' -> listener_keeps p p'.
Proof.
  intros [Ht Hq]. unfold listener_keeps. rewrite Ht.
  auto 10 using pe_step_refl.
Qed.

Lemma listener_keeps_poll_events c w w' pe' :
  pe_step (_poll_events c) (Some pe') -> quiet w w' ->
  listener_keeps (Proc c w) (Proc (set_poll_events (Some pe') c) w').
Proof. intros Hs Hq. unfold listener_keeps. cbn [this os]. auto 10. Qed.

(** Continue a frame argument after a first step. *)
Lemma preserves_after {A} (m : M t A) p p1 :
  listener_keeps p p1 -> preserves listener_keeps m ->
  match m p1 with
  | Ret _ p' | Throw _ p' => listener_keeps p p'
  | Block | Fuel => True
  end.
Proof.
  intros H1 Hm. specialize (Hm p1).
  destruct (m p1); auto; eapply listener_keeps_trans; eauto.
Qed.

Lemma quiet_set_exit_in v w : quiet w (set_exit_in v w).
Proof.
  repeat split. exists []. split; [simpl; now rewrite app_nil_r | constructor].
Qed.

Lemma listener_keeps_world c w w' :
  quiet w w' -> listener_keeps (Proc c w) (Proc c w').
Proof. intros Hq. apply listener_keeps_untouched. split; [reflexivity | exact Hq]. Qed.

Lemma listener_keeps_exiting c w :
  listener_keeps (Proc c w) (Proc (set_exiting true c) w).
Proof.
  unfold listener_keeps. cbn [this os]. auto 10 using pe_step_refl, quiet_refl.
Qed.

Lemma load_exiting_keeps : preserves listener_keeps load_exiting.
Proof.
  intros [c w]. unfold load_exiting. simpl.
  destruct (_exiting c) eqn:E; [apply listener_keeps_refl|].
  destruct (w_exit_in w) as [[|k]|].
  - apply listener_keeps_exiting.
  - apply listener_keeps_world, quiet_set_exit_in.
  - apply listener_keeps_refl.
Qed.

Lemma wait_loop_keeps fuel : preserves listener_keeps (wait_loop fuel).
Proof.
  induction fuel as [|fuel IH]; [intros p; exact I|].
  intros [c w]. cbn [wait_loop]. unfold bind at 1. unfold get_this. cbn [this].
  unfold bind at 1. unfold poll, bind at 1, get_os. cbn [os].
  unfold bind at 1, modify_os. cbn [this os].
  pose proof (quiet_poll w (length (poll_events c))) as Hq.
  set (w1 := log _ _) in *.
  assert (Hrest : forall r pe',
    pe_step (_poll_events c) (Some pe') ->
    match
      (modify_this (set_poll_events (Some pe')) ;;
       exiting <- load_exiting ;;
       if exiting then ret (Some (0%nat, ""%string))
       else if fst (r, pe') =? 0 then wait_loop fuel else ret None)%cmd
        (Proc c w1)
    with
    | Ret _ p' | Throw _ p' => listener_keeps (Proc c w) p'
    | Block | Fuel => True
    end).
  { intros r pe' Hs. unfold bind at 1. unfold modify_this. cbn [this os].
    apply preserves_after; [now apply listener_keeps_poll_events|].
    apply preserves_bind;
      [apply listener_keeps_trans | apply load_exiting_keeps | intros b].
    destruct b; [apply preserves_ret, listener_keeps_refl|].
    apply preserves_if; [exact IH | apply preserves_ret, listener_keeps_refl]. }
  destruct (w_polls w) as [|[msg|r revs] rest].
  - apply (Hrest 0). apply pe_step_clear.
  - unfold throw. apply listener_keeps_world, Hq.
  - apply (Hrest r). apply pe_step_report.
Qed.

End ListenerFrames.

Module ListenerTurn.
Import Master ListenerFrames.

Lemma receive_error_keeps rank socket :
  preserves listener_keeps (receive_error rank socket).
Proof.
  eapply preserves_weaken; [apply listener_keeps_untouched|].
  unfold receive_error.
  apply preserves_bind; [apply untouched_trans | apply recv_uint_untouched | intros n].
  apply preserves_bind; [apply untouched_trans | apply recv_bytes_untouched | intros bs].
  apply preserves_ret, untouched_refl.
Qed.

Lemma scan_keeps ranks : preserves listener_keeps (scan ranks).
Proof.
  induction ranks as [|rank ranks IH]; [apply preserves_ret, listener_keeps_refl|].
  intros [c w]. cbn [scan]. unfold bind at 1. unfold get_this. cbn [this].
  destruct (revents (poll_events c !!! rank) =? 0); [apply IH|].
  destruct (negb (Z.lxor (revents (poll_events c !!! rank)) POLLIN =? 0)).
  - unfold bind, modify_this, ret. cbn [this os].
    apply listener_keeps_poll_events; [apply pe_step_mark | apply quiet_refl].
  - apply preserves_try_catch;
      [apply listener_keeps_trans | apply receive_error_keeps | intros e].
    apply preserves_ret, listener_keeps_refl.
Qed.

Lemma poll_events_set v c : poll_events (set_poll_events (Some v) c) = v.
Proof. reflexivity. Qed.

Lemma recvError_keeps fuel : preserves listener_keeps (recvError fuel).
Proof.
  intros [c w]. unfold recvError. unfold bind at 1. unfold get_this. cbn [this].
  unfold bind at 1.
  assert (Hrest : forall c1,
    listener_keeps (Proc c w) (Proc c1 w) ->
    match
      (modify_this (fun c => set_poll_events
                               (Some (map (set_revents 0) (poll_events c))) c) ;;
       early <- try_catch (wait_loop fuel)
                  (fun e => ret (Some (0%nat, "poll: " +:+ what e))) ;;
       match early with
       | Some r => ret r
       | None => scan (seq 0 (length (_sockets c)))
       end)%cmd (Proc c1 w)
    with
    | Ret _ p' | Throw _ p' => listener_keeps (Proc c w) p'
    | Block | Fuel => True
    end).
  { intros c1 H1. unfold bind at 1. unfold modify_this. cbn [this os].
    apply preserves_after.
    - eapply listener_keeps_trans; [exact H1|].
      apply listener_keeps_poll_events; [apply pe_step_clear | apply quiet_refl].
    - apply preserves_bind; [apply listener_keeps_trans | | intros [r|]].
      + apply preserves_try_catch;
          [apply listener_keeps_trans | apply wait_loop_keeps | intros e].
        apply preserves_ret, listener_keeps_refl.
      + apply preserves_ret, listener_keeps_refl.
      + apply scan_keeps. }
  destruct (_poll_events c) as [pe|] eqn:Epe.
  - unfold ret at 1. apply Hrest, listener_keeps_refl.
  - unfold modify_this at 1. cbn [this os]. apply Hrest.
    apply listener_keeps_poll_events; [now rewrite Epe | apply quiet_refl].
Qed.

Lemma errorHandler_body_unfold fuel p :
  errorHandler_body fuel p
  = match recvError fuel p with
    | Ret error p1 =>
        match load_exiting p1 with
        | Ret true p2 => Ret false p2
        | Ret false p2 =>
            Ret true (Proc (set_error (Some (format_error error)) (this p2)) (os p2))
        | Throw e p2 => Throw e p2
        | Block => Block
        | Fuel => Fuel
        end
    | Throw e p1 => Throw e p1
    | Block => Block
    | Fuel => Fuel
    end.
Proof.
  unfold errorHandler_body, bind.
  destruct (recvError fuel p) as [r p1|e p1| |]; try reflexivity.
  destruct (load_exiting p1) as [[|] p2|e p2| |]; reflexivity.
Qed.

Lemma load_exiting_cases p :
  (exists p', load_exiting p = Ret true p' /\ _exiting (this p') = true
              /\ listener_keeps p p')
  \/ (exists p', load_exiting p = Ret false p' /\ _exiting (this p) = false
                 /\ this p' = this p /\ listener_keeps p p').
Proof.
  pose proof (load_exiting_keeps p) as Hk.
  destruct p as [c w]. unfold load_exiting in *. cbn [this os] in *.
  destruct (_exiting c) eqn:E; cbn [this].
  - left. eexists. split; [reflexivity|]. split; [exact E | exact Hk].
  - destruct (w_exit_in w) as [[|k]|].
    + left. eexists. split; [reflexivity|]. split; [reflexivity | exact Hk].
    + right. eexists. split; [reflexivity|].
      split; [reflexivity|]. split; [reflexivity | exact Hk].
    + right. eexists. split; [reflexivity|].
      split; [reflexivity|]. split; [reflexivity | exact Hk].
Qed.

(** One turn of the listener: either it sees the exit signal and leaves
    the flag alone, or it latches the report [recvError] returned. *)
Lemma errorHandler_body_cases fuel p :
  match errorHandler_body fuel p with
  | Ret go p' =>
      exists error p1,
        recvError fuel p = Ret error p1
        /\ _sockets (this p') = _sockets (this p)
        /\ _started (this p') = _started (this p)
        /\ pe_step (_poll_events (this p)) (_poll_events (this p'))
        /\ quiet (os p) (os p')
        /\ (if go
            then _error (this p') = Some (format_error error)
            else _error (this p') = _error (this p)
                 /\ _exiting (this p') = true)
  | Throw e p' => exists p1, recvError fuel p = Throw e p1
  | Block | Fuel => True
  end.
Proof.
  rewrite errorHandler_body_unfold.
  pose proof (recvError_keeps fuel p) as Hk.
  destruct (recvError fuel p) as [error p1|e p1| |]; try exact I.
  2: { eauto. }
  destruct Hk as (Hs & He & Hst & Hex & Hpe & Hq).
  destruct (load_exiting_cases p1) as [(p2 & -> & Hex2 & Hk2)|(p2 & -> & Hex2 & Ht2 & Hk2)];
    destruct Hk2 as (Hs2 & He2 & Hst2 & _ & Hpe2 & Hq2).
  - exists error, p1. split; [reflexivity|].
    split; [congruence|]. split; [congruence|].
    split; [eapply pe_step_trans; eauto|].
    split; [eapply quiet_trans; eauto|].
    split; [congruence | exact Hex2].
  - exists error, p1. split; [reflexivity|]. cbn [this os].
    split; [cbn; congruence|]. split; [cbn; congruence|].
    split; [eapply pe_step_trans; eauto|].
    split; [eapply quiet_trans; eauto | reflexivity].
Qed.

End ListenerTurn.

(** ** Executions: how the failure flag evolves *)

Module ExecFacts.
Import Master Exec ListenerTurn.

Lemma after_Some {A} (o : outcome Master.t A) p' :
  after o = Some p' ->
  (exists a, o = Ret a p') \/ (exists e, o = Throw e p').
Proof.
  destruct o as [a s|e s| |]; simpl; intros H; inversion H; subst; eauto.
Qed.

(** A step leaves the flag alone, unless it is a turn of the listener that
    latches the report [recvError] returned. *)
Lemma exec_error a p p' :
  exec a p = Some p' ->
  _error (this p') = _error (this p)
  \/ exists fuel error p1,
       a = Listen fuel /\ recvError fuel p = Ret error p1
       /\ _error (this p') = Some (format_error error).
Proof.
  destruct a as [|msg rank|fuel]; simpl; intros H.
  - left. pose proof (MasterFrames.init_preserves p) as Hk.
    apply after_Some in H as [[a Ha]|[e He]];
      [rewrite Ha in Hk | rewrite He in Hk]; apply Hk.
  - left. pose proof (MasterFrames.sendMessage_preserves msg rank p) as Hk.
    apply after_Some in H as [[a Ha]|[e He]];
      [rewrite Ha in Hk | rewrite He in Hk]; destruct Hk as [-> _]; reflexivity.
  - pose proof (errorHandler_body_cases fuel p) as Hk.
    apply after_Some in H as [[go Ha]|[e He]].
    + rewrite Ha in Hk. destruct Hk as (error & p1 & Hr & _ & _ & _ & _ & Hgo).
      destruct go.
      * right. exists fuel, error, p1. auto.
      * left. apply Hgo.
    + rewrite He in Hk. destruct Hk as [p1 Hr].
      pose proof (errorHandler_body_unfold fuel p) as Hu.
      rewrite He, Hr in Hu. inversion Hu; subst. left.
      pose proof (recvError_keeps fuel p) as Hkeep. rewrite Hr in Hkeep.
      apply Hkeep.
Qed.

Lemma exec_failed a p p' : exec a p = Some p' -> failed p = true -> failed p' = true.
Proof.
  intros H. unfold failed.
  destruct (exec_error a p p' H) as [->|(fuel & error & p1 & _ & _ & ->)]; auto.
Qed.

Lemma trace_cons acts p : exists l, trace acts p = p :: l.
Proof. destruct acts; simpl; eauto. Qed.

Lemma trace_failed acts p :
  failed p = true -> Forall (fun q => failed q = true) (trace acts p).
Proof.
  revert p. induction acts as [|a acts IH]; intros p Hp; simpl.
  - constructor; [exact Hp | constructor].
  - constructor; [exact Hp|].
    destruct (exec a p) as [p'|] eqn:E; [|constructor].
    apply IH. eapply exec_failed; eauto.
Qed.

Lemma rises_all_true l : Forall (fun b => b = true) l -> rises l = 0%nat.
Proof.
  induction 1 as [|b l Hb Hl IH]; [reflexivity|].
  subst b. cbn [rises]. destruct l as [|b' l]; [reflexivity|].
  simpl negb. simpl andb. exact IH.
Qed.

Lemma rises_trace acts p : (rises (map failed (trace acts p)) <= 1)%nat.
Proof.
  revert p. induction acts as [|a acts IH]; intros p; [simpl; lia|].
  cbn [trace]. destruct (exec a p) as [p'|] eqn:E; [|simpl; lia].
  destruct (trace_cons acts p') as [l Hl].
  specialize (IH p'). rewrite Hl in *. cbn [map rises] in *.
  destruct (failed p) eqn:Fp.
  - simpl. exact IH.
  - destruct (failed p') eqn:Fp'; [|simpl; exact IH].
    pose proof (trace_failed acts p' Fp') as Hall. rewrite Hl in Hall.
    assert (Hz : rises (map failed (p' :: l)) = 0%nat).
    { apply rises_all_true. rewrite Forall_map. exact Hall. }
    cbn [map rises] in Hz. rewrite Fp' in Hz. simpl. simpl in Hz. lia.
Qed.

Lemma trace_later acts p i j pi pj :
  (i <= j)%nat -> trace acts p !! i = Some pi -> trace acts p !! j = Some pj ->
  exists acts', trace acts' pi !! (j - i)%nat = Some pj.
Proof.
  revert p i j. induction acts as [|a acts IH]; intros p i j Hij Hi Hj.
  - destruct i; [|destruct i; discriminate].
    destruct j; [|destruct j; discriminate].
    simpl in *. inversion Hi; inversion Hj; subst. exists []. reflexivity.
  - destruct i as [|i].
    + simpl in Hi. inversion Hi; subst pi. exists (a :: acts).
      now rewrite Nat.sub_0_r.
    + destruct j as [|j]; [lia|]. cbn [trace] in Hi, Hj.
      destruct (exec a p) as [p'|]; [|discriminate].
      simpl in Hi, Hj. apply (IH p' i j); [lia | assumption | assumption].
Qed.

Lemma trace_failed_later acts p i j pi pj :
  (i <= j)%nat -> trace acts p !! i = Some pi -> trace acts p !! j = Some pj ->
  failed pi = true -> failed pj = true.
Proof.
  intros Hij Hi Hj Hf.
  destruct (trace_later acts p i j pi pj Hij Hi Hj) as [acts' H].
  pose proof (trace_failed acts' pi Hf) as Hall.
  rewrite Forall_forall in Hall. apply Hall.
  eapply list_elem_of_lookup_2. exact H.
Qed.

Lemma sendMessage_failed p m msg rank :
  _error (this p) = Some m -> sendMessage msg rank p = Throw (runtime_error m) p.
Proof. intros H. unfold sendMessage, bind, get_this. now rewrite H. Qed.

(** Where the content of the flag comes from. *)
Lemma trace_error_origin acts p i pi m :
  trace acts p !! i = Some pi -> _error (this pi) = Some m ->
  _error (this p) = Some m
  \/ exists j fuel pj error p1,
       (j < i)%nat /\ acts !! j = Some (Listen fuel)
       /\ trace acts p !! j = Some pj
       /\ recvError fuel pj = Ret error p1
       /\ m = format_error error.
Proof.
  revert p i. induction acts as [|a acts IH]; intros p i Hi Hm.
  - destruct i; [|destruct i; discriminate]. simpl in Hi.
    inversion Hi; subst. now left.
  - destruct i as [|i].
    + simpl in Hi. inversion Hi; subst. now left.
    + cbn [trace] in Hi. destruct (exec a p) as [p'|] eqn:E; [|discriminate].
      simpl in Hi.
      destruct (IH p' i Hi Hm) as [Hp'|(j & fuel & pj & error & p1 & Hj & Ha & Ht & Hr & Hf)].
      * destruct (exec_error a p p' E) as [Hsame|(fuel & error & p1 & -> & Hr & Hlatch)].
        -- left. congruence.
        -- right. exists 0%nat, fuel, p, error, p1.
           repeat split; [lia | assumption | congruence].
      * right. exists (S j), fuel, pj, error, p1.
        repeat split; [lia | assumption | | assumption | assumption].
        cbn [trace]. rewrite E. exact Ht.
Qed.

End ExecFacts.

(** ** The circuit breaker *)

(** C1.  Take any execution of a freshly constructed master channel and any
    state in it whose failure flag is set.  The content of the flag is the
    report [(R, text)] that [recvError] returned in an earlier turn of the
    listener, formatted as "error (rank R): text"; and every [sendMessage]
    in that state, whatever the message and the destination rank, throws a
    [runtime_error] carrying exactly that content and leaves the process as
    it was: the object is unchanged and no system call is added to the log,
    so nothing is written to the network. *)
Theorem sendMessage_refused_after_failure
    (port : Z) (world_size : nat) (w : world) (acts : list Exec.action)
    (i : nat) (p : Master.t) (m : string) :
  Exec.trace acts (Proc (Master.new port world_size) w) !! i = Some p ->
  Master._error (this p) = Some m ->
  (exists j fuel pj R text p1,
      (j < i)%nat
      /\ acts !! j = Some (Exec.Listen fuel)
      /\ Exec.trace acts (Proc (Master.new port world_size) w) !! j = Some pj
      /\ Master.recvError fuel pj = Ret (R, text) p1
      /\ m = "error (rank " +:+ to_string R +:+ "): " +:+ text)
  /\ (forall msg rank,
        Master.sendMessage msg rank p = Throw (runtime_error m) p).
Proof.
  intros Hi Hm. split.
  - destruct (ExecFacts.trace_error_origin _ _ _ _ _ Hi Hm)
      as [Hnew|(j & fuel & pj & [R text] & p1 & Hj & Ha & Ht & Hr & Hf)].
    + discriminate Hnew.
    + exists j, fuel, pj, R, text, p1. repeat split; assumption.
  - intros msg rank. now apply ExecFacts.sendMessage_failed.
Qed.

Lemma sendMessage_refused_after_failure_witness :
  Exec.trace [Exec.Init; Exec.Listen 1] (Proc (Master.new 29500 2) Demo.world2) !! 2%nat
  = Some Demo.failed2
  /\ Master._error (this Demo.failed2) = Some "error (rank 1): boom"%string
  /\ ((exists j fuel pj R text p1,
          (j < 2)%nat
          /\ [Exec.Init; Exec.Listen 1] !! j = Some (Exec.Listen fuel)
          /\ Exec.trace [Exec.Init; Exec.Listen 1]
               (Proc (Master.new 29500 2) Demo.world2) !! j = Some pj
          /\ Master.recvError fuel pj = Ret (R, text) p1
          /\ "error (rank 1): boom"%string
             = "error (rank " +:+ to_string R +:+ "): " +:+ text)
      /\ (forall msg rank,
            Master.sendMessage msg rank Demo.failed2
            = Throw (runtime_error "error (rank 1): boom") Demo.failed2)).
Proof.
  assert (H1 : Exec.trace [Exec.Init; Exec.Listen 1]
                 (Proc (Master.new 29500 2) Demo.world2) !! 2%nat
               = Some Demo.failed2) by (vm_compute; reflexivity).
  assert (H2 : Master._error (this Demo.failed2) = Some "error (rank 1): boom"%string)
    by (vm_compute; reflexivity).
  split; [exact H1|]. split; [exact H2|].
  exact (sendMessage_refused_after_failure 29500 2 Demo.world2
           [Exec.Init; Exec.Listen 1] 2 Demo.failed2 _ H1 H2).
Defined.

(** C3.  Along any execution of the master channel the failure flag goes
    from unset to set at most once; from a state in which it is set, it is
    set in every later state; and in every such later state [sendMessage]
    throws at once, leaving the process as it was. *)
Theorem failure_flag_set_once_never_cleared
    (acts : list Exec.action) (p0 : Master.t) :
  (Exec.rises (map Exec.failed (Exec.trace acts p0)) <= 1)%nat
  /\ (forall i j pi pj,
        (i <= j)%nat ->
        Exec.trace acts p0 !! i = Some pi ->
        Exec.trace acts p0 !! j = Some pj ->
        Exec.failed pi = true ->
        Exec.failed pj = true
        /\ forall msg rank,
             exists m, Master.sendMessage msg rank pj = Throw (runtime_error m) pj).
Proof.
  split; [apply ExecFacts.rises_trace|].
  intros i j pi pj Hij Hi Hj Hf.
  assert (Hfj : Exec.failed pj = true)
    by (eapply ExecFacts.trace_failed_later; eauto).
  split; [exact Hfj|]. intros msg rank.
  unfold Exec.failed in Hfj.
  destruct (Master._error (this pj)) as [m|] eqn:E; [|discriminate].
  exists m. now apply ExecFacts.sendMessage_failed.
Qed.

Lemma failure_flag_set_once_never_cleared_witness :
  let acts := [Exec.Init; Exec.Listen 1; Exec.Send [x61] 1] in
  map Exec.failed (Exec.trace acts Demo.master2) = [false; false; true; true]
  /\ (Exec.rises (map Exec.failed (Exec.trace acts Demo.master2)) <= 1)%nat
  /\ Exec.failed Demo.failed2 = true
  /\ forall msg rank,
       exists m, Master.sendMessage msg rank (Demo.run acts Demo.master2)
                 = Throw (runtime_error m) (Demo.run acts Demo.master2).
Proof.
  intros acts.
  pose proof (failure_flag_set_once_never_cleared acts Demo.master2) as [Hr Hl].
  assert (H2 : Exec.trace acts Demo.master2 !! 2%nat = Some Demo.failed2)
    by (vm_compute; reflexivity).
  assert (H3 : Exec.trace acts Demo.master2 !! 3%nat = Some (Demo.run acts Demo.master2))
    by (vm_compute; reflexivity).
  assert (Hf : Exec.failed Demo.failed2 = true) by (vm_compute; reflexivity).
  split; [vm_compute; reflexivity|]. split; [exact Hr|]. split; [exact Hf|].
  exact (proj2 (Hl 2%nat 3%nat _ _ ltac:(lia) H2 H3 Hf)).
Defined.

(** ** Destinations out of range *)

(** C6, as stated, fails: with the failure flag set, a send to rank 0 is
    refused with the latched channel failure, a [runtime_error], and not
    with the error of an invalid rank. *)
Lemma sendMessage_invalid_rank_counterexample :
  Master._error (this Demo.failed2) = Some "error (rank 1): boom"%string
  /\ Master.sendMessage [x61] 0 Demo.failed2
     = Throw (runtime_error "error (rank 1): boom") Demo.failed2
  /\ is_runtime_error (runtime_error "error (rank 1): boom") = true.
Proof.
  assert (H : Master._error (this Demo.failed2) = Some "error (rank 1): boom"%string)
    by (vm_compute; reflexivity).
  split; [exact H|]. split; [|reflexivity].
  now apply ExecFacts.sendMessage_failed.
Qed.

(** C6, amended.  For a destination rank (an [int]) that is not strictly
    between 0 and the world size, [sendMessage] always throws and leaves the
    process as it was, so no network I/O is performed; and when the failure
    flag is not set, what it throws is a [domain_error], which is not a
    [runtime_error] as transport and channel failures are. *)
Theorem sendMessage_invalid_rank (p : Master.t) (msg : list byte) (rank : Z) :
  - 2 ^ 31 <= rank < 2 ^ 31 ->
  rank <= 0 \/ Z.of_nat (length (Master._sockets (this p))) <= rank ->
  (exists e, Master.sendMessage msg rank p = Throw e p)
  /\ (Master._error (this p) = None ->
      Master.sendMessage msg rank p
      = Throw (domain_error "sendMessage received invalid rank as parameter") p
      /\ is_runtime_error
           (domain_error "sendMessage received invalid rank as parameter") = false).
Proof.
  intros Hint Hbad.
  assert (Hchk : (rank <=? 0)
                 || (Wire.to_size_t rank
                     >=? Z.of_nat (length (Master._sockets (this p)))) = true).
  { apply orb_true_iff. destruct (Z_le_gt_dec rank 0) as [Hle|Hgt].
    - left. now apply Z.leb_le.
    - right. destruct Hbad as [Hbad|Hbad]; [lia|].
      unfold Wire.to_size_t. rewrite Z.mod_small by lia.
      apply Z.geb_le. exact Hbad. }
  unfold Master.sendMessage, bind, get_this.
  destruct (Master._error (this p)) as [m|] eqn:E.
  - split; [eexists; reflexivity | discriminate].
  - rewrite Hchk. split; [eexists; reflexivity|]. intros _. split; reflexivity.
Qed.

Lemma sendMessage_invalid_rank_witness :
  (- 2 ^ 31 <= 2 < 2 ^ 31)
  /\ (2 <= 0 \/ Z.of_nat (length (Master._sockets (this Demo.master2))) <= 2)
  /\ Master._error (this Demo.master2) = None
  /\ Master.sendMessage [x61] 2 Demo.master2
     = Throw (domain_error "sendMessage received invalid rank as parameter") Demo.master2.
Proof.
  assert (H1 : - 2 ^ 31 <= 2 < 2 ^ 31) by lia.
  assert (H2 : 2 <= 0 \/ Z.of_nat (length (Master._sockets (this Demo.master2))) <= 2)
    by (right; vm_compute; discriminate).
  assert (H3 : Master._error (this Demo.master2) = None) by reflexivity.
  split; [exact H1|]. split; [exact H2|]. split; [exact H3|].
  exact (proj1 (proj2 (sendMessage_invalid_rank Demo.master2 [x61] 2 H1 H2) H3)).
Defined.

(** ** Frames on the wire *)

Section FrameRoundTrip.
Context {O O' : Type}.
Import Wire WireFacts.

Lemma transmitted_sendMessage (p : proc O) fd (payload : list byte) :
  usable fd (os p) = true ->
  Z.of_nat (length payload) < 2 ^ 64 ->
  transmitted fd p (thd.sendMessage fd payload p)
  = encode_uint sizeof_uint64 (Z.of_nat (length payload)) ++ payload.
Proof.
  intros Hu Hlen. rewrite sendMessage_usable by assumption.
  unfold transmitted. cbn [os]. rewrite !sent_transmit, <- app_assoc.
  apply drop_app_length.
Qed.

Lemma sendMessage_then_receive (p : proc O) fd (payload : list byte)
      (q : proc O') s (later : list byte) :
  usable fd (os p) = true ->
  Z.of_nat (length payload) < 2 ^ 64 ->
  s ∈ w_open (os q) ->
  w_rx (os q) !!! s = transmitted fd p (thd.sendMessage fd payload p) ++ later ->
  exists q',
    thd.receiveMessage s q = Ret payload q'
    /\ this q' = this q
    /\ w_rx (os q') !!! s = later.
Proof.
  intros Hu Hlen Ho Hrx.
  rewrite transmitted_sendMessage, <- app_assoc in Hrx by assumption.
  eexists. split; [|split].
  - apply (receiveMessage_frame s q _ payload later Ho Hrx).
    + apply length_encode_uint.
    + apply decode_encode_uint64. lia.
  - reflexivity.
  - cbn [os]. rewrite !w_rx_consume, Hrx.
    rewrite <- (length_encode_uint sizeof_uint64 (Z.of_nat (length payload))) at 1.
    rewrite drop_app_length. apply drop_app_length.
Qed.

End FrameRoundTrip.

Lemma master_sendMessage_valid (pm : Master.t) (payload : list byte) (rank : Z) :
  Master._error (this pm) = None ->
  0 < rank < Z.of_nat (length (Master._sockets (this pm))) ->
  Master.sendMessage payload rank pm
  = thd.sendMessage (Master._sockets (this pm) !!! Z.to_nat rank) payload pm.
Proof.
  intros He Hr. unfold Master.sendMessage, bind, get_this. rewrite He.
  replace (rank <=? 0) with false by (symmetry; apply Z.leb_gt; lia).
  unfold Wire.to_size_t.
  assert (Hlt : Z.of_nat (length (Master._sockets (this pm))) < 2 ^ 64 \/
                2 ^ 64 <= Z.of_nat (length (Master._sockets (this pm)))) by lia.
  destruct (Z_lt_ge_dec rank (2 ^ 64)) as [Hs|Hs].
  - rewrite Z.mod_small by lia.
    replace (rank >=? _) with false
      by (symmetry; rewrite Z.geb_leb; apply Z.leb_gt; lia).
    reflexivity.
  - pose proof (Z.mod_pos_bound rank (2 ^ 64) ltac:(lia)) as Hm.
    replace (rank mod 2 ^ 64 >=? _) with false
      by (symmetry; rewrite Z.geb_leb; apply Z.leb_gt; lia).
    reflexivity.
Qed.

(** C4.  A message the master sends to a valid rank, on a connection that
    is up, comes out of the worker's [recvMessage] byte for byte: if what the
    worker finds on its connection is what the master's call wrote (followed
    by anything [later]), then the call returns, [recvMessage] returns the
    same payload, of the same length, and only [later] is left unread.  The
    payload is any byte sequence whose length fits [std::size_t]. *)
Theorem frame_roundtrip
    (pm : Master.t) (rank : Z) (payload : list byte)
    (pw : Worker.t) (later : list byte) :
  let fd := Master._sockets (this pm) !!! Z.to_nat rank in
  let s := Worker._socket (this pw) in
  Master._error (this pm) = None ->
  0 < rank < Z.of_nat (length (Master._sockets (this pm))) ->
  usable fd (os pm) = true ->
  Z.of_nat (length payload) < 2 ^ 64 ->
  s ∈ w_open (os pw) ->
  w_rx (os pw) !!! s
  = transmitted fd pm (Master.sendMessage payload rank pm) ++ later ->
  (exists pm', Master.sendMessage payload rank pm = Ret tt pm')
  /\ exists received pw',
       Worker.recvMessage pw = Ret received pw'
       /\ received = payload
       /\ length received = length payload
       /\ w_rx (os pw') !!! s = later.
Proof.
  intros fd s He Hr Hu Hlen Ho Hrx.
  rewrite master_sendMessage_valid in * by assumption. fold fd in Hrx |- *.
  split.
  - rewrite sendMessage_usable by assumption. eexists; reflexivity.
  - destruct (sendMessage_then_receive pm fd payload pw s later Hu Hlen Ho Hrx)
      as (pw' & Hrecv & _ & Hleft).
    exists payload, pw'. split; [exact Hrecv|]. repeat split. exact Hleft.
Qed.

Lemma frame_roundtrip_witness :
  let wire := transmitted 5 Demo.ready2 (Master.sendMessage [x61; x62] 1 Demo.ready2) in
  Master._error (this Demo.ready2) = None
  /\ 0 < 1 < Z.of_nat (length (Master._sockets (this Demo.ready2)))
  /\ usable 5 (os Demo.ready2) = true
  /\ (exists pm', Master.sendMessage [x61; x62] 1 Demo.ready2 = Ret tt pm')
  /\ exists received pw',
       Worker.recvMessage (Demo.worker1 (wire ++ [x07])) = Ret received pw'
       /\ received = [x61; x62]
       /\ length received = 2%nat
       /\ w_rx (os pw') !!! 3 = [x07].
Proof.
  intros wire.
  assert (H1 : Master._error (this Demo.ready2) = None) by (vm_compute; reflexivity).
  assert (H2 : 0 < 1 < Z.of_nat (length (Master._sockets (this Demo.ready2))))
    by (vm_compute; split; reflexivity).
  assert (H3 : usable (Master._sockets (this Demo.ready2) !!! Z.to_nat 1)
                 (os Demo.ready2) = true) by (vm_compute; reflexivity).
  assert (H4 : Z.of_nat (length [x61; x62]) < 2 ^ 64) by (vm_compute; reflexivity).
  assert (H5 : Worker._socket (this (Demo.worker1 (wire ++ [x07])))
               ∈ w_open (os (Demo.worker1 (wire ++ [x07]))))
    by (simpl; set_solver).
  assert (H6 : w_rx (os (Demo.worker1 (wire ++ [x07])))
               !!! Worker._socket (this (Demo.worker1 (wire ++ [x07])))
               = transmitted (Master._sockets (this Demo.ready2) !!! Z.to_nat 1)
                   Demo.ready2 (Master.sendMessage [x61; x62] 1 Demo.ready2) ++ [x07])
    by (vm_compute; reflexivity).
  split; [exact H1|]. split; [exact H2|]. split; [vm_compute; reflexivity|].
  exact (frame_roundtrip Demo.ready2 1 [x61; x62] (Demo.worker1 (wire ++ [x07]))
           [x07] H1 H2 H3 H4 H5 H6).
Defined.

(** The same round trip for the empty payload and for one of 70000 bytes. *)
Example roundtrip_empty (later : list byte) :
  exists q', thd.receiveMessage 3
               (Demo.worker1 (transmitted 5 Demo.ready2
                                (thd.sendMessage 5 [] Demo.ready2) ++ later))
             = Ret [] q'
             /\ w_rx (os q') !!! 3 = later.
Proof.
  destruct (sendMessage_then_receive Demo.ready2 5 []
              (Demo.worker1 (transmitted 5 Demo.ready2
                               (thd.sendMessage 5 [] Demo.ready2) ++ later)) 3 later)
    as (q' & Hr & _ & Hl).
  - vm_compute; reflexivity.
  - simpl. lia.
  - simpl. set_solver.
  - simpl. apply lookup_total_singleton_eq.
  - eauto.
Qed.

Example roundtrip_large :
  let payload := repeat x2a (Z.to_nat 70000) in
  exists q', thd.receiveMessage 3
               (Demo.worker1 (transmitted 5 Demo.ready2
                                (thd.sendMessage 5 payload Demo.ready2)))
             = Ret payload q'
             /\ w_rx (os q') !!! 3 = [].
Proof.
  intros payload.
  assert (Hlen : length payload = Z.to_nat 70000) by apply repeat_length.
  destruct (sendMessage_then_receive Demo.ready2 5 payload
              (Demo.worker1 (transmitted 5 Demo.ready2
                               (thd.sendMessage 5 payload Demo.ready2))) 3 [])
    as (q' & Hr & _ & Hl).
  - vm_compute; reflexivity.
  - rewrite Hlen. lia.
  - simpl. set_solver.
  - simpl. rewrite lookup_total_singleton_eq. now rewrite app_nil_r.
  - eauto.
Qed.

Lemma sendError_is_sendMessage (pw : Worker.t) (text : string) :
  Worker.sendError text pw
  = thd.sendMessage (Worker._socket (this pw)) (list_byte_of_string text) pw.
Proof. destruct pw as [c w]. reflexivity. Qed.

Lemma receive_error_is_receiveMessage (rank : nat) (socket : Z) (pm : Master.t) :
  Master.receive_error rank socket pm
  = bind (thd.receiveMessage socket)
         (fun bytes => ret (rank, string_of_list_byte bytes)) pm.
Proof.
  unfold Master.receive_error, thd.receiveMessage, bind.
  destruct (recv_uint Wire.sizeof_uint64 socket pm) as [n p1|e p1| |]; try reflexivity.
  destruct (recv_bytes socket n p1) as [bs p2|e p2| |]; reflexivity.
Qed.

Section FrameLayout.
Context {O O' : Type}.
Import Wire WireFacts.

Lemma sendMessage_log (p : proc O) fd (payload : list byte) :
  usable fd (os p) = true ->
  Z.of_nat (length payload) < 2 ^ 64 ->
  exists p',
    thd.sendMessage fd payload p = Ret tt p'
    /\ this p' = this p
    /\ w_log (os p')
       = w_log (os p)
         ++ SysSend fd (encode_uint sizeof_uint64 (Z.of_nat (length payload)))
         :: match payload with [] => [] | _ => [SysSend fd payload] end.
Proof.
  intros Hu Hlen. rewrite sendMessage_usable by assumption.
  eexists. split; [reflexivity|]. split; [reflexivity|].
  cbn [os]. rewrite !w_log_transmit, <- app_assoc. reflexivity.
Qed.

Lemma receiveMessage_log (q : proc O') s (hdr body rest : list byte) :
  s ∈ w_open (os q) ->
  w_rx (os q) !!! s = hdr ++ body ++ rest ->
  length hdr = sizeof_uint64 ->
  decode_uint hdr = Z.of_nat (length body) ->
  exists q',
    thd.receiveMessage s q = Ret body q'
    /\ this q' = this q
    /\ w_rx (os q') !!! s = rest
    /\ w_log (os q')
       = w_log (os q)
         ++ SysRecv s hdr :: match body with [] => [] | _ => [SysRecv s body] end.
Proof.
  intros Ho Hrx Hh Hd.
  rewrite (receiveMessage_frame s q hdr body rest Ho Hrx Hh Hd).
  eexists. split; [reflexivity|]. split; [reflexivity|]. cbn [os].
  assert (Hrx1 : w_rx (consume s sizeof_uint64 (os q)) !!! s = body ++ rest).
  { rewrite w_rx_consume, Hrx, <- Hh. apply drop_app_length. }
  split.
  - rewrite w_rx_consume, Hrx1. apply drop_app_length.
  - rewrite w_log_consume, Hrx1, take_app_length.
    rewrite w_log_consume, Hrx. change sizeof_uint64 with 8%nat in *.
    rewrite <- Hh, take_app_length, <- app_assoc. rewrite Hh.
    destruct body; reflexivity.
Qed.

End FrameLayout.

(** C9.  Every frame has the same layout.  The sender's call, on a
    connection that is up and for a payload whose length fits
    [std::size_t], makes two writes in this order: the 8 bytes of the length
    in the fixed representation, then the payload bytes unchanged (the
    second write is skipped when the payload is empty).  The receiver's
    call, for whatever length the 8 header bytes decode to and with that many
    bytes following, makes two reads: exactly the 8 header bytes, then
    exactly [length body] bytes, which it returns as they are, leaving the
    rest unread; no bound is put on the length.  The worker's [sendError]
    is the same computation as the sender of command frames, and the
    listener reads an error frame with the same computation as the receiver
    of command frames. *)
Theorem frame_layout {O O' : Type}
    (p : proc O) (fd : Z) (payload : list byte)
    (q : proc O') (s : Z) (hdr body rest : list byte) :
  usable fd (os p) = true ->
  Z.of_nat (length payload) < 2 ^ 64 ->
  s ∈ w_open (os q) ->
  w_rx (os q) !!! s = hdr ++ body ++ rest ->
  length hdr = 8%nat ->
  Wire.decode_uint hdr = Z.of_nat (length body) ->
  let header := Wire.encode_uint 8 (Z.of_nat (length payload)) in
  (exists p',
      thd.sendMessage fd payload p = Ret tt p'
      /\ this p' = this p
      /\ w_log (os p')
         = w_log (os p)
           ++ SysSend fd header
           :: match payload with [] => [] | _ => [SysSend fd payload] end)
  /\ length header = 8%nat
  /\ Wire.decode_uint header = Z.of_nat (length payload)
  /\ (exists q',
        thd.receiveMessage s q = Ret body q'
        /\ this q' = this q
        /\ w_rx (os q') !!! s = rest
        /\ w_log (os q')
           = w_log (os q)
             ++ SysRecv s hdr
             :: match body with [] => [] | _ => [SysRecv s body] end)
  /\ (forall (pw : Worker.t) (text : string),
        Worker.sendError text pw
        = thd.sendMessage (Worker._socket (this pw)) (list_byte_of_string text) pw)
  /\ (forall (rank : nat) (socket : Z) (pm : Master.t),
        Master.receive_error rank socket pm
        = bind (thd.receiveMessage socket)
               (fun bytes => ret (rank, string_of_list_byte bytes)) pm).
Proof.
  intros Hu Hlen Ho Hrx Hh Hd header.
  split; [now apply sendMessage_log|].
  split; [apply WireFacts.length_encode_uint|].
  split; [apply WireFacts.decode_encode_uint64; lia|].
  split; [now apply receiveMessage_log|].
  split; [apply sendError_is_sendMessage | apply receive_error_is_receiveMessage].
Qed.

Lemma frame_layout_witness :
  let hdr := [x00; x00; x00; x00; x00; x00; x00; x04] in
  let body := [x62; x6f; x6f; x6d] in
  usable 5 (os Demo.ready2) = true
  /\ Wire.decode_uint hdr = 4
  /\ (exists p',
         thd.sendMessage 5 [x61; x62] Demo.ready2 = Ret tt p'
         /\ this p' = this Demo.ready2
         /\ w_log (os p')
            = w_log (os Demo.ready2)
              ++ [SysSend 5 [x00; x00; x00; x00; x00; x00; x00; x02];
                  SysSend 5 [x61; x62]])
  /\ (exists q',
         thd.receiveMessage 3 (Demo.worker1 (hdr ++ body ++ [x09])) = Ret body q'
         /\ this q' = this (Demo.worker1 (hdr ++ body ++ [x09]))
         /\ w_rx (os q') !!! 3 = [x09]
         /\ w_log (os q') = [SysRecv 3 hdr; SysRecv 3 body]).
Proof.
  intros hdr body.
  assert (H1 : usable 5 (os Demo.ready2) = true) by (vm_compute; reflexivity).
  assert (H2 : Z.of_nat (length [x61; x62]) < 2 ^ 64) by (vm_compute; reflexivity).
  assert (H3 : 3 ∈ w_open (os (Demo.worker1 (hdr ++ body ++ [x09]))))
    by (simpl; set_solver).
  assert (H4 : w_rx (os (Demo.worker1 (hdr ++ body ++ [x09]))) !!! 3
               = hdr ++ body ++ [x09]) by (vm_compute; reflexivity).
  assert (H5 : length hdr = 8%nat) by reflexivity.
  assert (H6 : Wire.decode_uint hdr = Z.of_nat (length body)) by (vm_compute; reflexivity).
  pose proof (frame_layout Demo.ready2 5 [x61; x62]
                (Demo.worker1 (hdr ++ body ++ [x09])) 3 hdr body [x09]
                H1 H2 H3 H4 H5 H6) as (Hs & _ & _ & Hr & _).
  split; [exact H1|]. split; [exact H6|]. split; [exact Hs | exact Hr].
Defined.

(** ** The listener, wake by wake *)

Module WakeFacts.
Import Master Wake ListenerFrames ListenerTurn.

Lemma recvError_arm fuel c w :
  recvError fuel (Proc c w)
  = bind (try_catch (wait_loop fuel)
            (fun e => ret (Some (0%nat, "poll: " +:+ what e))))
         (fun early => match early with
                       | Some r => ret r
                       | None => scan (seq 0 (length (_sockets c)))
                       end)
         (Proc (set_poll_events (Some (armed c)) c) w).
Proof.
  unfold recvError, armed, cache. unfold bind at 1. unfold get_this. cbn [this].
  unfold bind at 1. destruct (_poll_events c) as [pe|] eqn:E.
  - unfold ret at 1. unfold bind at 1. unfold modify_this. cbn [this os].
    unfold poll_events. now rewrite E.
  - unfold modify_this at 1. cbn [this os]. unfold bind at 1.
    unfold modify_this. cbn [this os]. reflexivity.
Qed.

Lemma wait_loop_fail fuel c w msg rest :
  w_polls w = PollFail msg :: rest ->
  wait_loop (S fuel) (Proc c w)
  = Throw (system_error msg)
      (Proc c (log (SysPoll (length (poll_events c)) 500) (set_polls rest w))).
Proof.
  intros H. cbn [wait_loop]. unfold bind at 1. unfold get_this. cbn [this].
  unfold bind at 1. unfold poll, bind at 1, get_os. cbn [os].
  unfold bind at 1, modify_os. cbn [this os]. rewrite H. reflexivity.
Qed.

Lemma wait_loop_ready fuel c w r revs rest :
  w_polls w = PollReady r revs :: rest ->
  wait_loop (S fuel) (Proc c w)
  = bind load_exiting
      (fun exiting : bool =>
         if exiting then ret (Some (0%nat, ""%string))
         else if r =? 0 then wait_loop fuel else ret None)
      (Proc (set_poll_events
               (Some (imap (fun i e => report e (revents_at revs i)) (poll_events c))) c)
            (log (SysPoll (length (poll_events c)) 500) (set_polls rest w))).
Proof.
  intros H. cbn [wait_loop]. unfold bind at 1. unfold get_this. cbn [this].
  unfold bind at 1. unfold poll, bind at 1, get_os. cbn [os].
  unfold bind at 1, modify_os. cbn [this os]. rewrite H. reflexivity.
Qed.

Lemma wait_loop_timeout fuel c w :
  w_polls w = [] ->
  wait_loop (S fuel) (Proc c w)
  = bind load_exiting
      (fun exiting : bool =>
         if exiting then ret (Some (0%nat, ""%string)) else wait_loop fuel)
      (Proc (set_poll_events (Some (map (set_revents 0) (poll_events c))) c)
            (log (SysPoll (length (poll_events c)) 500) (set_polls [] w))).
Proof.
  intros H. cbn [wait_loop]. unfold bind at 1. unfold get_this. cbn [this].
  unfold bind at 1. unfold poll, bind at 1, get_os. cbn [os].
  unfold bind at 1, modify_os. cbn [this os]. rewrite H. reflexivity.
Qed.

Lemma load_exiting_requested p :
  exit_requested p ->
  exists c', load_exiting p = Ret true (Proc c' (os p))
             /\ _exiting c' = true
             /\ _error c' = _error (this p)
             /\ _sockets c' = _sockets (this p)
             /\ _started c' = _started (this p)
             /\ _poll_events c' = _poll_events (this p).
Proof.
  destruct p as [c w]. unfold exit_requested, load_exiting. cbn [this os].
  destruct (_exiting c) eqn:E.
  - intros _. exists c. repeat split; auto.
  - intros [H|H]; [discriminate|]. rewrite H.
    exists (set_exiting true c). repeat split.
Qed.

Lemma load_exiting_not c w :
  _exiting c = false -> w_exit_in w <> Some 0%nat ->
  load_exiting (Proc c w) = Ret false (Proc c (tick w)).
Proof.
  intros E H. unfold load_exiting, tick. cbn [this os]. rewrite E.
  destruct (w_exit_in w) as [[|k]|]; [congruence | reflexivity | reflexivity].
Qed.

(** With no exit requested and a wake that reports something, [recvError]
    goes on to look at the entries. *)
Lemma recvError_wake fuel c w r revs rest :
  _exiting c = false -> w_exit_in w <> Some 0%nat ->
  w_polls w = PollReady r revs :: rest -> r <> 0 ->
  recvError (S fuel) (Proc c w)
  = scan (seq 0 (length (_sockets c)))
      (Proc (set_poll_events (Some (woken c revs)) c)
            (after_wake (length (armed c)) w)).
Proof.
  intros E Hx Hp Hr. rewrite recvError_arm. unfold bind at 1, try_catch.
  rewrite (wait_loop_ready fuel _ w r revs rest Hp).
  unfold bind at 1. rewrite load_exiting_not by assumption.
  apply Z.eqb_neq in Hr. rewrite Hr. unfold ret at 1.
  unfold after_wake. rewrite Hp. reflexivity.
Qed.

(** What stays as it was across the single poll of an exiting listener. *)
Lemma exit_requested_keep c w c' w' :
  exit_requested (Proc c w) ->
  _exiting c' = _exiting c -> w_exit_in w' = w_exit_in w ->
  exit_requested (Proc c' w').
Proof.
  unfold exit_requested. cbn [this os]. intros [H|H] Hc Hw; [left|right]; congruence.
Qed.

Lemma wait_loop_exit fuel c w :
  exit_requested (Proc c w) ->
  exists w',
    quiet w w' /\ w_exit_in w' = w_exit_in w
    /\ (exists n, w_log w' = w_log w ++ [SysPoll n 500])
    /\ ((exists c', wait_loop (S fuel) (Proc c w)
                     = Ret (Some (0%nat, ""%string)) (Proc c' w')
                     /\ _exiting c' = true /\ _error c' = _error c
                     /\ _sockets c' = _sockets c /\ _started c' = _started c)
        \/ (exists msg, wait_loop (S fuel) (Proc c w)
                        = Throw (system_error msg) (Proc c w'))).
Proof.
  intros Hx.
  exists (log (SysPoll (length (poll_events c)) 500) (set_polls (tail (w_polls w)) w)).
  split; [apply quiet_poll|]. split; [reflexivity|]. split; [eexists; reflexivity|].
  destruct (w_polls w) as [|[msg|r revs] rest] eqn:Hp; cbn [tail].
  - left. rewrite (wait_loop_timeout fuel c w Hp). unfold bind.
    match goal with |- context [load_exiting ?q] =>
      destruct (load_exiting_requested q) as (c' & -> & He & ? & ? & ? & ?) end.
    { eapply exit_requested_keep; [exact Hx | reflexivity | reflexivity]. }
    exists c'. cbn [this os] in *. auto 10.
  - right. exists msg. apply wait_loop_fail. exact Hp.
  - left. rewrite (wait_loop_ready fuel c w r revs rest Hp). unfold bind.
    match goal with |- context [load_exiting ?q] =>
      destruct (load_exiting_requested q) as (c' & -> & He & ? & ? & ? & ?) end.
    { eapply exit_requested_keep; [exact Hx | reflexivity | reflexivity]. }
    exists c'. cbn [this os] in *. auto 10.
Qed.

(** With an exit requested, [recvError] returns after a single poll. *)
Lemma recvError_exit fuel p :
  exit_requested p ->
  exists text c' w',
    recvError (S fuel) p = Ret (0%nat, text) (Proc c' w')
    /\ exit_requested (Proc c' w')
    /\ _error c' = _error (this p)
    /\ _sockets c' = _sockets (this p)
    /\ _started c' = _started (this p)
    /\ quiet (os p) w'
    /\ exists n, w_log w' = w_log (os p) ++ [SysPoll n 500].
Proof.
  intros Hx. destruct p as [c w]. rewrite recvError_arm.
  unfold bind at 1, try_catch. cbn [this os].
  set (c1 := set_poll_events (Some (armed c)) c).
  assert (Hx1 : exit_requested (Proc c1 w))
    by (eapply exit_requested_keep; [exact Hx | reflexivity | reflexivity]).
  destruct (wait_loop_exit fuel c1 w Hx1)
    as (w' & Hq & Hw & Hl & [(c' & -> & He & ? & ? & ?)|(msg & ->)]).
  - exists ""%string, c', w'. split; [reflexivity|].
    split; [left; exact He|]. auto 10.
  - exists ("poll: " +:+ msg), c1, w'. split; [reflexivity|].
    split; [eapply exit_requested_keep; [exact Hx1 | reflexivity | exact Hw]|].
    auto 10.
Qed.

(** An exiting listener leaves its loop at the first wake. *)
Lemma errorHandler_exit fuel p :
  exit_requested p ->
  exists c' w',
    errorHandler (S fuel) p = Ret tt (Proc c' w')
    /\ _exiting c' = true
    /\ _error c' = _error (this p)
    /\ _sockets c' = _sockets (this p)
    /\ _started c' = _started (this p)
    /\ quiet (os p) w'
    /\ exists n, w_log w' = w_log (os p) ++ [SysPoll n 500].
Proof.
  intros Hx. cbn [errorHandler]. unfold bind at 1.
  rewrite errorHandler_body_unfold.
  destruct (recvError_exit fuel p Hx)
    as (text & c1 & w1 & -> & Hx1 & He & Hs & Hst & Hq & Hl).
  destruct (load_exiting_requested _ Hx1) as (c' & -> & Hex & ? & ? & ? & ?).
  exists c', w1. cbn [this os] in *. split; [reflexivity|].
  split; [exact Hex|]. split; [congruence|]. split; [congruence|].
  split; [congruence|]. split; [exact Hq | exact Hl].
Qed.

End WakeFacts.

Module ScanFacts.
Import Master Wake ListenerFrames ListenerTurn WakeFacts.


Lemma scan_skip (pre ranks : list nat) p :
  (forall r, r ∈ pre -> revents (poll_events (this p) !!! r) = 0) ->
  scan (pre ++ ranks) p = scan ranks p.
Proof.
  induction pre as [|rank pre IH]; intros H; [reflexivity|].
  cbn [app scan]. unfold bind at 1. unfold get_this.
  rewrite (H rank) by (left). rewrite Z.eqb_refl.
  apply IH. intros r Hr. apply H. now right.
Qed.

Lemma scan_closed (k : nat) (ranks : list nat) c w :
  revents (poll_events c !!! k) <> 0 ->
  Z.lxor (revents (poll_events c !!! k)) POLLIN <> 0 ->
  scan (k :: ranks) (Proc c w)
  = Ret (k, "connection with worker has been closed"%string)
      (Proc (set_poll_events
               (Some (<[k := set_fd (-1) (poll_events c !!! k)]> (poll_events c))) c)
            w).
Proof.
  intros Hr Hx. cbn [scan]. unfold bind at 1. unfold get_this. cbn [this].
  apply Z.eqb_neq in Hr. rewrite Hr. apply Z.eqb_neq in Hx. rewrite Hx.
  reflexivity.
Qed.

(** A report of [scan] is the fallback, with rank 0, or names a rank whose
    entry has events. *)
Lemma scan_rank (ranks : list nat) p r text p1 :
  scan ranks p = Ret (r, text) p1 ->
  r = 0%nat \/ (r ∈ ranks /\ revents (poll_events (this p) !!! r) <> 0).
Proof.
  induction ranks as [|rank ranks IH]; intros H.
  - inversion H. now left.
  - cbn [scan] in H. unfold bind at 1 in H. unfold get_this in H.
    destruct (revents (poll_events (this p) !!! rank) =? 0) eqn:E.
    + destruct (IH H) as [->|[Hin Hne]]; [now left | right].
      split; [now right | exact Hne].
    + apply Z.eqb_neq in E.
      assert (Hrank : r = rank); [|subst r; right; split; [left | exact E]].
      destruct (negb _) in H.
      * unfold bind, modify_this, ret in H. now inversion H.
      * unfold try_catch in H.
        rewrite receive_error_is_receiveMessage in H. unfold bind in H.
        destruct (thd.receiveMessage _ _) as [bs p2|e p2| |];
          unfold ret in H; now inversion H.
Qed.

Lemma woken_lookup c (revs : list Z) (i : nat) :
  woken c revs !! i
  = (fun e => report (set_revents 0 e) (revents_at revs i)) <$> cache c !! i.
Proof.
  unfold woken, armed. rewrite list_lookup_imap.
  change (map (set_revents 0) (cache c)) with (set_revents 0 <$> cache c).
  rewrite list_lookup_fmap. destruct (cache c !! i); reflexivity.
Qed.

Lemma woken_revents_zero c (revs : list Z) (i : nat) :
  (forall e, cache c !! i = Some e -> fd e < 0 \/ revents_at revs i = 0) ->
  revents (woken c revs !!! i) = 0.
Proof.
  intros H. rewrite list_lookup_total_alt, woken_lookup.
  destruct (cache c !! i) as [e|] eqn:E; [|reflexivity].
  cbn. unfold report. cbn [fd set_revents].
  destruct (H e eq_refl) as [Hfd|Hrv].
  - apply Z.ltb_lt in Hfd. now rewrite Hfd.
  - destruct (fd e <? 0); [reflexivity | exact Hrv].
Qed.

Lemma woken_revents c (revs : list Z) (i : nat) e :
  cache c !! i = Some e -> 0 <= fd e ->
  woken c revs !!! i = Pollfd (fd e) (events e) (revents_at revs i).
Proof.
  intros E Hfd. rewrite list_lookup_total_alt, woken_lookup, E. cbn.
  unfold report. cbn [fd set_revents].
  replace (fd e <? 0) with false by (symmetry; apply Z.ltb_ge; lia).
  reflexivity.
Qed.

Lemma length_woken c revs : length (woken c revs) = length (cache c).
Proof. unfold woken, armed. now rewrite length_imap, length_map. Qed.

Lemma seq_split (k n : nat) :
  (k < n)%nat -> seq 0 n = seq 0 k ++ k :: seq (S k) (n - S k).
Proof.
  intros H. replace n with (k + S (n - S k))%nat at 1 by lia.
  rewrite seq_app. reflexivity.
Qed.

Lemma w_log_tick w : w_log (tick w) = w_log w.
Proof. unfold tick. destruct (w_exit_in w) as [[|k]|]; reflexivity. Qed.

Lemma w_open_tick w : w_open (tick w) = w_open w.
Proof. unfold tick. destruct (w_exit_in w) as [[|k]|]; reflexivity. Qed.

Lemma w_rx_tick w : w_rx (tick w) = w_rx w.
Proof. unfold tick. destruct (w_exit_in w) as [[|k]|]; reflexivity. Qed.

Lemma w_log_after_wake n w : w_log (after_wake n w) = w_log w ++ [SysPoll n 500].
Proof. unfold after_wake. now rewrite w_log_tick. Qed.

Lemma w_open_after_wake n w : w_open (after_wake n w) = w_open w.
Proof. unfold after_wake. now rewrite w_open_tick. Qed.

Lemma w_rx_after_wake n w : w_rx (after_wake n w) = w_rx w.
Proof. unfold after_wake. now rewrite w_rx_tick. Qed.


(** The wake of C5: the first entry with events reports something other
    than plain readability. *)
Lemma recvError_hangup fuel c w r revs rest (k : nat) e :
  _exiting c = false -> w_exit_in w <> Some 0%nat ->
  w_polls w = PollReady r revs :: rest -> r <> 0 ->
  (k < length (_sockets c))%nat ->
  cache c !! k = Some e -> 0 <= fd e ->
  revents_at revs k <> 0 -> Z.lxor (revents_at revs k) POLLIN <> 0 ->
  (forall j ej, (j < k)%nat -> cache c !! j = Some ej -> fd ej < 0 \/ revents_at revs j = 0) ->
  recvError (S fuel) (Proc c w)
  = Ret (k, "connection with worker has been closed"%string)
      (Proc (set_poll_events
               (Some (<[k := Pollfd (-1) (events e) (revents_at revs k)]> (woken c revs))) c)
            (after_wake (length (armed c)) w)).
Proof.
  intros E Hx Hp Hr Hk He Hfd Hrv Hxor Hfirst.
  rewrite (recvError_wake fuel c w r revs rest) by assumption.
  rewrite (seq_split k (length (_sockets c))) by exact Hk.
  rewrite scan_skip.
  - rewrite scan_closed; cbn [this]; rewrite ?poll_events_set;
      rewrite (woken_revents c revs k e He Hfd); cbn [revents]; try assumption.
    reflexivity.
  - intros j Hj. cbn [this]. rewrite poll_events_set.
    apply woken_revents_zero. intros ej Hej.
    apply list_elem_of_In, in_seq in Hj. apply (Hfirst j ej); [lia | exact Hej].
Qed.

End ScanFacts.

(** ** What the listener reads *)

Module ReadFacts.
Import Master Wake ListenerFrames ListenerTurn WakeFacts ScanFacts.

Lemma scan_readable (k : nat) (ranks : list nat) c w :
  revents (poll_events c !!! k) = POLLIN ->
  scan (k :: ranks) (Proc c w)
  = try_catch (receive_error k (fd (poll_events c !!! k)))
      (fun e => ret (k, "recv: " +:+ what e)) (Proc c w).
Proof.
  intros Hr. cbn [scan]. unfold bind at 1. unfold get_this. cbn [this].
  rewrite Hr. reflexivity.
Qed.

(** The wake in which the first entry with events is plainly readable:
    [recvError] reads one frame from that entry's descriptor. *)
Lemma recvError_readable fuel c w r revs rest (k : nat) e :
  _exiting c = false -> w_exit_in w <> Some 0%nat ->
  w_polls w = PollReady r revs :: rest -> r <> 0 ->
  (k < length (_sockets c))%nat ->
  cache c !! k = Some e -> 0 <= fd e ->
  revents_at revs k = POLLIN ->
  (forall j ej, (j < k)%nat -> cache c !! j = Some ej -> fd ej < 0 \/ revents_at revs j = 0) ->
  recvError (S fuel) (Proc c w)
  = try_catch (receive_error k (fd e))
      (fun ex => ret (k, "recv: " +:+ what ex))
      (Proc (set_poll_events (Some (woken c revs)) c)
            (after_wake (length (armed c)) w)).
Proof.
  intros E Hx Hp Hr Hk He Hfd Hrv Hfirst.
  rewrite (recvError_wake fuel c w r revs rest) by assumption.
  rewrite (seq_split k (length (_sockets c))) by exact Hk.
  rewrite scan_skip.
  - rewrite scan_readable; rewrite poll_events_set;
      rewrite (woken_revents c revs k e He Hfd); cbn [revents fd]; [reflexivity | exact Hrv].
  - intros j Hj. cbn [this]. rewrite poll_events_set.
    apply woken_revents_zero. intros ej Hej.
    apply list_elem_of_In, in_seq in Hj. apply (Hfirst j ej); [lia | exact Hej].
Qed.

Lemma length_list_byte_of_string (s : string) :
  length (list_byte_of_string s) = String.length s.
Proof.
  induction s as [|a s IH]; [reflexivity|].
  cbn. f_equal. exact IH.
Qed.

Lemma w_rx_consume_other fd fd' n w :
  fd' <> fd -> w_rx (consume fd n w) !!! fd' = w_rx w !!! fd'.
Proof.
  intros Hne. destruct n as [|n]; [reflexivity|].
  cbn. now rewrite lookup_total_insert_ne.
Qed.

Lemma w_polls_after_wake n w : w_polls (after_wake n w) = tail (w_polls w).
Proof. unfold after_wake, tick. cbn. destruct (w_exit_in w) as [[|k]|]; reflexivity. Qed.

Lemma w_exit_in_consume fd n w : w_exit_in (consume fd n w) = w_exit_in w.
Proof. destruct n; reflexivity. Qed.

Lemma w_exit_in_after_wake n w :
  w_exit_in w = None -> w_exit_in (after_wake n w) = None.
Proof. intros H. unfold after_wake, tick. cbn. rewrite H. exact H. Qed.

(** Reading a whole frame that is waiting on a readable entry. *)
Lemma recvError_frame fuel c w r revs rest (k : nat) e (hdr body later : list byte) :
  _exiting c = false -> w_exit_in w <> Some 0%nat ->
  w_polls w = PollReady r revs :: rest -> r <> 0 ->
  (k < length (_sockets c))%nat ->
  cache c !! k = Some e -> 0 <= fd e -> fd e ∈ w_open w ->
  revents_at revs k = POLLIN ->
  (forall j ej, (j < k)%nat -> cache c !! j = Some ej -> fd ej < 0 \/ revents_at revs j = 0) ->
  w_rx w !!! fd e = hdr ++ body ++ later ->
  length hdr = Wire.sizeof_uint64 ->
  Wire.decode_uint hdr = Z.of_nat (length body) ->
  recvError (S fuel) (Proc c w)
  = Ret (k, string_of_list_byte body)
      (Proc (set_poll_events (Some (woken c revs)) c)
            (consume (fd e) (length body)
               (consume (fd e) Wire.sizeof_uint64
                  (after_wake (length (armed c)) w)))).
Proof.
  intros E Hx Hp Hr Hk He Hfd Ho Hrv Hfirst Hrx Hh Hd.
  rewrite (recvError_readable fuel c w r revs rest k e) by assumption.
  unfold try_catch. rewrite receive_error_is_receiveMessage. unfold bind.
  rewrite (receiveMessage_frame (fd e) _ hdr body later).
  - reflexivity.
  - cbn [os]. now rewrite w_open_after_wake.
  - cbn [os]. now rewrite w_rx_after_wake.
  - exact Hh.
  - exact Hd.
Qed.

End ReadFacts.

(** ** Entries that are marked as ignored *)

Module IgnoredFacts.
Import Master Wake Exec ListenerFrames ListenerTurn WakeFacts ScanFacts.

Lemma ignored_step (k : nat) (p p' : Master.t) :
  pe_step (_poll_events (this p)) (_poll_events (this p')) ->
  ignored k p -> ignored k p'.
Proof.
  intros Hs (pe & e & Hpe & He & Hfd). rewrite Hpe in Hs.
  destruct Hs as (pe' & Hpe' & _ & H). destruct (H k e He) as (e' & He' & Hfd').
  exists pe', e'. repeat split; [assumption | assumption | lia].
Qed.

Lemma exec_pe_step a p p' :
  exec a p = Some p' -> pe_step (_poll_events (this p)) (_poll_events (this p')).
Proof.
  destruct a as [|msg rank|fuel]; simpl; intros H.
  - pose proof (MasterFrames.init_preserves p) as Hk.
    apply ExecFacts.after_Some in H as [[a Ha]|[e He]];
      [rewrite Ha in Hk | rewrite He in Hk];
      destruct Hk as (_ & -> & _); apply pe_step_refl.
  - pose proof (MasterFrames.sendMessage_preserves msg rank p) as Hk.
    apply ExecFacts.after_Some in H as [[a Ha]|[e He]];
      [rewrite Ha in Hk | rewrite He in Hk];
      destruct Hk as [-> _]; apply pe_step_refl.
  - pose proof (errorHandler_body_cases fuel p) as Hk.
    apply ExecFacts.after_Some in H as [[go Ha]|[e He]].
    + rewrite Ha in Hk. destruct Hk as (error & p1 & _ & _ & _ & Hs & _). exact Hs.
    + rewrite He in Hk. destruct Hk as [p1 Hr].
      pose proof (errorHandler_body_unfold fuel p) as Hu.
      rewrite He, Hr in Hu. inversion Hu; subst.
      pose proof (recvError_keeps fuel p) as Hkeep. rewrite Hr in Hkeep.
      apply Hkeep.
Qed.

Lemma trace_ignored (k : nat) acts p j pj :
  ignored k p -> trace acts p !! j = Some pj -> ignored k pj.
Proof.
  revert p j. induction acts as [|a acts IH]; intros p j Hk Hj.
  - destruct j; [|destruct j; discriminate]. simpl in Hj. now inversion Hj; subst.
  - destruct j as [|j]; [simpl in Hj; now inversion Hj; subst|].
    cbn [trace] in Hj. destruct (exec a p) as [p'|] eqn:E; [|discriminate].
    apply (IH p' j); [|exact Hj].
    eapply ignored_step; [eapply exec_pe_step; eauto | exact Hk].
Qed.

Lemma pe_step_clear_cache c : pe_step (_poll_events c) (Some (armed c)).
Proof.
  pose proof (pe_step_clear c) as H. unfold armed, cache, poll_events in *.
  destruct (_poll_events c); [exact H | exact I].
Qed.

Lemma load_exiting_poll_events p :
  match load_exiting p with
  | Ret _ p' => _poll_events (this p') = _poll_events (this p)
  | _ => False
  end.
Proof.
  destruct p as [c w]. unfold load_exiting. cbn [this os].
  destruct (_exiting c); [reflexivity|].
  destruct (w_exit_in w) as [[|k]|]; reflexivity.
Qed.

Lemma masked_report c (revs : list Z) w :
  masked (Proc (set_poll_events
                  (Some (imap (fun i e => report e (revents_at revs i)) (poll_events c))) c) w).
Proof.
  intros i e He Hfd. cbn [this] in He. rewrite poll_events_set in He.
  rewrite list_lookup_imap in He.
  destruct (poll_events c !! i) as [e0|]; [|discriminate].
  cbn in He. inversion He; subst e. rewrite fd_report in Hfd.
  unfold report. apply Z.ltb_lt in Hfd. now rewrite Hfd.
Qed.

Lemma wait_loop_result fuel p :
  match wait_loop fuel p with
  | Ret (Some r) _ => fst r = 0%nat
  | Ret None p' => masked p'
  | _ => True
  end.
Proof.
  revert p. induction fuel as [|fuel IH]; intros [c w]; [exact I|].
  assert (Hload : forall (q : Master.t) (b0 : bool),
    (b0 = false -> masked q) ->
    match bind load_exiting
            (fun exiting : bool =>
               if exiting then ret (Some (0%nat, ""%string))
               else if b0 then wait_loop fuel else ret None) q
    with
    | Ret (Some r) _ => fst r = 0%nat
    | Ret None p' => masked p'
    | _ => True
    end).
  { intros q b0 Hq. unfold bind.
    pose proof (load_exiting_poll_events q) as Hpe.
    destruct (load_exiting q) as [[|] q'|e q'| |]; try exact I.
    - reflexivity.
    - destruct b0; [apply IH|]. unfold ret.
      intros i e He. apply (Hq eq_refl i e). unfold poll_events in *.
      now rewrite <- Hpe. }
  destruct (w_polls w) as [|[msg|r revs] rest] eqn:Hp.
  - rewrite (wait_loop_timeout fuel c w Hp). apply (Hload _ true). discriminate.
  - rewrite (wait_loop_fail fuel c w msg rest Hp). exact I.
  - rewrite (wait_loop_ready fuel c w r revs rest Hp).
    apply (Hload _ (r =? 0)). intros _. apply masked_report.
Qed.

(** Once the entry of a worker is ignored, no report of [recvError] names
    that worker again. *)
Lemma recvError_not_ignored (k : nat) fuel p r text p1 :
  ignored k p -> (0 < k)%nat ->
  recvError fuel p = Ret (r, text) p1 -> r <> k.
Proof.
  intros Hk Hpos H. destruct p as [c w]. rewrite recvError_arm in H.
  unfold bind at 1, try_catch in H.
  set (q := Proc (set_poll_events (Some (armed c)) c) w) in H.
  assert (Hkq : ignored k q).
  { eapply ignored_step; [|exact Hk]. cbn [this]. apply pe_step_clear_cache. }
  pose proof (wait_loop_result fuel q) as Hres.
  pose proof (wait_loop_keeps fuel q) as Hkeep.
  destruct (wait_loop fuel q) as [[r0|] q'|e q'| |]; try discriminate.
  - unfold ret in H. inversion H; subst. simpl in Hres. lia.
  - destruct (scan_rank _ _ _ _ _ H) as [->|[_ Hne]]; [lia|].
    intros ->. apply Hne.
    destruct Hkeep as (_ & _ & _ & _ & Hs & _).
    destruct (ignored_step k q q' Hs Hkq) as (pe & e & Hpe & He & Hfd).
    rewrite list_lookup_total_alt. unfold poll_events at 1. rewrite Hpe, He. cbn.
    apply (Hres k e); [unfold poll_events; now rewrite Hpe | lia].
  - unfold ret in H. inversion H; subst. lia.
Qed.

End IgnoredFacts.

(** ** The listener: bounded wait, exit, spurious wakes *)




(** ** The listener: a connection that hung up *)

(** C5, as stated, fails: at a wake where worker 1 has an error frame to
    read and worker 2 has hung up, [recvError] returns the report of worker
    1; the entry of worker 2 keeps its descriptor, 5, and is not marked. *)
Lemma recvError_hangup_counterexample :
  w_polls (os Demo.master3) = [PollReady 2 [0; POLLIN; 16]]
  /\ Z.lxor 16 POLLIN <> 0
  /\ exists p',
       Master.recvError 1 Demo.master3 = Ret (1%nat, "boom"%string) p'
       /\ Master._poll_events (this p')
          = Some [Pollfd (-1) POLLIN 0; Pollfd 6 POLLIN POLLIN; Pollfd 5 POLLIN 16].
Proof.
  split; [vm_compute; reflexivity|]. split; [vm_compute; discriminate|].
  eexists. split; vm_compute; reflexivity.
Qed.

(** C5, amended.  At a wake of the listener at which no exit is requested,
    let worker [k] be the first rank whose entry has events, and let these
    events be anything other than plain readability.  Then [recvError]
    returns [(k, "connection with worker has been closed")] after that one
    poll, and that is all it does: the object is as it was but for the poll
    entries, which are as [::poll] left them with the descriptor of entry
    [k], and of no other entry, replaced by -1; the world is as that single
    poll left it, so nothing is read from any connection and no descriptor
    is closed.  Every other entry keeps its descriptor, and what waits on
    the other connections waits there still: at a later wake at which such
    an entry is the first with events, plainly readable, with a frame on
    its connection that fits the buffer made for it, [recvError] returns
    the report of that worker.  And in whatever the channel does afterwards
    the entry of [k] stays marked and no report of [recvError] names worker
    [k] again. *)
Theorem recvError_reports_hangup
    (fuel : nat) (p : Master.t) (r : Z) (revs : list Z) (rest : list poll_result)
    (k : nat) (e : pollfd) :
  Master._exiting (this p) = false ->
  w_exit_in (os p) <> Some 0%nat ->
  w_polls (os p) = PollReady r revs :: rest ->
  r <> 0 ->
  (0 < k < length (Master._sockets (this p)))%nat ->
  Wake.cache (this p) !! k = Some e ->
  0 <= fd e ->
  revents_at revs k <> 0 ->
  Z.lxor (revents_at revs k) POLLIN <> 0 ->
  (forall (j : nat) ej, (j < k)%nat -> Wake.cache (this p) !! j = Some ej ->
                        fd ej < 0 \/ revents_at revs j = 0) ->
  exists p',
    Master.recvError (S fuel) p
    = Ret (k, "connection with worker has been closed"%string) p'
    /\ this p'
       = Master.set_poll_events
           (Some (<[k := Pollfd (-1) (events e) (revents_at revs k)]>
                    (Wake.woken (this p) revs))) (this p)
    /\ os p' = Wake.after_wake (length (Wake.armed (this p))) (os p)
    /\ Exec.ignored k p'
    /\ Master._sockets (this p') = Master._sockets (this p)
    /\ w_open (os p') = w_open (os p)
    /\ w_rx (os p') = w_rx (os p)
    /\ w_log (os p') = w_log (os p) ++ [SysPoll (length (Wake.cache (this p))) 500]
    /\ (forall (j : nat) ej,
          j <> k -> Wake.cache (this p) !! j = Some ej ->
          exists ej', Wake.cache (this p') !! j = Some ej'
                      /\ fd ej' = fd ej /\ events ej' = events ej)
    /\ (forall fuel' r' revs' rest' (j : nat) ej (hdr body later : list byte),
          rest = PollReady r' revs' :: rest' -> r' <> 0 ->
          w_exit_in (os p') <> Some 0%nat ->
          (j < length (Master._sockets (this p)))%nat -> j <> k ->
          Wake.cache (this p) !! j = Some ej -> 0 <= fd ej ->
          fd ej ∈ w_open (os p) ->
          revents_at revs' j = POLLIN ->
          (forall (i : nat) ei, (i < j)%nat -> i <> k ->
                                Wake.cache (this p) !! i = Some ei ->
                                fd ei < 0 \/ revents_at revs' i = 0) ->
          w_rx (os p) !!! fd ej = hdr ++ body ++ later ->
          length hdr = 8%nat ->
          Wire.decode_uint hdr = Z.of_nat (length body) ->
          Z.of_nat (length body) <= Master.error_buffer (Wire.decode_uint hdr) ->
          exists p'',
            Master.recvError (S fuel') p' = Ret (j, string_of_list_byte body) p''
            /\ w_rx (os p'') !!! fd ej = later)
    /\ forall acts (j : nat) pj,
         Exec.trace acts p' !! j = Some pj ->
         Exec.ignored k pj
         /\ forall fuel' r' text p1,
              Master.recvError fuel' pj = Ret (r', text) p1 -> r' <> k.
Proof.
  intros E Hx Hp Hr [Hpos Hk] He Hfd Hrv Hxor Hfirst.
  destruct p as [c w]. cbn [this os] in *.
  set (pe' := <[k := Pollfd (-1) (events e) (revents_at revs k)]> (Wake.woken c revs)).
  set (c' := Master.set_poll_events (Some pe') c).
  set (w' := Wake.after_wake (length (Wake.armed c)) w).
  exists (Proc c' w'). split.
  { apply (ScanFacts.recvError_hangup fuel c w r revs rest k e); assumption. }
  assert (Hklt : (k < length (Wake.woken c revs))%nat).
  { rewrite ScanFacts.length_woken. eapply lookup_lt_Some; eauto. }
  assert (Hign : Exec.ignored k (Proc c' w')).
  { exists pe', (Pollfd (-1) (events e) (revents_at revs k)).
    split; [reflexivity|]. split; [|reflexivity].
    apply list_lookup_insert_eq. exact Hklt. }
  assert (Hother : forall (j : nat) ej,
            j <> k -> Wake.cache c !! j = Some ej ->
            Wake.cache c' !! j = Some (report (set_revents 0 ej) (revents_at revs j))).
  { intros j ej Hne Hj. unfold Wake.cache. cbn [c' Master._poll_events Master.set_poll_events].
    unfold pe'. rewrite list_lookup_insert_ne by congruence.
    rewrite ScanFacts.woken_lookup, Hj. reflexivity. }
  split; [reflexivity|]. split; [reflexivity|].
  split; [exact Hign|]. cbn [this os].
  split; [reflexivity|].
  split; [apply ScanFacts.w_open_after_wake|].
  split; [apply ScanFacts.w_rx_after_wake|].
  split.
  { unfold w'. rewrite ScanFacts.w_log_after_wake. unfold Wake.armed.
    now rewrite length_map. }
  split.
  { intros j ej Hne Hj. eexists. split; [exact (Hother j ej Hne Hj)|].
    rewrite ListenerFrames.fd_report. split; [reflexivity|].
    unfold report. destruct (fd (set_revents 0 ej) <? 0); reflexivity. }
  split.
  { intros fuel' r' revs' rest' j ej hdr body later
           Hrest Hr' Hx' Hj Hne Hcj Hfdj Hoj Hrvj Hfirst' Hrx Hh Hd _.
    assert (Hcj' : Wake.cache c' !! j
                   = Some (Pollfd (fd ej) (events ej) (revents_at revs j))).
    { rewrite (Hother j ej Hne Hcj). unfold report. cbn [fd set_revents].
      replace (fd ej <? 0) with false by (symmetry; apply Z.ltb_ge; lia).
      reflexivity. }
    eexists. split.
    - apply (ReadFacts.recvError_frame fuel' c' w' r' revs' rest' j
               (Pollfd (fd ej) (events ej) (revents_at revs j)) hdr body later).
      + exact E.
      + exact Hx'.
      + unfold w'. rewrite ReadFacts.w_polls_after_wake, Hp. exact Hrest.
      + exact Hr'.
      + exact Hj.
      + exact Hcj'.
      + exact Hfdj.
      + unfold w'. rewrite ScanFacts.w_open_after_wake. exact Hoj.
      + exact Hrvj.
      + intros i ei Hi Hci. destruct (decide (i = k)) as [->|Hik].
        * left. unfold Wake.cache in Hci.
          cbn [c' Master._poll_events Master.set_poll_events] in Hci.
          unfold pe' in Hci. rewrite list_lookup_insert_eq in Hci by exact Hklt.
          inversion Hci; subst ei. cbn. lia.
        * assert (Hsome : exists ei0, Wake.cache c !! i = Some ei0).
          { unfold Wake.cache in Hci.
            cbn [c' Master._poll_events Master.set_poll_events] in Hci.
            unfold pe' in Hci. rewrite list_lookup_insert_ne in Hci by congruence.
            rewrite ScanFacts.woken_lookup in Hci.
            destruct (Wake.cache c !! i) as [ei0|]; [eauto | discriminate]. }
          destruct Hsome as [ei0 Hci0].
          rewrite (Hother i ei0 Hik Hci0) in Hci. inversion Hci; subst ei.
          rewrite ListenerFrames.fd_report. cbn [fd set_revents].
          exact (Hfirst' i ei0 Hi Hik Hci0).
      + cbn [fd]. unfold w'. rewrite ScanFacts.w_rx_after_wake. exact Hrx.
      + exact Hh.
      + exact Hd.
    - cbn [os fd]. rewrite !w_rx_consume. unfold w'.
      rewrite !ScanFacts.w_rx_after_wake, Hrx.
      change Wire.sizeof_uint64 with 8%nat. rewrite <- Hh.
      rewrite drop_app_length. apply drop_app_length. }
  intros acts j pj Hj.
  assert (Hpj : Exec.ignored k pj) by (eapply IgnoredFacts.trace_ignored; eauto).
  split; [exact Hpj|]. intros fuel' r' text p1 H.
  eapply IgnoredFacts.recvError_not_ignored; eauto.
Qed.

Lemma recvError_reports_hangup_witness :
  w_polls (os Demo.master3_hup_first)
  = [PollReady 1 [0; 0; 16]; PollReady 1 [0; POLLIN; 0]]
  /\ Wake.cache (this Demo.master3_hup_first) !! 2%nat = Some (Pollfd 5 POLLIN 0)
  /\ exists p' p'',
       Master.recvError 1 Demo.master3_hup_first
       = Ret (2%nat, "connection with worker has been closed"%string) p'
       /\ Master._poll_events (this p')
          = Some [Pollfd (-1) POLLIN 0; Pollfd 6 POLLIN 0; Pollfd (-1) POLLIN 16]
       /\ Exec.ignored 2 p'
       /\ Master._sockets (this p') = Master._sockets (this Demo.master3_hup_first)
       /\ w_open (os p') = w_open (os Demo.master3_hup_first)
       /\ w_rx (os p') = w_rx (os Demo.master3_hup_first)
       /\ Master.recvError 1 p' = Ret (1%nat, "boom"%string) p''
       /\ forall acts (j : nat) pj,
            Exec.trace acts p' !! j = Some pj ->
            Exec.ignored 2 pj
            /\ forall fuel' r' text p1,
                 Master.recvError fuel' pj = Ret (r', text) p1 -> r' <> 2%nat.
Proof.
  set (p := Demo.master3_hup_first).
  assert (H1 : Master._exiting (this p) = false) by (vm_compute; reflexivity).
  assert (H2 : w_exit_in (os p) <> Some 0%nat) by (vm_compute; discriminate).
  assert (H3 : w_polls (os p) = PollReady 1 [0; 0; 16] :: [PollReady 1 [0; POLLIN; 0]])
    by (vm_compute; reflexivity).
  assert (H4 : (1 : Z) <> 0) by discriminate.
  assert (H5 : (0 < 2 < length (Master._sockets (this p)))%nat)
    by (vm_compute; split; repeat constructor).
  assert (H6 : Wake.cache (this p) !! 2%nat = Some (Pollfd 5 POLLIN 0))
    by (vm_compute; reflexivity).
  assert (H7 : 0 <= fd (Pollfd 5 POLLIN 0)) by (vm_compute; discriminate).
  assert (H8 : revents_at [0; 0; 16] 2%nat <> 0) by (vm_compute; discriminate).
  assert (H9 : Z.lxor (revents_at [0; 0; 16] 2%nat) POLLIN <> 0) by (vm_compute; discriminate).
  assert (H10 : forall (j : nat) ej, (j < 2)%nat ->
              Wake.cache (this p) !! j = Some ej ->
              fd ej < 0 \/ revents_at [0; 0; 16] j = 0).
  { intros j ej Hj _. right. destruct j as [|[|j]]; [reflexivity | reflexivity | lia]. }
  split; [exact H3|]. split; [exact H6|].
  destruct (recvError_reports_hangup 0 p 1 [0; 0; 16]
              [PollReady 1 [0; POLLIN; 0]] 2 (Pollfd 5 POLLIN 0)
              H1 H2 H3 H4 H5 H6 H7 H8 H9 H10)
    as (p' & Hr & Ht & Hw & Hi & Hs & Ho & Hrx & _ & _ & Hlater & Hperm).
  destruct (Hlater 0%nat 1 [0; POLLIN; 0] [] 1%nat (Pollfd 6 POLLIN 0)
              (Wire.encode_uint 8 4) (list_byte_of_string "boom") [])
    as (p'' & Hr2 & _).
  - reflexivity.
  - discriminate.
  - rewrite Hw. vm_compute. discriminate.
  - vm_compute. repeat constructor.
  - discriminate.
  - vm_compute. reflexivity.
  - vm_compute. discriminate.
  - vm_compute. set_solver.
  - reflexivity.
  - intros i ei Hi' _ _. right. destruct i as [|i]; [reflexivity | lia].
  - vm_compute. reflexivity.
  - reflexivity.
  - vm_compute. reflexivity.
  - vm_compute. discriminate.
  - exists p', p''. split; [exact Hr|]. split; [rewrite Ht; vm_compute; reflexivity|].
    split; [exact Hi|]. split; [exact Hs|]. split; [exact Ho|]. split; [exact Hrx|].
    split; [exact Hr2 | exact Hperm].
Defined.

(** ** The accept barrier *)

Module JoinFacts.
Import Master Join.

Lemma length_handshake rank : length (handshake rank) = Wire.sizeof_rank_type.
Proof. apply WireFacts.length_encode_uint. Qed.

Section AcceptWorld.
Variables (lfd : Z) (w : world) (a : arrival).

Lemma w_listening_accept : w_listening (accept_world lfd w a) = w_listening w.
Proof. reflexivity. Qed.

Lemma w_open_accept : w_open (accept_world lfd w a) = {[a_fd a]} ∪ w_open w.
Proof. reflexivity. Qed.

Lemma w_hup_accept : w_hup (accept_world lfd w a) = w_hup w.
Proof. reflexivity. Qed.

Lemma w_backlog_accept : w_backlog (accept_world lfd w a) = tail (w_backlog w).
Proof. reflexivity. Qed.

Lemma w_polls_accept : w_polls (accept_world lfd w a) = w_polls w.
Proof. reflexivity. Qed.

Lemma w_exit_in_accept : w_exit_in (accept_world lfd w a) = w_exit_in w.
Proof. reflexivity. Qed.

Lemma w_log_accept : w_log (accept_world lfd w a) = w_log w ++ join_calls lfd a.
Proof.
  unfold accept_world. rewrite w_log_consume. cbn [w_log log set_rx w_rx].
  rewrite lookup_total_insert_eq.
  rewrite (take_app_length' _ _ _ (eq_sym (length_handshake (a_rank a)))).
  unfold join_calls. now rewrite <- app_assoc.
Qed.

Lemma w_rx_accept : w_rx (accept_world lfd w a) !!! a_fd a = a_extra a.
Proof.
  unfold accept_world. rewrite w_rx_consume. cbn [w_rx log set_rx].
  rewrite lookup_total_insert_eq.
  apply (drop_app_length' _ _ _ (eq_sym (length_handshake (a_rank a)))).
Qed.

End AcceptWorld.

(** One turn of the accept loop, up to the store into the table. *)
Lemma accept_one_step c w lfd (a : arrival) rest :
  w_listening w = Some lfd -> lfd ∈ w_open w ->
  _sockets c !!! 0%nat = lfd ->
  w_backlog w = (a_fd a, handshake (a_rank a) ++ a_extra a) :: rest ->
  Z.of_nat (a_rank a) < 2 ^ 32 ->
  accept_one (Proc c w)
  = sockets_at_put (a_rank a) (a_fd a) (Proc c (accept_world lfd w a)).
Proof.
  intros Hl Ho H0 Hb Hr. unfold accept_one. unfold bind at 1. unfold get_this.
  cbn [this]. rewrite H0. unfold bind at 1. unfold accept, bind at 1, get_os.
  cbn [os]. rewrite bool_decide_eq_true_2 by exact Hl.
  rewrite bool_decide_eq_true_2 by exact Ho. cbn [andb]. rewrite Hb.
  unfold bind at 1, modify_os, ret. cbn [this os fst].
  unfold bind at 1, recv_uint, bind at 1.
  change (Z.of_nat Wire.sizeof_rank_type) with (Z.of_nat 4).
  rewrite recv_bytes_ready.
  - cbn [this os w_rx log set_rx]. rewrite lookup_total_insert_eq.
    rewrite (take_app_length' _ _ _ (eq_sym (length_handshake (a_rank a)))).
    unfold ret at 1. unfold handshake at 1.
    rewrite WireFacts.decode_encode_rank by exact Hr.
    unfold accept_world. rewrite Hb. reflexivity.
  - cbn. set_solver.
  - cbn [os w_rx log set_rx]. rewrite lookup_total_insert_eq, length_app.
    pose proof (length_handshake (a_rank a)) as Hh.
    change Wire.sizeof_rank_type with 4%nat in Hh. lia.
Qed.

Lemma sockets_at_put_in_range (rank : nat) socket c w :
  (rank < length (_sockets c))%nat ->
  sockets_at_put rank socket (Proc c w)
  = Ret tt (Proc (set_sockets <[rank := socket]> c) w).
Proof.
  intros H. unfold sockets_at_put, bind, get_this, modify_this. cbn [this os].
  now rewrite bool_decide_eq_true_2 by exact H.
Qed.

Lemma sockets_at_put_out_of_range (rank : nat) socket c w :
  (length (_sockets c) <= rank)%nat ->
  sockets_at_put rank socket (Proc c w)
  = Throw (out_of_range "vector::_M_range_check") (Proc c w).
Proof.
  intros H. unfold sockets_at_put, bind, get_this, throw. cbn [this os].
  now rewrite bool_decide_eq_false_2 by lia.
Qed.

Lemma backlog_of_cons a arr :
  backlog_of (a :: arr) = (a_fd a, handshake (a_rank a) ++ a_extra a) :: backlog_of arr.
Proof. reflexivity. Qed.

(** The accept loop over connections that announce ranks of workers. *)
Lemma accept_loop_good (arr : list arrival) :
  forall (idx : list nat) c w lfd more,
    length idx = length arr ->
    w_listening w = Some lfd -> lfd ∈ w_open w ->
    _sockets c !!! 0%nat = lfd ->
    w_backlog w = backlog_of arr ++ more ->
    Z.of_nat (length (_sockets c)) <= 2 ^ 32 ->
    Forall (fun a => (1 <= a_rank a < length (_sockets c))%nat) arr ->
    for_each idx (fun _ => accept_one) (Proc c w)
    = Ret tt (Proc (set_sockets (fun s => foldl slot s arr) c)
                   (foldl (accept_world lfd) w arr)).
Proof.
  induction arr as [|a arr IH]; intros idx c w lfd more Hlen Hl Ho H0 Hb Hn Hgood.
  - destruct idx; [|discriminate]. destruct c. reflexivity.
  - destruct idx as [|i idx']; [discriminate|]. cbn [for_each foldl].
    apply Forall_cons in Hgood as [Ha Hrest].
    unfold bind at 1.
    rewrite (accept_one_step c w lfd a (backlog_of arr ++ more)); try assumption; [|lia].
    rewrite sockets_at_put_in_range by lia.
    rewrite (IH idx' _ _ lfd more).
    + reflexivity.
    + simpl in Hlen. lia.
    + exact Hl.
    + rewrite w_open_accept. set_solver.
    + cbn [_sockets set_sockets slot]. rewrite list_lookup_total_insert_ne by lia. exact H0.
    + rewrite w_backlog_accept, Hb. reflexivity.
    + cbn [_sockets set_sockets]. rewrite length_insert. exact Hn.
    + cbn [_sockets set_sockets]. rewrite length_insert. exact Hrest.
Qed.

End JoinFacts.

Module TableFacts.
Import Master Join JoinFacts.

Lemma foldl_slot_length (arr : list arrival) (s : list Z) :
  length (foldl slot s arr) = length s.
Proof.
  revert s. induction arr as [|a arr IH]; intros s; [reflexivity|].
  cbn [foldl]. rewrite IH. apply length_insert.
Qed.

Lemma foldl_slot_other (arr : list arrival) (s : list Z) (r : nat) :
  r ∉ map a_rank arr -> foldl slot s arr !! r = s !! r.
Proof.
  revert s. induction arr as [|a arr IH]; intros s Hr; [reflexivity|].
  cbn [foldl]. rewrite IH by (intros H; apply Hr; now right).
  apply list_lookup_insert_ne. intros E. apply Hr. rewrite <- E. now left.
Qed.

Lemma foldl_slot_at (arr : list arrival) (s : list Z) (a : arrival) :
  a ∈ arr -> NoDup (map a_rank arr) -> (a_rank a < length s)%nat ->
  foldl slot s arr !! a_rank a = Some (a_fd a).
Proof.
  revert s. induction arr as [|b arr IH]; intros s Hin Hnd Hlt.
  - inversion Hin.
  - cbn [foldl]. cbn [map] in Hnd. apply NoDup_cons in Hnd as [Hb Hnd].
    apply elem_of_cons in Hin as [->|Hin].
    + rewrite foldl_slot_other by exact Hb.
      now apply list_lookup_insert_eq.
    + apply IH; [exact Hin | exact Hnd | unfold slot; now rewrite length_insert].
Qed.

Lemma w_log_foldl_accept lfd (arr : list arrival) w :
  w_log (foldl (accept_world lfd) w arr) = w_log w ++ flat_map (join_calls lfd) arr.
Proof.
  revert w. induction arr as [|a arr IH]; intros w; [simpl; now rewrite app_nil_r|].
  cbn [foldl flat_map]. rewrite IH, w_log_accept. now rewrite <- app_assoc.
Qed.

Lemma w_open_foldl_accept lfd (arr : list arrival) w :
  w_open (foldl (accept_world lfd) w arr) = list_to_set (map a_fd arr) ∪ w_open w.
Proof.
  revert w. induction arr as [|a arr IH]; intros w; [simpl; set_solver|].
  cbn [foldl map]. rewrite IH, w_open_accept. set_solver.
Qed.

Lemma w_hup_foldl_accept lfd (arr : list arrival) w :
  w_hup (foldl (accept_world lfd) w arr) = w_hup w.
Proof.
  revert w. induction arr as [|a arr IH]; intros w; [reflexivity|].
  cbn [foldl]. now rewrite IH.
Qed.

Lemma w_listening_foldl_accept lfd (arr : list arrival) w :
  w_listening (foldl (accept_world lfd) w arr) = w_listening w.
Proof.
  revert w. induction arr as [|a arr IH]; intros w; [reflexivity|].
  cbn [foldl]. now rewrite IH.
Qed.

Lemma w_log_foldl_confirm (s : list Z) (idx : list nat) w :
  w_log (foldl (confirm_world s) w idx)
  = w_log w ++ map (fun i => SysSend (s !!! i) [x01]) idx.
Proof.
  revert w. induction idx as [|i idx IH]; intros w; [simpl; now rewrite app_nil_r|].
  cbn [foldl map]. rewrite IH. cbn. now rewrite <- app_assoc.
Qed.

Lemma w_open_foldl_confirm (s : list Z) (idx : list nat) w :
  w_open (foldl (confirm_world s) w idx) = w_open w.
Proof.
  revert w. induction idx as [|i idx IH]; intros w; [reflexivity|].
  cbn [foldl]. now rewrite IH.
Qed.

Lemma w_listening_foldl_confirm (s : list Z) (idx : list nat) w :
  w_listening (foldl (confirm_world s) w idx) = w_listening w.
Proof.
  revert w. induction idx as [|i idx IH]; intros w; [reflexivity|].
  cbn [foldl]. now rewrite IH.
Qed.

(** The loop that releases the workers, when every connection is up. *)
Lemma confirm_loop_ok (idx : list nat) c w :
  (forall i, i ∈ idx -> usable (_sockets c !!! i) w = true) ->
  for_each idx confirm_one (Proc c w)
  = Ret tt (Proc c (foldl (confirm_world (_sockets c)) w idx)).
Proof.
  revert w. induction idx as [|i idx IH]; intros w Hu; [reflexivity|].
  cbn [for_each foldl]. unfold bind at 1. unfold confirm_one at 1.
  unfold bind at 1, get_this. cbn [this].
  rewrite send_bytes_usable by (apply Hu; left).
  cbn [this os transmit]. apply IH.
  intros j Hj. unfold confirm_world. change (usable ?fd (log _ w)) with (usable fd w).
  apply Hu. now right.
Qed.

(** [init], when the connections that come in announce ranks of workers
    and the connections they end up on are up. *)
Lemma init_run port (n : nat) w (arr : list arrival) more :
  (1 <= n)%nat -> Z.of_nat n <= 2 ^ 32 ->
  length arr = (n - 1)%nat ->
  w_backlog w = backlog_of arr ++ more ->
  Forall (fun a => (1 <= a_rank a < n)%nat) arr ->
  let lfd := w_next_fd w in
  let w1 := log (SysListen port lfd)
              (set_listening (Some lfd) (set_open (union {[lfd]}) w)) in
  let w2 := foldl (accept_world lfd) w1 arr in
  let s2 := foldl slot (<[0%nat := lfd]> (replicate n (-1))) arr in
  (forall i, (1 <= i < n)%nat -> usable (s2 !!! i) w2 = true) ->
  init (Proc (new port n) w)
  = Ret true
      (Proc (Build 0 port (<[0%nat := -1]> s2) None false true None)
            (log ThreadStart
               (closed lfd (foldl (confirm_world s2) w2 (seq 1 (n - 1)))))).
Proof.
  intros Hn1 Hn2 Hlen Hb Hgood lfd w1 w2 s2 Hu.
  unfold init. unfold bind at 1. unfold get_this. cbn [this].
  unfold bind at 1. unfold listen, bind at 1, get_os. cbn [os].
  unfold bind at 1, modify_os, ret. cbn [this os fst].
  unfold bind at 1, modify_this. cbn [this os].
  cbn [new _sockets _port]. rewrite length_replicate.
  fold lfd. fold w1.
  unfold bind at 1.
  rewrite (accept_loop_good arr (seq 1 (n - 1)) _ w1 lfd more).
  2: { now rewrite length_seq. }
  2: { reflexivity. }
  2: { subst w1. cbn. set_solver. }
  2: { cbn [_sockets set_sockets new]. apply list_lookup_total_insert_eq.
       rewrite length_replicate. lia. }
  2: { exact Hb. }
  2: { cbn [_sockets set_sockets new]. now rewrite length_insert, length_replicate. }
  2: { cbn [_sockets set_sockets new]. now rewrite length_insert, length_replicate. }
  cbn [set_sockets new _sockets _rank _port _poll_events _exiting _started _error].
  fold s2. fold w2.
  unfold bind at 1. rewrite confirm_loop_ok.
  2: { intros i Hi. cbn [_sockets]. apply Hu.
       apply list_elem_of_In, in_seq in Hi. lia. }
  cbn [_sockets].
  unfold bind at 1, get_this. cbn [this].
  assert (H0 : s2 !!! 0%nat = lfd).
  { apply list_lookup_total_correct. subst s2.
    rewrite foldl_slot_other.
    - apply list_lookup_insert_eq. rewrite length_replicate. lia.
    - intros Hin. apply list_elem_of_In, in_map_iff in Hin as (a & Ha & Hin).
      rewrite Forall_forall in Hgood. apply list_elem_of_In in Hin.
      specialize (Hgood a Hin). lia. }
  change (_sockets (set_sockets (fun s : list Z => foldl slot s arr)
                      (set_sockets <[0%nat := lfd]> (new port n)))) with s2.
  rewrite H0. reflexivity.
Qed.

End TableFacts.

Module BarrierFacts.
Import Master Join JoinFacts TableFacts.

Section Workers.
Variables (n : nat) (conn : nat -> Z) (extra : nat -> list byte) (order : list nat).
Hypothesis order_perm : order ≡ₚ seq 1 (n - 1).

Lemma order_length : length order = (n - 1)%nat.
Proof. rewrite order_perm. apply length_seq. Qed.

Lemma order_NoDup : NoDup order.
Proof. rewrite order_perm. apply NoDup_ListNoDup, List.seq_NoDup. Qed.

Lemma order_elem r : r ∈ order <-> (1 <= r < n)%nat.
Proof.
  rewrite order_perm, list_elem_of_In, in_seq. lia.
Qed.

Lemma workers_ranks : map a_rank (workers conn extra order) = order.
Proof.
  unfold workers. rewrite map_map. cbn. apply map_id.
Qed.

Lemma workers_fds : map a_fd (workers conn extra order) = map conn order.
Proof. unfold workers. now rewrite map_map. Qed.

Lemma workers_length : length (workers conn extra order) = (n - 1)%nat.
Proof. unfold workers. rewrite length_map. apply order_length. Qed.

Lemma workers_good :
  Forall (fun a => (1 <= a_rank a < n)%nat) (workers conn extra order).
Proof.
  unfold workers. rewrite Forall_map. apply Forall_forall.
  intros r Hr. cbn. now apply order_elem.
Qed.

Lemma workers_slot (s : list Z) r :
  length s = n -> (1 <= r < n)%nat ->
  foldl slot s (workers conn extra order) !! r = Some (conn r).
Proof.
  intros Hs Hr.
  apply (foldl_slot_at (workers conn extra order) s (conn r, r, extra r)).
  - unfold workers. apply (list_elem_of_fmap_2 (fun r => (conn r, r, extra r))).
    now apply order_elem.
  - rewrite workers_ranks. apply NoDup_ListNoDup, NoDup_ListNoDup, order_NoDup.
  - cbn. lia.
Qed.

Lemma workers_table lfd :
  (1 <= n)%nat ->
  <[0%nat := -1]> (foldl slot (<[0%nat := lfd]> (replicate n (-1)))
                     (workers conn extra order))
  = -1 :: map conn (seq 1 (n - 1)).
Proof.
  intros Hn. apply list_eq. intros i.
  set (s2 := foldl slot _ _).
  assert (Hlen : length s2 = n).
  { subst s2. now rewrite foldl_slot_length, length_insert, length_replicate. }
  destruct i as [|i].
  - rewrite list_lookup_insert_eq by lia. reflexivity.
  - rewrite list_lookup_insert_ne by lia.
    change ((-1 :: map conn (seq 1 (n - 1))) !! S i)
      with ((conn <$> seq 1 (n - 1)) !! i).
    rewrite list_lookup_fmap.
    destruct (decide (S i < n)%nat) as [Hi|Hi].
    + subst s2. rewrite workers_slot;
        [|now rewrite length_insert, length_replicate | lia].
      rewrite lookup_seq_lt by lia. reflexivity.
    + rewrite lookup_ge_None_2 by lia.
      rewrite lookup_seq_ge by lia. reflexivity.
Qed.

End Workers.

(** The log of a successful [init]: the listen, the joins, the confirmation
    bytes, the close of the listening socket, the start of the thread. *)
Lemma no_send_in_joins lfd (arr : list arrival) fd :
  sent fd (flat_map (join_calls lfd) arr) = [].
Proof. induction arr as [|a arr IH]; [reflexivity | exact IH]. Qed.

Lemma accepted_joins lfd (arr : list arrival) :
  accepted (flat_map (join_calls lfd) arr) = map a_fd arr.
Proof.
  induction arr as [|a arr IH]; [reflexivity|].
  cbn [flat_map map]. rewrite accepted_app, IH. reflexivity.
Qed.

Lemma accepted_confirms (f : nat -> Z) (idx : list nat) :
  accepted (map (fun i => SysSend (f i) [x01]) idx) = [].
Proof. induction idx as [|i idx IH]; [reflexivity | exact IH]. Qed.

Lemma sent_nil_prefix fd l1 l2 : sent fd (l1 ++ l2) = [] -> sent fd l1 = [].
Proof. rewrite sent_app. intros H. now apply app_eq_nil in H. Qed.

Lemma accepted_nil_prefix l1 l2 : accepted (l1 ++ l2) = [] -> accepted l1 = [].
Proof. rewrite accepted_app. intros H. now apply app_eq_nil in H. Qed.

(** In a log made of a part without writes followed by a part without
    accepts, a prefix in which something was written has all the accepts. *)
Lemma prefix_with_send (joins rest pre suf : list syscall) fd :
  (forall fd', sent fd' joins = []) -> accepted rest = [] ->
  pre ++ suf = joins ++ rest ->
  sent fd pre <> [] ->
  accepted pre = accepted joins.
Proof.
  intros Hj Hr Heq Hs.
  apply app_eq_app in Heq as [l [[-> ->]|[-> ->]]].
  - rewrite accepted_app. rewrite (accepted_nil_prefix l suf Hr). apply app_nil_r.
  - exfalso. apply Hs. apply (sent_nil_prefix fd pre l). apply Hj.
Qed.

Lemma worker_init_returns (pw : Worker.t) b pw' :
  Worker.init pw = Ret b pw' ->
  w_rx (os pw) !!! w_next_fd (os pw) <> [].
Proof.
  destruct pw as [c w]. unfold Worker.init.
  unfold bind at 1. unfold get_this. cbn [this].
  unfold bind at 1. unfold connect, bind at 1, get_os. cbn [os].
  unfold bind at 1, modify_os, ret. cbn [this os].
  unfold bind at 1, modify_this. cbn [this os].
  unfold bind at 1, send_uint.
  set (w1 := log _ _). set (c1 := Worker.set_socket _ _).
  destruct (send_bytes _ _ _ _) as [[] [c2 w2]|e p2| |] eqn:Es; try discriminate.
  unfold bind at 1. intros H Hnil.
  assert (Hw2 : w_rx w2 = w_rx w).
  { cbn [Wire.encode_uint Wire.sizeof_rank_type] in Es.
    unfold send_bytes, bind, get_os, modify_os, throw in Es. cbn [os this] in Es.
    destruct (usable (w_next_fd w) w1); inversion Es; reflexivity. }
  unfold recv_bytes in H. cbn [Z.leb Z.compare] in H.
  unfold bind at 1 in H. unfold get_os in H. cbn [os] in H.
  rewrite Hw2, Hnil in H. cbn [length Z.of_nat Z.leb Z.compare] in H.
  destruct (bool_decide (w_next_fd w ∈ w_open w2)); [|discriminate].
  destruct (bool_decide (w_next_fd w ∈ w_hup w2)); discriminate.
Qed.

End BarrierFacts.

Module InitFacts.
Import Master Join JoinFacts TableFacts BarrierFacts.

(** What a successful [init] leaves behind, when the workers of the job
    come in, each once, in any order. *)
Lemma init_result port (n : nat) w conn extra (order : list nat) more :
  (1 <= n)%nat -> Z.of_nat n <= 2 ^ 32 ->
  order ≡ₚ seq 1 (n - 1) ->
  w_backlog w = backlog_of (workers conn extra order) ++ more ->
  (forall r, r ∈ order -> conn r ∉ w_hup w) ->
  exists w',
    init (Proc (new port n) w)
    = Ret true (Proc (Build 0 port (-1 :: map conn (seq 1 (n - 1)))
                        None false true None) w')
    /\ w_log w'
       = w_log w
         ++ [SysListen port (w_next_fd w)]
         ++ flat_map (join_calls (w_next_fd w)) (workers conn extra order)
         ++ map (fun r => SysSend (conn r) [x01]) (seq 1 (n - 1))
         ++ [SysClose (w_next_fd w); ThreadStart]
    /\ w_open w'
       = (list_to_set (map conn order) ∪ ({[w_next_fd w]} ∪ w_open w))
           ∖ {[w_next_fd w]}
    /\ w_hup w' = w_hup w.
Proof.
  intros Hn1 Hn2 Hperm Hb Hup.
  set (arr := workers conn extra order).
  set (lfd := w_next_fd w).
  set (w1 := log (SysListen port lfd)
               (set_listening (Some lfd) (set_open (union {[lfd]}) w))).
  set (w2 := foldl (accept_world lfd) w1 arr).
  set (s2 := foldl slot (<[0%nat := lfd]> (replicate n (-1))) arr).
  assert (Hs2 : forall i, (1 <= i < n)%nat -> s2 !!! i = conn i).
  { intros i Hi. apply list_lookup_total_correct. subst s2 arr.
    apply (workers_slot n); [exact Hperm | | exact Hi].
    now rewrite length_insert, length_replicate. }
  assert (Hu : forall i, (1 <= i < n)%nat -> usable (s2 !!! i) w2 = true).
  { intros i Hi. rewrite (Hs2 i Hi). unfold usable. apply andb_true_iff. split.
    - apply bool_decide_eq_true_2. subst w2.
      rewrite w_open_foldl_accept. subst arr. rewrite workers_fds.
      apply elem_of_union_l, elem_of_list_to_set.
      apply (list_elem_of_fmap_2 conn). now apply (order_elem n).
    - apply negb_true_iff, bool_decide_eq_false_2. subst w2.
      rewrite w_hup_foldl_accept. apply Hup. now apply (order_elem n). }
  pose proof (init_run port n w arr more Hn1 Hn2
                (workers_length n conn extra order Hperm) Hb
                (workers_good n conn extra order Hperm) Hu) as Hrun.
  fold lfd w1 w2 s2 in Hrun.
  pose proof (workers_table n conn extra order Hperm lfd Hn1) as Htab.
  fold arr s2 in Htab. rewrite Htab in Hrun.
  eexists. split; [exact Hrun|].
  split; [|split].
  - cbn [w_log log closed set_listening set_open].
    rewrite w_log_foldl_confirm. subst w2. rewrite w_log_foldl_accept.
    subst w1. cbn [w_log log set_listening set_open].
    rewrite <- !app_assoc. do 3 f_equal.
    change ([SysClose lfd] ++ [ThreadStart]) with [SysClose lfd; ThreadStart].
    f_equal. apply map_ext_in. intros i Hi. apply in_seq in Hi.
    rewrite Hs2 by lia. reflexivity.
  - cbn [w_open log closed set_listening set_open].
    rewrite w_open_foldl_confirm. subst w2. rewrite w_open_foldl_accept.
    subst arr. rewrite workers_fds. reflexivity.
  - cbn [w_hup log closed set_listening set_open].
    assert (Hc : forall idx w0, w_hup (foldl (confirm_world s2) w0 idx) = w_hup w0).
    { induction idx as [|i idx IH]; intros w0; [reflexivity|]. cbn [foldl]. now rewrite IH. }
    rewrite Hc. subst w2. now rewrite w_hup_foldl_accept.
Qed.

End InitFacts.

(** C2.  Let the workers 1 .. WorldSize-1 come in on their connections in
    any order.  Then [init] returns; the connection of worker [r] is in slot
    [r] of the table (and slot 0 is empty again), whatever the order was;
    the log consists of the listen, the WorldSize-1 accepts with the reads
    of the announced ranks, then one confirmation byte per worker, then the
    close of the listening socket; and no worker's [init] can have returned
    at a point of that log at which not all connections were accepted: a
    worker's [init] that finds on its connection what the master had
    written up to some point returns only if by that point all WorldSize-1
    connections had been accepted. *)
Theorem init_barrier
    (port : Z) (n : nat) (w : world) (conn : nat -> Z) (extra : nat -> list byte)
    (order : list nat) (more : list (Z * list byte)) :
  (1 <= n)%nat ->
  Z.of_nat n <= 2 ^ 32 ->
  order ≡ₚ seq 1 (n - 1) ->
  w_backlog w = Join.backlog_of (Join.workers conn extra order) ++ more ->
  (forall r, r ∈ order -> conn r ∉ w_hup w) ->
  exists c' w',
    Master.init (Proc (Master.new port n) w) = Ret true (Proc c' w')
    /\ Master._sockets c' = -1 :: map conn (seq 1 (n - 1))
    /\ (forall r, (1 <= r < n)%nat -> Master._sockets c' !! r = Some (conn r))
    /\ w_log w'
       = w_log w
         ++ [SysListen port (w_next_fd w)]
         ++ flat_map (Join.join_calls (w_next_fd w)) (Join.workers conn extra order)
         ++ map (fun r => SysSend (conn r) [x01]) (seq 1 (n - 1))
         ++ [SysClose (w_next_fd w); ThreadStart]
    /\ accepted (flat_map (Join.join_calls (w_next_fd w))
                   (Join.workers conn extra order))
       = map conn order
    /\ forall (pre suf : list syscall) (r : nat) (pw : Worker.t),
         w_log w' = w_log w ++ pre ++ suf ->
         r ∈ order ->
         w_rx (os pw) !!! w_next_fd (os pw) = sent (conn r) pre ->
         (exists b pw', Worker.init pw = Ret b pw') ->
         accepted pre = map conn order.
Proof.
  intros Hn1 Hn2 Hperm Hb Hup.
  destruct (InitFacts.init_result port n w conn extra order more Hn1 Hn2 Hperm Hb Hup)
    as (w' & Hinit & Hlog & _ & _).
  assert (Hacc : accepted (flat_map (Join.join_calls (w_next_fd w))
                             (Join.workers conn extra order)) = map conn order).
  { rewrite BarrierFacts.accepted_joins. apply BarrierFacts.workers_fds. }
  eexists _, w'. split; [exact Hinit|]. cbn [Master._sockets].
  split; [reflexivity|]. split; [|split; [exact Hlog|split; [exact Hacc|]]].
  - intros r Hr. destruct r as [|r]; [lia|].
    change ((-1 :: map conn (seq 1 (n - 1))) !! S r)
      with ((conn <$> seq 1 (n - 1)) !! r).
    rewrite list_lookup_fmap, lookup_seq_lt by lia. reflexivity.
  - intros pre suf r pw Hpre Hr Hrx [b [pw' Hret]].
    rewrite Hlog in Hpre. apply app_inv_head in Hpre.
    apply BarrierFacts.worker_init_returns in Hret. rewrite Hrx in Hret.
    change ([SysListen port (w_next_fd w)] ++ ?j ++ ?c ++ ?t)
      with (SysListen port (w_next_fd w) :: j ++ c ++ t) in Hpre.
    rewrite app_comm_cons in Hpre.
    rewrite (BarrierFacts.prefix_with_send
               (SysListen port (w_next_fd w)
                :: flat_map (Join.join_calls (w_next_fd w))
                     (Join.workers conn extra order))
               (map (fun r => SysSend (conn r) [x01]) (seq 1 (n - 1))
                ++ [SysClose (w_next_fd w); ThreadStart])
               pre suf (conn r)).
    + exact Hacc.
    + intros fd'. apply (BarrierFacts.no_send_in_joins (w_next_fd w)).
    + rewrite accepted_app, BarrierFacts.accepted_confirms. reflexivity.
    + symmetry. exact Hpre.
    + exact Hret.
Qed.

Lemma init_barrier_witness :
  let order := [3; 2; 1]%nat in
  order ≡ₚ seq 1 (4 - 1)
  /\ exists c' w',
       Master.init (Proc (Master.new 29500 4) Demo.world4) = Ret true (Proc c' w')
       /\ Master._sockets c' = [-1; 11; 12; 13]
       /\ accepted (w_log w') = [13; 12; 11]
       /\ forall (pre suf : list syscall) (r : nat) (pw : Worker.t),
            w_log w' = w_log Demo.world4 ++ pre ++ suf ->
            r ∈ order ->
            w_rx (os pw) !!! w_next_fd (os pw) = sent (Demo.conn4 r) pre ->
            (exists b pw', Worker.init pw = Ret b pw') ->
            accepted pre = [13; 12; 11].
Proof.
  intros order.
  assert (H1 : (1 <= 4)%nat) by lia.
  assert (H2 : Z.of_nat 4 <= 2 ^ 32) by (vm_compute; discriminate).
  assert (H3 : order ≡ₚ seq 1 (4 - 1))
    by (symmetry; apply (Permutation_rev [1; 2; 3]%nat)).
  assert (H4 : w_backlog Demo.world4
               = Join.backlog_of (Join.workers Demo.conn4 (fun _ => []) order) ++ [])
    by (symmetry; apply app_nil_r).
  assert (H5 : forall r, r ∈ order -> Demo.conn4 r ∉ w_hup Demo.world4)
    by (intros r _; cbn; set_solver).
  split; [exact H3|].
  destruct (init_barrier 29500 4 Demo.world4 Demo.conn4 (fun _ => []) order []
              H1 H2 H3 H4 H5) as (c' & w' & Hinit & Hs & _ & Hlog & _ & Hbar).
  exists c', w'. split; [exact Hinit|]. split; [exact Hs|].
  split; [rewrite Hlog; reflexivity | exact Hbar].
Defined.

(** A worker's [init] is stuck as long as the confirmation byte has not
    come, and returns once it has. *)
Example worker_init_blocks : Worker.init (Demo.worker_new 2 []) = Block.
Proof. vm_compute. reflexivity. Qed.

Example worker_init_released :
  exists pw', Worker.init (Demo.worker_new 2 [x01]) = Ret true pw'
              /\ w_log (os pw')
                 = [SysConnect "master" 29500 3; SysSend 3 (Join.handshake 2);
                    SysRecv 3 [x01]].
Proof. eexists. split; vm_compute; reflexivity. Qed.

(** ** The announced rank is not validated *)

Module RankFacts.
Import Master Join JoinFacts TableFacts.

Lemma for_each_app {O A} (l1 l2 : list A) (body : A -> M (proc O) unit) p :
  for_each (l1 ++ l2) body p
  = bind (for_each l1 body) (fun _ => for_each l2 body) p.
Proof.
  revert p. induction l1 as [|x l1 IH]; intros p; [reflexivity|].
  cbn [app for_each]. unfold bind.
  destruct (body x p) as [[] p1|e p1| |]; try reflexivity.
  rewrite IH. reflexivity.
Qed.

Section Loop.
Variables (port : Z) (n : nat) (w : world) (arr : list arrival).
Hypothesis n_pos : (1 <= n)%nat.
Hypothesis n_fits : Z.of_nat n <= 2 ^ 32.
Hypothesis arr_good : Forall (fun a => (1 <= a_rank a < n)%nat) arr.

Lemma loop_state_length : length (_sockets (this (loop_state port n w arr))) = n.
Proof.
  cbn. now rewrite foldl_slot_length, length_insert, length_replicate.
Qed.

Lemma loop_state_listening :
  w_listening (os (loop_state port n w arr)) = Some (w_next_fd w).
Proof. cbn [os loop_state]. now rewrite w_listening_foldl_accept. Qed.

Lemma loop_state_listener_open :
  w_next_fd w ∈ w_open (os (loop_state port n w arr)).
Proof. cbn [os loop_state]. rewrite w_open_foldl_accept. cbn. set_solver. Qed.

Lemma loop_state_slot0 :
  _sockets (this (loop_state port n w arr)) !! 0%nat = Some (w_next_fd w).
Proof.
  cbn. rewrite foldl_slot_other.
  - apply list_lookup_insert_eq. rewrite length_replicate. lia.
  - intros Hin. apply list_elem_of_In, in_map_iff in Hin as (a & Ha & Hin).
    rewrite Forall_forall in arr_good. apply list_elem_of_In in Hin.
    specialize (arr_good a Hin). lia.
Qed.

(** [init] gets there, and goes on with the next turn of its first loop. *)
Lemma init_reaches more e p' :
  (length arr < n - 1)%nat ->
  w_backlog w = backlog_of arr ++ more ->
  accept_one (loop_state port n w arr) = Throw e p' ->
  init (Proc (new port n) w) = Throw e p'.
Proof.
  intros Hlen Hb Hthrow.
  unfold init. unfold bind at 1. unfold get_this. cbn [this].
  unfold bind at 1. unfold listen, bind at 1, get_os. cbn [os].
  unfold bind at 1, modify_os, ret. cbn [this os fst].
  unfold bind at 1, modify_this. cbn [this os].
  replace (length (_sockets (new port n)) - 1)%nat
    with (length arr + S (n - 2 - length arr))%nat
    by (cbn; rewrite length_replicate; lia).
  rewrite seq_app. cbn [seq].
  unfold bind at 1. rewrite for_each_app. unfold bind at 1.
  rewrite (accept_loop_good arr (seq 1 (length arr)) _ _ (w_next_fd w) more).
  - cbn [for_each]. unfold bind at 1.
    match goal with
    | |- context [accept_one ?q] => change q with (loop_state port n w arr)
    end.
    rewrite Hthrow. reflexivity.
  - apply length_seq.
  - reflexivity.
  - cbn. set_solver.
  - cbn [_sockets set_sockets new]. apply list_lookup_total_insert_eq.
    rewrite length_replicate. lia.
  - exact Hb.
  - cbn [_sockets set_sockets new]. now rewrite length_insert, length_replicate.
  - cbn [_sockets set_sockets new]. now rewrite length_insert, length_replicate.
Qed.

(** The next turn of the loop stores the connection wherever the announced
    rank says, and throws only if that is outside the table. *)
Lemma loop_turn (a : arrival) rest :
  w_backlog (os (loop_state port n w arr))
  = (a_fd a, handshake (a_rank a) ++ a_extra a) :: rest ->
  Z.of_nat (a_rank a) < 2 ^ 32 ->
  accept_one (loop_state port n w arr)
  = sockets_at_put (a_rank a) (a_fd a)
      (Proc (this (loop_state port n w arr))
            (accept_world (w_next_fd w) (os (loop_state port n w arr)) a)).
Proof.
  intros Hb Hr.
  apply (accept_one_step _ _ (w_next_fd w) a rest).
  - apply loop_state_listening.
  - apply loop_state_listener_open.
  - apply list_lookup_total_correct, loop_state_slot0.
  - exact Hb.
  - exact Hr.
Qed.

End Loop.

Lemma w_backlog_foldl_accept lfd (arr : list arrival) w more :
  w_backlog w = backlog_of arr ++ more ->
  w_backlog (foldl (accept_world lfd) w arr) = more.
Proof.
  revert w. induction arr as [|a arr IH]; intros w Hb; [exact Hb|].
  cbn [foldl]. apply IH. rewrite w_backlog_accept, Hb. reflexivity.
Qed.

End RankFacts.

Lemma closes_joins lfd (arr : list Join.arrival) :
  closes (flat_map (Join.join_calls lfd) arr) = [].
Proof. induction arr as [|a arr IH]; [reflexivity | exact IH]. Qed.

(** C10.  Take [init] at the point where it has accepted some connections
    that announced ranks of workers, and let the next connection [a]
    announce any rank at all.  The rank is used as the index of the store
    into the table, with no check other than the bounds check of
    [vector::at]: (1) a rank >= WorldSize makes this turn, and with it
    [init], throw [out_of_range], the thread not being started; (2) any rank
    below WorldSize is accepted and the connection is stored in that slot;
    (3) for rank 0 that slot is the one holding the listening socket, which
    is overwritten; (4) for a rank that an earlier connection [b] had
    announced, the slot, which held [b]'s connection, now holds [a]'s, while
    [b]'s connection stays open and nothing is closed. *)
Theorem init_rank_unchecked
    (port : Z) (n : nat) (w : world) (arr : list Join.arrival)
    (a : Join.arrival) (more : list (Z * list byte)) :
  (1 <= n)%nat ->
  Z.of_nat n <= 2 ^ 32 ->
  Forall (fun b => (1 <= Join.a_rank b < n)%nat) arr ->
  (length arr < n - 1)%nat ->
  w_backlog w = Join.backlog_of (arr ++ [a]) ++ more ->
  Z.of_nat (Join.a_rank a) < 2 ^ 32 ->
  let p := Join.loop_state port n w arr in
  let w' := Join.accept_world (w_next_fd w) (os p) a in
  let rank := Join.a_rank a in
  ((n <= rank)%nat ->
     Master.accept_one p
     = Throw (out_of_range "vector::_M_range_check") (Proc (this p) w')
     /\ Master.init (Proc (Master.new port n) w)
        = Throw (out_of_range "vector::_M_range_check") (Proc (this p) w')
     /\ Master._started (this p) = false)
  /\ ((rank < n)%nat ->
        Master.accept_one p
        = Ret tt (Proc (Master.set_sockets <[rank := Join.a_fd a]> (this p)) w'))
  /\ (rank = 0%nat ->
        Master._sockets (this p) !! 0%nat = Some (w_next_fd w)
        /\ <[rank := Join.a_fd a]> (Master._sockets (this p)) !! 0%nat
           = Some (Join.a_fd a))
  /\ (forall b, b ∈ arr -> Join.a_rank b = rank -> NoDup (map Join.a_rank arr) ->
        Master._sockets (this p) !! rank = Some (Join.a_fd b)
        /\ <[rank := Join.a_fd a]> (Master._sockets (this p)) !! rank
           = Some (Join.a_fd a)
        /\ Join.a_fd b ∈ w_open w'
        /\ closes (w_log w') = closes (w_log w)).
Proof.
  intros Hn1 Hn2 Hgood Hlen Hb Hr p w' rank.
  assert (Hb' : w_backlog w
                = Join.backlog_of arr
                  ++ (Join.a_fd a, Join.handshake (Join.a_rank a) ++ Join.a_extra a)
                  :: more).
  { rewrite Hb. unfold Join.backlog_of. rewrite map_app, <- app_assoc. reflexivity. }
  assert (Hlen_p : length (Master._sockets (this p)) = n)
    by apply RankFacts.loop_state_length.
  assert (Hturn : Master.accept_one p
                  = Master.sockets_at_put rank (Join.a_fd a) (Proc (this p) w')).
  { apply (RankFacts.loop_turn port n w arr Hn1 Hn2 Hgood a more); [|exact Hr].
    cbn [os Join.loop_state]. apply RankFacts.w_backlog_foldl_accept.
    cbn [w_backlog log set_listening set_open]. exact Hb'. }
  split; [|split; [|split]].
  - intros Hbig.
    assert (Hthrow : Master.accept_one p
                     = Throw (out_of_range "vector::_M_range_check") (Proc (this p) w')).
    { rewrite Hturn. apply JoinFacts.sockets_at_put_out_of_range. lia. }
    split; [exact Hthrow|]. split; [|reflexivity].
    eapply RankFacts.init_reaches; eauto.
  - intros Hsmall. rewrite Hturn.
    apply JoinFacts.sockets_at_put_in_range. lia.
  - intros H0. split.
    + apply RankFacts.loop_state_slot0; assumption.
    + rewrite H0. apply list_lookup_insert_eq. lia.
  - intros b Hin Hrank Hnd.
    assert (Hbn : (1 <= Join.a_rank b < n)%nat).
    { rewrite Forall_forall in Hgood. now apply Hgood. }
    split; [|split; [|split]].
    + rewrite <- Hrank. subst p.
      cbn [this Join.loop_state Master._sockets Master.set_sockets].
      apply TableFacts.foldl_slot_at; [exact Hin | exact Hnd|].
      cbn. rewrite length_insert, length_replicate. lia.
    + apply list_lookup_insert_eq. lia.
    + subst w' p. rewrite JoinFacts.w_open_accept. apply elem_of_union_r.
      cbn [os Join.loop_state]. rewrite TableFacts.w_open_foldl_accept.
      apply elem_of_union_l, elem_of_list_to_set.
      apply (list_elem_of_fmap_2 Join.a_fd). exact Hin.
    + subst w' p. rewrite JoinFacts.w_log_accept, closes_app.
      cbn [os Join.loop_state]. rewrite TableFacts.w_log_foldl_accept, closes_app.
      rewrite closes_joins. cbn [w_log log set_listening set_open].
      rewrite closes_app. cbn. now rewrite !app_nil_r.
Qed.

Lemma init_rank_unchecked_witness :
  let p := Join.loop_state 29500 3 Demo.world3_twice [(5, 1%nat, [])] in
  Master._sockets (this p) = [4; 5; -1]
  /\ exists w',
       Master.accept_one p
       = Ret tt (Proc (Master.set_sockets <[1%nat := 6]> (this p)) w')
       /\ <[1%nat := 6]> (Master._sockets (this p)) = [4; 6; -1]
       /\ 5 ∈ w_open w'
       /\ closes (w_log w') = [].
Proof.
  intros p.
  assert (H1 : (1 <= 3)%nat) by lia.
  assert (H2 : Z.of_nat 3 <= 2 ^ 32) by (vm_compute; discriminate).
  assert (H3 : Forall (fun b => (1 <= Join.a_rank b < 3)%nat) [(5, 1%nat, [])])
    by (repeat constructor).
  assert (H4 : (length [(5, 1%nat, @nil byte)] < 3 - 1)%nat) by (cbn; lia).
  assert (H5 : w_backlog Demo.world3_twice
               = Join.backlog_of ([(5, 1%nat, [])] ++ [(6, 1%nat, [])]) ++ [])
    by reflexivity.
  assert (H6 : Z.of_nat (Join.a_rank (6, 1%nat, [])) < 2 ^ 32)
    by (vm_compute; reflexivity).
  destruct (init_rank_unchecked 29500 3 Demo.world3_twice [(5, 1%nat, [])]
              (6, 1%nat, []) [] H1 H2 H3 H4 H5 H6) as (_ & Hput & _ & Hdup).
  split; [reflexivity|]. eexists. split; [apply Hput; cbn; lia|].
  split; [reflexivity|].
  destruct (Hdup (5, 1%nat, [])) as (_ & _ & Ho & Hc).
  - left.
  - reflexivity.
  - cbn. apply NoDup_singleton.
  - split; [exact Ho | exact Hc].
Defined.

(** The same on whole runs of [init]: a connection announcing rank 9, or
    rank 0, with world size 3. *)
Example init_rank_too_large :
  exists p', Master.init (Proc (Master.new 29500 3) (Demo.world3_announcing 9))
             = Throw (out_of_range "vector::_M_range_check") p'
             /\ Master._sockets (this p') = [4; -1; -1]
             /\ Master._started (this p') = false.
Proof. eexists. split; [|split]; vm_compute; reflexivity. Qed.

Example init_rank_zero :
  exists p', Master.init (Proc (Master.new 29500 3) (Demo.world3_announcing 0))
             = Throw (system_error "accept") p'
             /\ Master._sockets (this p') = [5; -1; -1]
             /\ w_listening (os p') = Some 4.
Proof. eexists. split; [|split]; vm_compute; reflexivity. Qed.

(** ** Teardown *)

Module TeardownFacts.
Import Master Join Wake.

Lemma close_loop (l : list Z) (c : MasterCommandChannel) w :
  for_each l (fun socket => if negb (socket =? -1) then close socket else ret tt)
    (Proc c w)
  = Ret tt (Proc c (foldl (fun w fd => closed fd w) w (filter (fun fd => fd <> -1) l))).
Proof.
  revert w. induction l as [|fd l IH]; intros w; [reflexivity|].
  cbn [for_each]. unfold bind at 1.
  destruct (Z.eqb_spec fd (-1)) as [->|Hne]; cbn [negb].
  - unfold ret at 1. rewrite IH. rewrite filter_cons_False by (intros H; now apply H).
    reflexivity.
  - unfold close, modify_os. cbn [this os]. rewrite IH.
    rewrite filter_cons_True by exact Hne. reflexivity.
Qed.

Lemma w_log_foldl_closed (l : list Z) w :
  w_log (foldl (fun w fd => closed fd w) w l) = w_log w ++ map SysClose l.
Proof.
  revert w. induction l as [|fd l IH]; intros w; [simpl; now rewrite app_nil_r|].
  cbn [foldl map]. rewrite IH. cbn. now rewrite <- app_assoc.
Qed.

Lemma w_open_foldl_closed (l : list Z) w :
  w_open (foldl (fun w fd => closed fd w) w l) = w_open w ∖ list_to_set l.
Proof.
  revert w. induction l as [|fd l IH]; intros w; [cbn; set_solver|].
  cbn [foldl]. rewrite IH. cbn. set_solver.
Qed.

Lemma closes_map_close (l : list Z) : closes (map SysClose l) = l.
Proof.
  induction l as [|fd l IH]; [reflexivity|].
  cbn [map]. change (closes (SysClose fd :: map SysClose l))
               with (fd :: closes (map SysClose l)).
  now rewrite IH.
Qed.

Lemma closes_sends (f : nat -> Z) (idx : list nat) :
  closes (map (fun i => SysSend (f i) [x01]) idx) = [].
Proof. induction idx as [|i idx IH]; [reflexivity | exact IH]. Qed.

(** The exit signal as the destructor leaves it for a listener in its
    wait. *)
Lemma store_exiting_in_wait (p : Master.t) :
  in_wait p ->
  store_exiting p = Ret tt (Proc (set_exiting true (this p)) (os p)).
Proof.
  destruct p as [c w]. unfold in_wait, store_exiting. cbn [this os].
  intros [H|[H|H]]; rewrite H; [reflexivity| |];
    destruct (_started c); reflexivity.
Qed.

(** The destructor when there is no listener or the listener is in its
    wait: the exit signal, the join when the thread was started, then one
    close for every slot that holds a descriptor. *)
Lemma destroy_run fuel (p : Master.t) :
  in_wait p ->
  exists c' w1 n,
    destroy (S fuel) p
    = Ret tt (Proc c' (foldl (fun w fd => closed fd w) w1 (held (this p))))
    /\ _exiting c' = true
    /\ w_open w1 = w_open (os p)
    /\ w_log w1
       = w_log (os p)
         ++ (if _started (this p) then [SysPoll n 500; ThreadJoin] else []).
Proof.
  intros Hw. unfold destroy. unfold bind at 1. rewrite (store_exiting_in_wait p Hw).
  destruct p as [c w]. cbn [this os]. unfold bind at 1. unfold get_this. cbn [this].
  unfold bind at 1. cbn [_started set_exiting _sockets].
  destruct (_started c) eqn:Est.
  - unfold join. unfold bind at 1.
    destruct (WakeFacts.errorHandler_exit fuel (Proc (set_exiting true c) w))
      as (c' & w' & -> & He & _ & Hs & _ & Hq & n & Hl).
    { left. reflexivity. }
    unfold modify_os. cbn [this os]. unfold bind at 1, get_this. cbn [this].
    rewrite close_loop. cbn [this _sockets set_exiting] in Hs. rewrite Hs.
    exists c', (log ThreadJoin w'), n. split; [reflexivity|].
    split; [exact He|]. split; [apply Hq|].
    cbn [w_log log os] in *. rewrite Hl, <- app_assoc. reflexivity.
  - unfold ret at 1. unfold bind at 1, get_this. cbn [this]. rewrite close_loop.
    exists (set_exiting true c), w, 0%nat. split; [reflexivity|].
    split; [reflexivity|]. split; [reflexivity|]. cbn. now rewrite app_nil_r.
Qed.

Lemma held_not_closed (c : MasterCommandChannel) fd : fd ∈ held c -> fd <> -1.
Proof. unfold held. rewrite list_elem_of_filter. tauto. Qed.

(** Sending and listening keep the table and the process in agreement. *)
Lemma tidy_keeps (p p' : Master.t) :
  _sockets (this p') = _sockets (this p) -> quiet (os p) (os p') ->
  tidy p -> tidy p'.
Proof.
  intros Hs Hq [Hnd Ho]. unfold tidy, held in *. rewrite Hs.
  rewrite (quiet_closes _ _ Hq). split; [exact Hnd|].
  destruct Hq as (-> & _). exact Ho.
Qed.

Lemma exec_tidy a p p' :
  a <> Exec.Init -> Exec.exec a p = Some p' -> tidy p -> tidy p'.
Proof.
  destruct a as [|msg rank|fuel]; [congruence| |]; intros _ H; cbn [Exec.exec] in H.
  - pose proof (MasterFrames.sendMessage_preserves msg rank p) as Hk.
    apply ExecFacts.after_Some in H as [[a Ha]|[e He]];
      [rewrite Ha in Hk | rewrite He in Hk]; destruct Hk as [Ht Hq];
      apply tidy_keeps; try assumption; now rewrite Ht.
  - pose proof (ListenerTurn.errorHandler_body_cases fuel p) as Hk.
    apply ExecFacts.after_Some in H as [[go Ha]|[e He]].
    + rewrite Ha in Hk. destruct Hk as (error & p1 & _ & Hs & _ & _ & Hq & _).
      now apply tidy_keeps.
    + rewrite He in Hk. destruct Hk as [p1 Hr].
      pose proof (ListenerTurn.errorHandler_body_unfold fuel p) as Hu.
      rewrite He, Hr in Hu. inversion Hu; subst.
      pose proof (ListenerTurn.recvError_keeps fuel p) as Hkeep. rewrite Hr in Hkeep.
      destruct Hkeep as (Hs & _ & _ & _ & _ & Hq). now apply tidy_keeps.
Qed.

Lemma filter_keeps_all (l : list Z) :
  Forall (fun fd => fd <> -1) l -> filter (fun fd => fd <> -1) l = l.
Proof.
  induction 1 as [|fd l Hfd _ IH]; [reflexivity|].
  rewrite filter_cons_True by exact Hfd. now rewrite IH.
Qed.

(** A successful [init] on a fresh process establishes the agreement. *)
Lemma init_tidy port (n : nat) w conn extra (order : list nat) more p' :
  (1 <= n)%nat -> Z.of_nat n <= 2 ^ 32 ->
  order ≡ₚ seq 1 (n - 1) ->
  w_backlog w = backlog_of (workers conn extra order) ++ more ->
  (forall r, r ∈ order -> conn r ∉ w_hup w) ->
  w_open w = ∅ -> closes (w_log w) = [] ->
  NoDup (map conn order) ->
  (forall r, r ∈ order -> conn r <> -1 /\ conn r <> w_next_fd w) ->
  init (Proc (new port n) w) = Ret true p' ->
  tidy p'.
Proof.
  intros Hn1 Hn2 Hperm Hb Hup Hopen Hcl Hnd Hfd Hinit.
  destruct (InitFacts.init_result port n w conn extra order more Hn1 Hn2 Hperm Hb Hup)
    as (w' & Hinit' & Hlog & Ho & _).
  rewrite Hinit in Hinit'. inversion Hinit'; subst p'. clear Hinit'.
  assert (Hmem : forall fd, fd ∈ map conn (seq 1 (n - 1)) <-> fd ∈ map conn order).
  { intros fd. change (fd ∈ conn <$> seq 1 (n - 1) <-> fd ∈ conn <$> order).
    now rewrite Hperm. }
  assert (Hheld : held (Build 0 port (-1 :: map conn (seq 1 (n - 1)))
                          None false true None)
                  = map conn (seq 1 (n - 1))).
  { unfold held. cbn [_sockets].
    rewrite filter_cons_False by (intros H; now apply H).
    apply filter_keeps_all. apply Forall_forall. intros fd Hin.
    apply Hmem in Hin. change (fd ∈ conn <$> order) in Hin.
    apply list_elem_of_fmap in Hin as (r & -> & Hr). now apply Hfd. }
  unfold tidy. cbn [this os]. rewrite Hheld. split.
  - rewrite Hlog, !closes_app, Hcl, closes_joins, closes_sends. cbn.
    apply NoDup_cons. split.
    + intros Hin. apply Hmem in Hin. change (w_next_fd w ∈ conn <$> order) in Hin.
      apply list_elem_of_fmap in Hin as (r & Heq & Hr).
      destruct (Hfd r Hr) as [_ Hne]. congruence.
    + change (NoDup (conn <$> seq 1 (n - 1))). rewrite <- Hperm. exact Hnd.
  - intros fd. rewrite Ho, Hopen, Hmem, elem_of_difference, !elem_of_union,
      elem_of_list_to_set, elem_of_singleton.
    split.
    + intros [[H|[H|H]] Hne]; [exact H | contradiction | set_solver].
    + intros H. split; [now left|].
      change (fd ∈ conn <$> order) in H.
      apply list_elem_of_fmap in H as (r & -> & Hr). now apply Hfd.
Qed.

End TeardownFacts.

(** Between a successful [init] and the destructor, whatever is sent and
    however often the listener takes a turn, the agreement holds. *)
Lemma tidy_after_init port (n : nat) w conn extra (order : list nat) more p1
      (acts : list Exec.action) (j : nat) pj :
  (1 <= n)%nat -> Z.of_nat n <= 2 ^ 32 ->
  order ≡ₚ seq 1 (n - 1) ->
  w_backlog w = Join.backlog_of (Join.workers conn extra order) ++ more ->
  (forall r, r ∈ order -> conn r ∉ w_hup w) ->
  w_open w = ∅ -> closes (w_log w) = [] ->
  NoDup (map conn order) ->
  (forall r, r ∈ order -> conn r <> -1 /\ conn r <> w_next_fd w) ->
  Master.init (Proc (Master.new port n) w) = Ret true p1 ->
  Forall (fun a => a <> Exec.Init) acts ->
  Exec.trace acts p1 !! j = Some pj ->
  Join.tidy pj.
Proof.
  intros Hn1 Hn2 Hperm Hb Hup Hopen Hcl Hnd Hfd Hinit Hacts Hj.
  assert (Ht : Join.tidy p1) by (eapply TeardownFacts.init_tidy; eauto).
  clear Hinit. revert p1 j Ht Hj.
  induction acts as [|a acts IH]; intros p1 j Ht Hj.
  - destruct j; [|destruct j; discriminate]. cbn in Hj. now inversion Hj; subst.
  - destruct j as [|j]; [cbn in Hj; now inversion Hj; subst|].
    apply Forall_cons in Hacts as [Ha Hacts].
    cbn [Exec.trace] in Hj. destruct (Exec.exec a p1) as [p2|] eqn:E; [|discriminate].
    apply (IH Hacts p2 j); [|exact Hj].
    eapply TeardownFacts.exec_tidy; eauto.
Qed.

(** C7, as stated, fails at two inputs the channel can meet.  First, world
    size 3 where the first connection announces rank 9: [init] has accepted
    it on descriptor 5 when [_sockets.at(9)] throws; the destructor that
    follows closes the listening socket (descriptor 4), which is all the
    table holds, and returns with descriptor 5 still open and never passed
    to [::close].  Second, an initialised master whose listener, past its
    test of [_exiting] for this turn, is reading a report of which only a
    part has arrived from a worker that stays connected: the listener is
    blocked in that read, the join waits for it, and the destructor does
    not return, whatever bound is put on the listener's loop. *)
Theorem teardown_misses_connections :
  (exists p1 p2,
      Master.init (Proc (Master.new 29500 3) (Demo.world3_announcing 9))
      = Throw (out_of_range "vector::_M_range_check") p1
      /\ Master._started (this p1) = false
      /\ Master._sockets (this p1) = [4; -1; -1]
      /\ 5 ∈ w_open (os p1)
      /\ Master.destroy 1 p1 = Ret tt p2
      /\ closes (w_log (os p2)) = [4]
      /\ 5 ∈ w_open (os p2))
  /\ Master._started (this Demo.master3_reading) = true
  /\ ~ Wake.in_wait Demo.master3_reading
  /\ (forall fuel, Master.errorHandler (S fuel) Demo.master3_reading = Block)
  /\ (forall fuel, Master.destroy (S fuel) Demo.master3_reading = Block).
Proof.
  split; [|split; [|split; [|split]]].
  - eexists _, _. split; [vm_compute; reflexivity|].
    split; [reflexivity|]. split; [vm_compute; reflexivity|].
    split; [vm_compute; set_solver|]. split; [vm_compute; reflexivity|].
    split; [vm_compute; reflexivity | vm_compute; set_solver].
  - vm_compute. reflexivity.
  - intros [H|[H|H]]; vm_compute in H; discriminate.
  - intros fuel. vm_compute. reflexivity.
  - intros fuel. vm_compute. reflexivity.
Qed.

(* ===================================================================== *)
(** * Further properties of the channel *)
(* ===================================================================== *)

(** X1.  A report a worker hands to [sendError] comes out of the master's
    [recvError] with the worker's rank: when the first poll entry with events
    is plainly readable and what waits on its descriptor is what the
    worker's call wrote (followed by anything [later]), [recvError] returns
    that rank and that text, leaves [later] unread, reads from no other
    connection, changes neither the connection table nor the failure flag,
    and keeps polling that entry. *)
Theorem error_report_roundtrip
    (fuel : nat) (pw : Worker.t) (text : string)
    (c : Master.MasterCommandChannel) (w : world)
    (r : Z) (revs : list Z) (rest : list poll_result)
    (k : nat) (e : pollfd) (later : list byte) :
  usable (Worker._socket (this pw)) (os pw) = true ->
  Z.of_nat (String.length text) < 2 ^ 64 ->
  Master._exiting c = false -> w_exit_in w <> Some 0%nat ->
  w_polls w = PollReady r revs :: rest -> r <> 0 ->
  (k < length (Master._sockets c))%nat ->
  Wake.cache c !! k = Some e -> 0 <= fd e -> fd e ∈ w_open w ->
  revents_at revs k = POLLIN ->
  (forall (j : nat) ej, (j < k)%nat -> Wake.cache c !! j = Some ej ->
                        fd ej < 0 \/ revents_at revs j = 0) ->
  w_rx w !!! fd e
  = transmitted (Worker._socket (this pw)) pw (Worker.sendError text pw) ++ later ->
  exists p',
    Master.recvError (S fuel) (Proc c w) = Ret (k, text) p'
    /\ w_rx (os p') !!! fd e = later
    /\ (forall fd', fd' <> fd e -> w_rx (os p') !!! fd' = w_rx w !!! fd')
    /\ Master._sockets (this p') = Master._sockets c
    /\ Master._error (this p') = Master._error c
    /\ Master.poll_events (this p') !! k = Some (Pollfd (fd e) (events e) POLLIN).
Proof.
  intros Hu Hlen E Hx Hp Hr Hk He Hfd Ho Hrv Hfirst Hrx.
  rewrite sendError_is_sendMessage in Hrx.
  rewrite transmitted_sendMessage, <- app_assoc in Hrx
    by (rewrite ?ReadFacts.length_list_byte_of_string; assumption).
  pose proof (WireFacts.length_encode_uint Wire.sizeof_uint64
                (Z.of_nat (length (list_byte_of_string text)))) as Hh.
  eexists. split; [|split; [|split; [|split; [|split]]]].
  - rewrite (ReadFacts.recvError_frame fuel c w r revs rest k e _ _ later
               E Hx Hp Hr Hk He Hfd Ho Hrv Hfirst Hrx Hh).
    + now rewrite string_of_list_byte_of_string.
    + apply WireFacts.decode_encode_uint64.
      rewrite ReadFacts.length_list_byte_of_string. lia.
  - cbn [os]. rewrite !w_rx_consume, ScanFacts.w_rx_after_wake, Hrx.
    rewrite <- Hh at 1. rewrite drop_app_length. apply drop_app_length.
  - intros fd' Hne. cbn [os].
    rewrite !ReadFacts.w_rx_consume_other by exact Hne.
    now rewrite ScanFacts.w_rx_after_wake.
  - reflexivity.
  - reflexivity.
  - cbn [this]. rewrite ListenerTurn.poll_events_set.
    rewrite ScanFacts.woken_lookup, He. cbn. unfold report. cbn [fd set_revents].
    replace (fd e <? 0) with false by (symmetry; apply Z.ltb_ge; lia).
    rewrite Hrv. reflexivity.
Qed.

Lemma error_report_roundtrip_witness :
  w_rx (os Demo.master3) !!! 6
  = transmitted 3 (Demo.worker1 []) (Worker.sendError "boom" (Demo.worker1 [])) ++ []
  /\ exists p',
       Master.recvError 1 (Proc (this Demo.master3) (os Demo.master3))
       = Ret (1%nat, "boom"%string) p'
       /\ w_rx (os p') !!! 6 = []
       /\ Master.poll_events (this p') !! 1%nat = Some (Pollfd 6 POLLIN POLLIN).
Proof.
  assert (H1 : usable (Worker._socket (this (Demo.worker1 []))) (os (Demo.worker1 [])) = true)
    by (vm_compute; reflexivity).
  assert (H2 : Z.of_nat (String.length "boom") < 2 ^ 64) by (vm_compute; reflexivity).
  assert (H3 : Master._exiting (this Demo.master3) = false) by (vm_compute; reflexivity).
  assert (H4 : w_exit_in (os Demo.master3) <> Some 0%nat) by (vm_compute; discriminate).
  assert (H5 : w_polls (os Demo.master3) = PollReady 2 [0; POLLIN; 16] :: [])
    by (vm_compute; reflexivity).
  assert (H6 : (2 : Z) <> 0) by discriminate.
  assert (H7 : (1 < length (Master._sockets (this Demo.master3)))%nat)
    by (vm_compute; repeat constructor).
  assert (H8 : Wake.cache (this Demo.master3) !! 1%nat = Some (Pollfd 6 POLLIN 0))
    by (vm_compute; reflexivity).
  assert (H9 : 0 <= fd (Pollfd 6 POLLIN 0)) by (vm_compute; discriminate).
  assert (H10 : fd (Pollfd 6 POLLIN 0) ∈ w_open (os Demo.master3))
    by (vm_compute; set_solver).
  assert (H11 : revents_at [0; POLLIN; 16] 1%nat = POLLIN) by reflexivity.
  assert (H12 : forall (j : nat) ej, (j < 1)%nat ->
              Wake.cache (this Demo.master3) !! j = Some ej ->
              fd ej < 0 \/ revents_at [0; POLLIN; 16] j = 0).
  { intros j ej Hj _. right. destruct j as [|j]; [reflexivity | lia]. }
  assert (H13 : w_rx (os Demo.master3) !!! fd (Pollfd 6 POLLIN 0)
                = transmitted (Worker._socket (this (Demo.worker1 []))) (Demo.worker1 [])
                    (Worker.sendError "boom" (Demo.worker1 [])) ++ [])
    by (vm_compute; reflexivity).
  split; [exact H13|].
  destruct (error_report_roundtrip 0 (Demo.worker1 []) "boom"
              (this Demo.master3) (os Demo.master3) 2 [0; POLLIN; 16] [] 1
              (Pollfd 6 POLLIN 0) [] H1 H2 H3 H4 H5 H6 H7 H8 H9 H10 H11 H12 H13)
    as (p' & Hr & Hrx & _ & _ & _ & Hpe).
  exists p'. split; [exact Hr|]. split; [exact Hrx | exact Hpe].
Defined.

(** X2.  A failing [::poll] is reported under rank 0 with the prefix
    [poll: ] and the text of the exception, after that single call, with
    nothing read and no entry marked; this happens before [_exiting] is
    looked at.  When no exit was requested the listener latches that report,
    and from then on every [sendMessage] throws it. *)
Theorem poll_failure_is_latched
    (fuel : nat) (c : Master.MasterCommandChannel) (w : world)
    (msg : string) (rest : list poll_result) :
  w_polls w = PollFail msg :: rest ->
  exists p1,
    Master.recvError (S fuel) (Proc c w) = Ret (0%nat, "poll: " +:+ msg) p1
    /\ Master._sockets (this p1) = Master._sockets c
    /\ Master._error (this p1) = Master._error c
    /\ Master.poll_events (this p1) = Wake.armed c
    /\ w_rx (os p1) = w_rx w
    /\ w_log (os p1) = w_log w ++ [SysPoll (length (Wake.cache c)) 500]
    /\ (Master._exiting c = false -> w_exit_in w <> Some 0%nat ->
        exists p2,
          Master.errorHandler_body (S fuel) (Proc c w) = Ret true p2
          /\ Master._error (this p2) = Some ("error (rank 0): poll: " +:+ msg)
          /\ forall payload rank,
               Master.sendMessage payload rank p2
               = Throw (runtime_error ("error (rank 0): poll: " +:+ msg)) p2).
Proof.
  intros Hp.
  assert (Hr : Master.recvError (S fuel) (Proc c w)
               = Ret (0%nat, "poll: " +:+ msg)
                   (Proc (Master.set_poll_events (Some (Wake.armed c)) c)
                         (log (SysPoll (length (Wake.armed c)) 500) (set_polls rest w)))).
  { rewrite WakeFacts.recvError_arm. unfold bind at 1, try_catch.
    rewrite (WakeFacts.wait_loop_fail fuel _ w msg rest Hp).
    cbn [Master.poll_events Master.set_poll_events Master._poll_events].
    reflexivity. }
  eexists. split; [exact Hr|]. cbn [this os].
  split; [reflexivity|]. split; [reflexivity|].
  split; [apply ListenerTurn.poll_events_set|]. split; [reflexivity|].
  split; [cbn; unfold Wake.armed; now rewrite length_map|].
  intros E Hx.
  rewrite ListenerTurn.errorHandler_body_unfold, Hr.
  rewrite WakeFacts.load_exiting_not by assumption.
  eexists. split; [reflexivity|]. cbn [this].
  split; [reflexivity|].
  intros payload rank. reflexivity.
Qed.

Lemma poll_failure_is_latched_witness :
  exists p2,
    Master.errorHandler_body 1
      (Proc (this Demo.master3) (set_polls [PollFail "EINTR"] (os Demo.master3)))
    = Ret true p2
    /\ Master._error (this p2) = Some "error (rank 0): poll: EINTR"%string.
Proof.
  assert (H1 : w_polls (set_polls [PollFail "EINTR"] (os Demo.master3))
               = PollFail "EINTR" :: []) by reflexivity.
  assert (H2 : Master._exiting (this Demo.master3) = false) by (vm_compute; reflexivity).
  assert (H3 : w_exit_in (set_polls [PollFail "EINTR"] (os Demo.master3)) <> Some 0%nat)
    by (vm_compute; discriminate).
  destruct (poll_failure_is_latched 0 (this Demo.master3)
              (set_polls [PollFail "EINTR"] (os Demo.master3)) "EINTR" [] H1)
    as (p1 & _ & _ & _ & _ & _ & _ & Hlatch).
  destruct (Hlatch H2 H3) as (p2 & Hb & He & _).
  exists p2. split; [exact Hb | exact He].
Defined.

Module BrokenFacts.
Import Master Wake ListenerFrames ListenerTurn WakeFacts ScanFacts.

Lemma recv_bytes_hup {O} fd (n : Z) (p : proc O) :
  fd ∈ w_open (os p) -> fd ∈ w_hup (os p) ->
  Z.of_nat (length (w_rx (os p) !!! fd)) < n ->
  recv_bytes fd n p
  = Throw (system_error "recv") (Proc (this p) (set_rx <[fd := []]> (os p))).
Proof.
  intros Ho Hh Hn. destruct p as [c w]. simpl in *.
  unfold recv_bytes, bind, get_os, modify_os, throw.
  replace (n <=? 0) with false by (symmetry; apply Z.leb_gt; lia).
  simpl os. rewrite bool_decide_eq_true_2 by exact Ho.
  replace (n <=? Z.of_nat (length (w_rx w !!! fd))) with false
    by (symmetry; apply Z.leb_gt; lia).
  now rewrite bool_decide_eq_true_2 by exact Hh.
Qed.

Lemma w_hup_after_wake n w : w_hup (after_wake n w) = w_hup w.
Proof. unfold after_wake, tick. cbn. destruct (w_exit_in w) as [[|k]|]; reflexivity. Qed.

Lemma w_hup_consume fd n w : w_hup (consume fd n w) = w_hup w.
Proof. destruct n; reflexivity. Qed.

(** A frame that the peer left unfinished: fewer bytes than a length, or
    fewer bytes than the length announces. *)
Lemma receiveMessage_truncated {O} fd (p : proc O) :
  fd ∈ w_open (os p) -> fd ∈ w_hup (os p) ->
  (Z.of_nat (length (w_rx (os p) !!! fd)) < 8
   \/ exists hdr body,
        w_rx (os p) !!! fd = hdr ++ body /\ length hdr = 8%nat
        /\ Z.of_nat (length body) < Wire.decode_uint hdr) ->
  exists p', thd.receiveMessage fd p = Throw (system_error "recv") p'
             /\ this p' = this p /\ w_open (os p') = w_open (os p).
Proof.
  intros Ho Hh [Hshort|(hdr & body & Hrx & Hlen & Hbody)].
  - unfold thd.receiveMessage, recv_uint. unfold bind at 1. unfold bind at 1.
    rewrite recv_bytes_hup by assumption. eexists. split; [reflexivity|].
    split; reflexivity.
  - unfold thd.receiveMessage, recv_uint. unfold bind at 1. unfold bind at 1.
    change (Z.of_nat Wire.sizeof_uint64) with (Z.of_nat 8).
    rewrite recv_bytes_ready; [|exact Ho|rewrite Hrx, length_app; lia].
    unfold ret at 1. rewrite Hrx, <- Hlen, take_app_length. unfold bind at 1.
    rewrite recv_bytes_hup.
    + eexists. split; [reflexivity|]. cbn [this os].
      split; [reflexivity|]. cbn. now rewrite w_open_consume.
    + cbn [os]. now rewrite w_open_consume.
    + cbn [os]. now rewrite w_hup_consume.
    + cbn [os]. rewrite w_rx_consume, Hrx, drop_app_length. exact Hbody.
Qed.

(** The exception of a read of a readable entry is caught and reported;
    the entry is left as [::poll] reported it. *)
Lemma recvError_caught fuel c w r revs rest (k : nat) e ex q' :
  _exiting c = false -> w_exit_in w <> Some 0%nat ->
  w_polls w = PollReady r revs :: rest -> r <> 0 ->
  (k < length (_sockets c))%nat ->
  cache c !! k = Some e -> 0 <= fd e ->
  revents_at revs k = POLLIN ->
  (forall (j : nat) ej, (j < k)%nat -> cache c !! j = Some ej ->
                        fd ej < 0 \/ revents_at revs j = 0) ->
  thd.receiveMessage (fd e)
    (Proc (set_poll_events (Some (woken c revs)) c) (after_wake (length (armed c)) w))
  = Throw ex q' ->
  this q' = set_poll_events (Some (woken c revs)) c ->
  recvError (S fuel) (Proc c w) = Ret (k, "recv: " +:+ what ex) q'
  /\ poll_events (this q') !! k = Some (Pollfd (fd e) (events e) POLLIN)
  /\ ~ Exec.ignored k q'
  /\ _sockets (this q') = _sockets c
  /\ _error (this q') = _error c.
Proof.
  intros E Hx Hp Hr Hk He Hfd Hrv Hfirst Hthrow Ht.
  rewrite (ReadFacts.recvError_readable fuel c w r revs rest k e) by assumption.
  unfold try_catch. rewrite receive_error_is_receiveMessage. unfold bind.
  rewrite Hthrow. split; [reflexivity|].
  assert (Hpe : poll_events (this q') !! k = Some (Pollfd (fd e) (events e) POLLIN)).
  { rewrite Ht, poll_events_set, woken_lookup, He.
    cbn. unfold report. cbn [fd set_revents].
    replace (fd e <? 0) with false by (symmetry; apply Z.ltb_ge; lia).
    now rewrite Hrv. }
  split; [exact Hpe|]. split.
  { intros (pe & e' & Hc & Hl & Hm). unfold poll_events in Hpe.
    rewrite Hc, Hl in Hpe. inversion Hpe; subst e'. cbn in Hm. lia. }
  rewrite Ht. split; reflexivity.
Qed.

End BrokenFacts.

(** X3.  When the first poll entry with events is plainly readable but the
    peer has gone away before the eight bytes of a length arrived, the
    exception of the first read (which comes before the buffer for the text
    is made) is caught: [recvError] returns that rank with a text that
    starts with [recv: ].  Unlike after a reported hang-up the entry is not
    marked: it keeps its descriptor and is polled again; the descriptor is
    not closed and the connection table is as before. *)
Theorem recv_failure_is_reported
    (fuel : nat) (c : Master.MasterCommandChannel) (w : world)
    (r : Z) (revs : list Z) (rest : list poll_result) (k : nat) (e : pollfd) :
  Master._exiting c = false -> w_exit_in w <> Some 0%nat ->
  w_polls w = PollReady r revs :: rest -> r <> 0 ->
  (k < length (Master._sockets c))%nat ->
  Wake.cache c !! k = Some e -> 0 <= fd e ->
  revents_at revs k = POLLIN ->
  (forall (j : nat) ej, (j < k)%nat -> Wake.cache c !! j = Some ej ->
                        fd ej < 0 \/ revents_at revs j = 0) ->
  fd e ∈ w_open w -> fd e ∈ w_hup w ->
  Z.of_nat (length (w_rx w !!! fd e)) < 8 ->
  exists ex p',
    Master.recvError (S fuel) (Proc c w) = Ret (k, "recv: " +:+ what ex) p'
    /\ Master.poll_events (this p') !! k = Some (Pollfd (fd e) (events e) POLLIN)
    /\ ~ Exec.ignored k p'
    /\ Master._sockets (this p') = Master._sockets c
    /\ Master._error (this p') = Master._error c
    /\ fd e ∈ w_open (os p').
Proof.
  intros E Hx Hp Hr Hk He Hfd Hrv Hfirst Ho Hh Htrunc.
  match goal with |- context [Master.recvError _ (Proc ?c0 ?w0)] =>
    destruct (BrokenFacts.receiveMessage_truncated (fd e)
                (Proc (Master.set_poll_events (Some (Wake.woken c0 revs)) c0)
                      (Wake.after_wake (length (Wake.armed c0)) w0)))
      as (p' & Hthrow & Ht & Hop)
  end.
  - cbn [os]. now rewrite ScanFacts.w_open_after_wake.
  - cbn [os]. now rewrite BrokenFacts.w_hup_after_wake.
  - cbn [os]. rewrite ScanFacts.w_rx_after_wake. left. exact Htrunc.
  - destruct (BrokenFacts.recvError_caught fuel c w r revs rest k e _ p'
                E Hx Hp Hr Hk He Hfd Hrv Hfirst Hthrow Ht)
      as (Hret & Hpe & Hni & Hs & Herr).
    exists (system_error "recv"), p'. split; [exact Hret|].
    split; [exact Hpe|]. split; [exact Hni|]. split; [exact Hs|].
    split; [exact Herr|].
    cbn [os] in Hop. rewrite Hop, ScanFacts.w_open_after_wake. exact Ho.
Qed.

Lemma recv_failure_is_reported_witness :
  exists ex p',
    Master.recvError 1 (Proc (this Demo.master3_cut) (os Demo.master3_cut))
    = Ret (1%nat, "recv: " +:+ what ex) p'
    /\ ~ Exec.ignored 1 p'.
Proof.
  assert (H1 : Master._exiting (this Demo.master3_cut) = false)
    by (vm_compute; reflexivity).
  assert (H2 : w_exit_in (os Demo.master3_cut) <> Some 0%nat)
    by (vm_compute; discriminate).
  assert (H3 : w_polls (os Demo.master3_cut) = PollReady 1 [0; POLLIN; 0] :: [])
    by (vm_compute; reflexivity).
  assert (H4 : (1 : Z) <> 0) by discriminate.
  assert (H5 : (1 < length (Master._sockets (this Demo.master3_cut)))%nat)
    by (vm_compute; repeat constructor).
  assert (H6 : Wake.cache (this Demo.master3_cut) !! 1%nat = Some (Pollfd 6 POLLIN 0))
    by (vm_compute; reflexivity).
  assert (H7 : 0 <= fd (Pollfd 6 POLLIN 0)) by (vm_compute; discriminate).
  assert (H8 : revents_at [0; POLLIN; 0] 1%nat = POLLIN) by reflexivity.
  assert (H9 : forall (j : nat) ej, (j < 1)%nat ->
              Wake.cache (this Demo.master3_cut) !! j = Some ej ->
              fd ej < 0 \/ revents_at [0; POLLIN; 0] j = 0).
  { intros j ej Hj _. right. destruct j as [|j]; [reflexivity | lia]. }
  assert (H10 : fd (Pollfd 6 POLLIN 0) ∈ w_open (os Demo.master3_cut))
    by (vm_compute; set_solver).
  assert (H11 : fd (Pollfd 6 POLLIN 0) ∈ w_hup (os Demo.master3_cut))
    by (vm_compute; set_solver).
  assert (H12 : Z.of_nat (length (w_rx (os Demo.master3_cut) !!! fd (Pollfd 6 POLLIN 0))) < 8)
    by (vm_compute; reflexivity).
  destruct (recv_failure_is_reported 0 (this Demo.master3_cut)
              (os Demo.master3_cut) 1 [0; POLLIN; 0] [] 1 (Pollfd 6 POLLIN 0)
              H1 H2 H3 H4 H5 H6 H7 H8 H9 H10 H11 H12)
    as (ex & p' & Hr & _ & Hni & _).
  exists ex, p'. split; [exact Hr | exact Hni].
Defined.

(** X21.  The same when the length arrived and the peer went away before
    all the bytes it announces: provided the bytes that did arrive fit the
    buffer [new char[error_length + 1]] (they always do unless that size has
    wrapped to 0), the exception of the second read is caught and
    [recvError] returns that rank with a text that starts with [recv: ]; the
    entry is not marked, the descriptor is not closed and the connection
    table is as before. *)
Theorem cut_report_is_reported
    (fuel : nat) (c : Master.MasterCommandChannel) (w : world)
    (r : Z) (revs : list Z) (rest : list poll_result) (k : nat) (e : pollfd)
    (hdr body : list byte) :
  Master._exiting c = false -> w_exit_in w <> Some 0%nat ->
  w_polls w = PollReady r revs :: rest -> r <> 0 ->
  (k < length (Master._sockets c))%nat ->
  Wake.cache c !! k = Some e -> 0 <= fd e ->
  revents_at revs k = POLLIN ->
  (forall (j : nat) ej, (j < k)%nat -> Wake.cache c !! j = Some ej ->
                        fd ej < 0 \/ revents_at revs j = 0) ->
  fd e ∈ w_open w -> fd e ∈ w_hup w ->
  w_rx w !!! fd e = hdr ++ body -> length hdr = 8%nat ->
  Z.of_nat (length body) < Wire.decode_uint hdr ->
  Z.of_nat (length body) <= Master.error_buffer (Wire.decode_uint hdr) ->
  exists ex p',
    Master.recvError (S fuel) (Proc c w) = Ret (k, "recv: " +:+ what ex) p'
    /\ Master.poll_events (this p') !! k = Some (Pollfd (fd e) (events e) POLLIN)
    /\ ~ Exec.ignored k p'
    /\ Master._sockets (this p') = Master._sockets c
    /\ Master._error (this p') = Master._error c
    /\ fd e ∈ w_open (os p').
Proof.
  intros E Hx Hp Hr Hk He Hfd Hrv Hfirst Ho Hh Hrx Hlen Hcut _.
  match goal with |- context [Master.recvError _ (Proc ?c0 ?w0)] =>
    destruct (BrokenFacts.receiveMessage_truncated (fd e)
                (Proc (Master.set_poll_events (Some (Wake.woken c0 revs)) c0)
                      (Wake.after_wake (length (Wake.armed c0)) w0)))
      as (p' & Hthrow & Ht & Hop)
  end.
  - cbn [os]. now rewrite ScanFacts.w_open_after_wake.
  - cbn [os]. now rewrite BrokenFacts.w_hup_after_wake.
  - cbn [os]. rewrite ScanFacts.w_rx_after_wake. right. eauto.
  - destruct (BrokenFacts.recvError_caught fuel c w r revs rest k e _ p'
                E Hx Hp Hr Hk He Hfd Hrv Hfirst Hthrow Ht)
      as (Hret & Hpe & Hni & Hs & Herr).
    exists (system_error "recv"), p'. split; [exact Hret|].
    split; [exact Hpe|]. split; [exact Hni|]. split; [exact Hs|].
    split; [exact Herr|].
    cbn [os] in Hop. rewrite Hop, ScanFacts.w_open_after_wake. exact Ho.
Qed.

Lemma cut_report_is_reported_witness :
  exists ex p',
    Master.recvError 1 (Proc (this Demo.master3_cut_body) (os Demo.master3_cut_body))
    = Ret (1%nat, "recv: " +:+ what ex) p'
    /\ ~ Exec.ignored 1 p'.
Proof.
  set (p := Demo.master3_cut_body).
  assert (H1 : Master._exiting (this p) = false) by (vm_compute; reflexivity).
  assert (H2 : w_exit_in (os p) <> Some 0%nat) by (vm_compute; discriminate).
  assert (H3 : w_polls (os p) = PollReady 1 [0; POLLIN; 0] :: [])
    by (vm_compute; reflexivity).
  assert (H4 : (1 : Z) <> 0) by discriminate.
  assert (H5 : (1 < length (Master._sockets (this p)))%nat)
    by (vm_compute; repeat constructor).
  assert (H6 : Wake.cache (this p) !! 1%nat = Some (Pollfd 6 POLLIN 0))
    by (vm_compute; reflexivity).
  assert (H7 : 0 <= fd (Pollfd 6 POLLIN 0)) by (vm_compute; discriminate).
  assert (H8 : revents_at [0; POLLIN; 0] 1%nat = POLLIN) by reflexivity.
  assert (H9 : forall (j : nat) ej, (j < 1)%nat ->
              Wake.cache (this p) !! j = Some ej ->
              fd ej < 0 \/ revents_at [0; POLLIN; 0] j = 0).
  { intros j ej Hj _. right. destruct j as [|j]; [reflexivity | lia]. }
  assert (H10 : fd (Pollfd 6 POLLIN 0) ∈ w_open (os p)) by (vm_compute; set_solver).
  assert (H11 : fd (Pollfd 6 POLLIN 0) ∈ w_hup (os p)) by (vm_compute; set_solver).
  assert (H12 : w_rx (os p) !!! fd (Pollfd 6 POLLIN 0)
                = Wire.encode_uint 8 4 ++ [x62; x6f]) by (vm_compute; reflexivity).
  assert (H13 : length (Wire.encode_uint 8 4) = 8%nat) by reflexivity.
  assert (H14 : Z.of_nat (length [x62; x6f]) < Wire.decode_uint (Wire.encode_uint 8 4))
    by (vm_compute; reflexivity).
  assert (H15 : Z.of_nat (length [x62; x6f])
                <= Master.error_buffer (Wire.decode_uint (Wire.encode_uint 8 4)))
    by (vm_compute; discriminate).
  destruct (cut_report_is_reported 0 (this p) (os p) 1 [0; POLLIN; 0] [] 1
              (Pollfd 6 POLLIN 0) (Wire.encode_uint 8 4) [x62; x6f]
              H1 H2 H3 H4 H5 H6 H7 H8 H9 H10 H11 H12 H13 H14 H15)
    as (ex & p' & Hr & _ & Hni & _).
  exists ex, p'. split; [exact Hr | exact Hni].
Defined.

(** X4.  [errorHandler] looks at [_exiting] once more after [recvError] has
    returned.  A report that [recvError] has already taken off the
    connection when the destructor's store becomes visible is dropped: the
    listener returns without latching it, so the failure flag is as it was
    and the bytes of the report are gone. *)
Theorem report_dropped_at_exit
    (fuel : nat) (p p1 : Master.t) (report : nat * string) :
  Master.recvError (S fuel) p = Ret report p1 ->
  Wake.exit_requested p1 ->
  exists c',
    Master.errorHandler (S fuel) p = Ret tt (Proc c' (os p1))
    /\ Master._error c' = Master._error (this p)
    /\ Master._sockets c' = Master._sockets (this p)
    /\ Master._exiting c' = true.
Proof.
  intros Hr Hx. cbn [Master.errorHandler]. unfold bind at 1.
  rewrite ListenerTurn.errorHandler_body_unfold, Hr.
  destruct (WakeFacts.load_exiting_requested p1 Hx) as (c' & -> & He & Herr & Hs & _).
  pose proof (ListenerTurn.recvError_keeps (S fuel) p) as Hk. rewrite Hr in Hk.
  destruct Hk as (Hs1 & Herr1 & _).
  exists c'. split; [reflexivity|]. split; [congruence|]. split; [congruence | exact He].
Qed.

Lemma report_dropped_at_exit_witness :
  exists p1 c',
    Master.recvError 1 Demo.master3_leaving = Ret (1%nat, "boom"%string) p1
    /\ w_rx (os p1) !!! 6 = []
    /\ Master.errorHandler 1 Demo.master3_leaving = Ret tt (Proc c' (os p1))
    /\ Master._error c' = None.
Proof.
  assert (Hr : exists p1,
             Master.recvError 1 Demo.master3_leaving = Ret (1%nat, "boom"%string) p1
             /\ Wake.exit_requested p1 /\ w_rx (os p1) !!! 6 = []).
  { vm_compute. eexists. split; [reflexivity|]. split; [right; reflexivity | reflexivity]. }
  destruct Hr as (p1 & Hr & Hx & Hrx).
  destruct (report_dropped_at_exit 0 Demo.master3_leaving p1 (1%nat, "boom"%string)
              Hr Hx) as (c' & Hh & He & _).
  exists p1, c'. split; [exact Hr|]. split; [exact Hrx|]. split; [exact Hh|].
  rewrite He. vm_compute. reflexivity.
Defined.

(** ** What the listener never does *)

Module NoThrow.
Import Master.

Section Rules.
Context {S : Type}.

Lemma no_throw_ret {A} (a : A) : no_throw (@ret S A a).
Proof. intros s e s'. discriminate. Qed.

Lemma no_throw_bind {A B} (m : M S A) (k : A -> M S B) :
  no_throw m -> (forall a, no_throw (k a)) -> no_throw (bind m k).
Proof.
  intros Hm Hk s e s'. unfold bind.
  destruct (m s) as [a s1|e1 s1| |] eqn:E; try discriminate.
  - apply Hk.
  - exfalso. exact (Hm s e1 s1 E).
Qed.

Lemma no_throw_catch {A} (m : M S A) (h : exn -> M S A) :
  (forall e, no_throw (h e)) -> no_throw (try_catch m h).
Proof.
  intros Hh s e s'. unfold try_catch.
  destruct (m s) as [a s1|e1 s1| |]; try discriminate. apply Hh.
Qed.

Lemma no_throw_fuel {A} : no_throw (fun _ : S => @Fuel S A).
Proof. intros s e s'. discriminate. Qed.

End Rules.

Lemma no_throw_get_this {O} : no_throw (@get_this O).
Proof. intros s e s'. discriminate. Qed.

Lemma no_throw_modify_this {O} (f : O -> O) : no_throw (modify_this f).
Proof. intros s e s'. discriminate. Qed.

Lemma no_throw_load_exiting : no_throw load_exiting.
Proof.
  intros [c w] e s'. unfold load_exiting. cbn [this os].
  destruct (_exiting c); [discriminate|].
  destruct (w_exit_in w) as [[|k]|]; discriminate.
Qed.

Lemma no_throw_scan (ranks : list nat) : no_throw (scan ranks).
Proof.
  induction ranks as [|rank ranks IH]; [apply no_throw_ret|].
  cbn [scan]. apply no_throw_bind; [apply no_throw_get_this|]. intros c.
  destruct (revents (poll_events c !!! rank) =? 0); [exact IH|].
  destruct (negb _).
  - apply no_throw_bind; [apply no_throw_modify_this|]. intros _. apply no_throw_ret.
  - apply no_throw_catch. intros e. apply no_throw_ret.
Qed.

Lemma no_throw_recvError fuel : no_throw (recvError fuel).
Proof.
  unfold recvError. apply no_throw_bind; [apply no_throw_get_this|]. intros c.
  apply no_throw_bind.
  { destruct (_poll_events c); [apply no_throw_ret | apply no_throw_modify_this]. }
  intros _. apply no_throw_bind; [apply no_throw_modify_this|]. intros _.
  apply no_throw_bind.
  { apply no_throw_catch. intros e. apply no_throw_ret. }
  intros [r|]; [apply no_throw_ret | apply no_throw_scan].
Qed.

Lemma no_throw_errorHandler_body fuel : no_throw (errorHandler_body fuel).
Proof.
  unfold errorHandler_body. apply no_throw_bind; [apply no_throw_recvError|].
  intros error. apply no_throw_bind; [apply no_throw_load_exiting|].
  intros [|]; [apply no_throw_ret|].
  apply no_throw_bind; [apply no_throw_modify_this|]. intros _. apply no_throw_ret.
Qed.

Lemma no_throw_errorHandler fuel : no_throw (errorHandler fuel).
Proof.
  induction fuel as [|fuel IH]; [apply no_throw_fuel|].
  cbn [errorHandler]. apply no_throw_bind; [apply no_throw_errorHandler_body|].
  intros [|]; [exact IH | apply no_throw_ret].
Qed.

End NoThrow.

(** X5.  No exception leaves the listener: whatever [::poll] and the reads
    do, [recvError] catches it and turns it into a report, so neither
    [recvError] nor [errorHandler] (the body of the thread) ever ends by
    throwing, and the join in the destructor does not either. *)
Theorem listener_never_throws (fuel : nat) (p : Master.t) (e : exn) (p' : Master.t) :
  Master.recvError fuel p <> Throw e p'
  /\ Master.errorHandler fuel p <> Throw e p'
  /\ Master.join fuel p <> Throw e p'.
Proof.
  split; [apply NoThrow.no_throw_recvError|].
  split; [apply NoThrow.no_throw_errorHandler|].
  unfold Master.join. apply NoThrow.no_throw_bind.
  - apply NoThrow.no_throw_errorHandler.
  - intros _ s e' s'. discriminate.
Qed.

Module HearFacts.
Import Master.

Lemma hears_refl w : hears w w.
Proof. split; [reflexivity|]. exists []. split; [now rewrite app_nil_r | constructor]. Qed.

Lemma hears_trans w1 w2 w3 : hears w1 w2 -> hears w2 w3 -> hears w1 w3.
Proof.
  intros (Ho & evs & Hl & Hf) (Ho' & evs' & Hl' & Hf').
  split; [congruence|]. exists (evs ++ evs'). split.
  - now rewrite Hl', Hl, app_assoc.
  - now apply Forall_app.
Qed.

Lemma heard_refl p : heard p p.
Proof. apply hears_refl. Qed.

Lemma heard_trans p1 p2 p3 : heard p1 p2 -> heard p2 p3 -> heard p1 p3.
Proof. apply hears_trans. Qed.

Lemma hears_log e w : listens e -> hears w (log e w).
Proof.
  intros He. split; [reflexivity|]. exists [e]. split; [reflexivity|].
  constructor; [exact He | constructor].
Qed.

Lemma get_this_heard : preserves heard (@get_this MasterCommandChannel).
Proof. intros p. apply heard_refl. Qed.

Lemma modify_this_heard f : preserves heard (@modify_this MasterCommandChannel f).
Proof. intros p. apply hears_refl. Qed.

Lemma load_exiting_heard : preserves heard load_exiting.
Proof.
  intros [c w]. unfold load_exiting. cbn [this os].
  destruct (_exiting c); [apply hears_refl|].
  destruct (w_exit_in w) as [[|k]|]; try apply hears_refl.
  split; [reflexivity|]. exists []. split; [cbn; now rewrite app_nil_r | constructor].
Qed.

Lemma poll_heard fds : preserves heard (@poll MasterCommandChannel fds 500).
Proof.
  intros [c w]. unfold poll, bind, get_os, modify_os. cbn [this os].
  assert (H : hears w (log (SysPoll (length fds) 500) (set_polls (tail (w_polls w)) w))).
  { split; [reflexivity|]. exists [SysPoll (length fds) 500].
    split; [reflexivity|]. constructor; [reflexivity | constructor]. }
  destruct (w_polls w) as [|[msg|r revs] rest]; exact H.
Qed.

Lemma recv_bytes_heard fd n : preserves heard (@recv_bytes MasterCommandChannel fd n).
Proof.
  intros [c w]. unfold recv_bytes.
  destruct (n <=? 0); [apply heard_refl|].
  unfold bind, get_os, modify_os, ret, throw, block. cbn [this os].
  destruct (bool_decide (fd ∈ w_open w)); [|apply heard_refl].
  destruct (n <=? Z.of_nat (length (w_rx w !!! fd))).
  - split; [reflexivity|]. eexists [_]. split; [reflexivity|].
    constructor; [exact I | constructor].
  - destruct (bool_decide (fd ∈ w_hup w)); [|exact I].
    split; [reflexivity|]. exists []. split; [cbn; now rewrite app_nil_r | constructor].
Qed.

Lemma receive_error_heard rank socket : preserves heard (receive_error rank socket).
Proof.
  unfold receive_error, recv_uint.
  apply preserves_bind; [apply heard_trans| |].
  - apply preserves_bind; [apply heard_trans|apply recv_bytes_heard|].
    intros bs. apply preserves_ret, heard_refl.
  - intros n. apply preserves_bind; [apply heard_trans|apply recv_bytes_heard|].
    intros bs. apply preserves_ret, heard_refl.
Qed.

Lemma scan_heard ranks : preserves heard (scan ranks).
Proof.
  induction ranks as [|rank ranks IH]; [apply preserves_ret, heard_refl|].
  cbn [scan]. apply preserves_bind; [apply heard_trans|apply get_this_heard|]. intros c.
  destruct (revents (poll_events c !!! rank) =? 0); [exact IH|].
  destruct (negb _).
  - apply preserves_bind; [apply heard_trans|apply modify_this_heard|].
    intros _. apply preserves_ret, heard_refl.
  - apply preserves_try_catch; [apply heard_trans|apply receive_error_heard|].
    intros e. apply preserves_ret, heard_refl.
Qed.

Lemma wait_loop_heard fuel : preserves heard (wait_loop fuel).
Proof.
  induction fuel as [|fuel IH]; [apply preserves_fuel|].
  cbn [wait_loop]. apply preserves_bind; [apply heard_trans|apply get_this_heard|]. intros c.
  apply preserves_bind; [apply heard_trans|apply poll_heard|]. intros r.
  apply preserves_bind; [apply heard_trans|apply modify_this_heard|]. intros _.
  apply preserves_bind; [apply heard_trans|apply load_exiting_heard|]. intros [|].
  - apply preserves_ret, heard_refl.
  - destruct (fst r =? 0); [exact IH | apply preserves_ret, heard_refl].
Qed.

Lemma recvError_heard fuel : preserves heard (recvError fuel).
Proof.
  unfold recvError. apply preserves_bind; [apply heard_trans|apply get_this_heard|]. intros c.
  apply preserves_bind; [apply heard_trans| |].
  { destruct (_poll_events c); [apply preserves_ret, heard_refl | apply modify_this_heard]. }
  intros _. apply preserves_bind; [apply heard_trans|apply modify_this_heard|]. intros _.
  apply preserves_bind; [apply heard_trans| |].
  { apply preserves_try_catch; [apply heard_trans|apply wait_loop_heard|].
    intros e. apply preserves_ret, heard_refl. }
  intros [r|]; [apply preserves_ret, heard_refl | apply scan_heard].
Qed.

Lemma errorHandler_body_heard fuel : preserves heard (errorHandler_body fuel).
Proof.
  unfold errorHandler_body. apply preserves_bind; [apply heard_trans|apply recvError_heard|].
  intros error. apply preserves_bind; [apply heard_trans|apply load_exiting_heard|].
  intros [|]; [apply preserves_ret, heard_refl|].
  apply preserves_bind; [apply heard_trans|apply modify_this_heard|].
  intros _. apply preserves_ret, heard_refl.
Qed.

Lemma errorHandler_heard fuel : preserves heard (errorHandler fuel).
Proof.
  induction fuel as [|fuel IH]; [apply preserves_fuel|].
  cbn [errorHandler]. apply preserves_bind; [apply heard_trans|apply errorHandler_body_heard|].
  intros [|]; [exact IH | apply preserves_ret, heard_refl].
Qed.

Lemma listens_sent fd evs : Forall listens evs -> sent fd evs = [].
Proof.
  induction 1 as [|e evs He _ IH]; [reflexivity|].
  destruct e; try contradiction; exact IH.
Qed.

Lemma listens_closes evs : Forall listens evs -> closes evs = [].
Proof.
  induction 1 as [|e evs He _ IH]; [reflexivity|].
  destruct e; try contradiction; exact IH.
Qed.

End HearFacts.

(** X6.  The listener only waits and reads.  Whatever a call of
    [recvError] or the whole of [errorHandler] did when it returns, the
    system calls it added are [::poll] with the timeout 500 and reads: it
    wrote nothing on any connection, closed nothing, and the set of open
    descriptors is as before. *)
Theorem listener_only_waits_and_reads (fuel : nat) (p : Master.t) :
  (forall report p', Master.recvError fuel p = Ret report p' ->
     heard p p'
     /\ (forall fd, sent fd (w_log (os p')) = sent fd (w_log (os p)))
     /\ closes (w_log (os p')) = closes (w_log (os p)))
  /\ (forall p', Master.errorHandler fuel p = Ret tt p' ->
        heard p p'
        /\ (forall fd, sent fd (w_log (os p')) = sent fd (w_log (os p)))
        /\ closes (w_log (os p')) = closes (w_log (os p))).
Proof.
  assert (Hgen : forall p', heard p p' ->
            heard p p'
            /\ (forall fd, sent fd (w_log (os p')) = sent fd (w_log (os p)))
            /\ closes (w_log (os p')) = closes (w_log (os p))).
  { intros p' H. split; [exact H|]. destruct H as (_ & evs & Hl & Hf). split.
    - intros fd. rewrite Hl, sent_app, (HearFacts.listens_sent fd evs Hf).
      now rewrite app_nil_r.
    - rewrite Hl, closes_app, (HearFacts.listens_closes evs Hf). now rewrite app_nil_r. }
  split.
  - intros report p' H. apply Hgen.
    pose proof (HearFacts.recvError_heard fuel p) as Hk. now rewrite H in Hk.
  - intros p' H. apply Hgen.
    pose proof (HearFacts.errorHandler_heard fuel p) as Hk. now rewrite H in Hk.
Qed.

Lemma listener_only_waits_and_reads_witness :
  exists p',
    Master.recvError 1 Demo.master3 = Ret (1%nat, "boom"%string) p'
    /\ heard Demo.master3 p'
    /\ closes (w_log (os p')) = closes (w_log (os Demo.master3)).
Proof.
  assert (Hr : exists p', Master.recvError 1 Demo.master3 = Ret (1%nat, "boom"%string) p')
    by (vm_compute; eexists; reflexivity).
  destruct Hr as (p' & Hr).
  destruct (proj1 (listener_only_waits_and_reads 1 Demo.master3) _ p' Hr) as (Hh & _ & Hc).
  exists p'. split; [exact Hr|]. split; [exact Hh | exact Hc].
Defined.

(** ** What [sendMessage] touches *)

Section WriteFacts.
Context {O : Type}.
Implicit Types (p : proc O) (fd : Z).

Lemma wrote_on_refl fd w : wrote_on fd w w.
Proof.
  split; [reflexivity|]. split; [reflexivity|]. split; [reflexivity|].
  exists []. split; [now rewrite app_nil_r | constructor].
Qed.

Lemma wrote_on_trans fd w1 w2 w3 :
  wrote_on fd w1 w2 -> wrote_on fd w2 w3 -> wrote_on fd w1 w3.
Proof.
  intros (Ho & Hr & Hp & evs & Hl & Hf) (Ho' & Hr' & Hp' & evs' & Hl' & Hf').
  split; [congruence|]. split; [congruence|]. split; [congruence|].
  exists (evs ++ evs'). split.
  - now rewrite Hl', Hl, app_assoc.
  - now apply Forall_app.
Qed.

Lemma only_wrote_refl fd p : only_wrote fd p p.
Proof. split; [reflexivity | apply wrote_on_refl]. Qed.

Lemma only_wrote_trans fd p1 p2 p3 :
  only_wrote fd p1 p2 -> only_wrote fd p2 p3 -> only_wrote fd p1 p3.
Proof.
  intros [Ht Hw] [Ht' Hw']. split; [congruence | eapply wrote_on_trans; eauto].
Qed.

Lemma send_bytes_only_wrote fd data more :
  preserves (only_wrote fd) (@send_bytes O fd data more).
Proof.
  intros [c w]. destruct data as [|b data]; [apply only_wrote_refl|].
  unfold send_bytes, bind, get_os, modify_os, throw. cbn [this os].
  destruct (usable fd w); [|apply only_wrote_refl].
  split; [reflexivity|]. split; [reflexivity|]. split; [reflexivity|].
  split; [reflexivity|].
  eexists [_]. split; [reflexivity|]. constructor; [reflexivity | constructor].
Qed.

Lemma sendMessage_only_wrote fd bytes :
  preserves (only_wrote fd) (@thd.sendMessage O fd bytes).
Proof.
  unfold thd.sendMessage, send_uint.
  apply preserves_bind; [apply only_wrote_trans|apply send_bytes_only_wrote|].
  intros _. apply send_bytes_only_wrote.
Qed.

Lemma writes_on_sent_other fd fd' evs :
  fd' <> fd -> Forall (writes_on fd) evs -> sent fd' evs = [].
Proof.
  intros Hne. induction 1 as [|e evs He _ IH]; [reflexivity|].
  destruct e; try contradiction. cbn in He. subst. cbn.
  replace (fd =? fd') with false by (symmetry; apply Z.eqb_neq; congruence).
  exact IH.
Qed.

End WriteFacts.

(** X7.  [MasterCommandChannel::sendMessage] touches nothing but the
    connection of the rank it is given: however the call ends (it returns
    or throws), the object is unchanged, every system call it added is a
    write on [_sockets[rank]], nothing was read, polled, opened or closed,
    and what was written on any other descriptor is as before. *)
Theorem sendMessage_writes_to_destination_only
    (p p' : Master.t) (msg : list byte) (rank : Z) :
  Exec.after (Master.sendMessage msg rank p) = Some p' ->
  this p' = this p
  /\ wrote_on (Master._sockets (this p) !!! Z.to_nat rank) (os p) (os p')
  /\ forall fd', fd' <> Master._sockets (this p) !!! Z.to_nat rank ->
                 sent fd' (w_log (os p')) = sent fd' (w_log (os p)).
Proof.
  intros H.
  assert (Hk : only_wrote (Master._sockets (this p) !!! Z.to_nat rank) p p').
  { unfold Master.sendMessage, bind, get_this in H. cbn [this] in H.
    destruct (Master._error (this p)) as [m|].
    - cbn in H. inversion H. apply only_wrote_refl.
    - destruct (_ || _).
      + cbn in H. inversion H. apply only_wrote_refl.
      + pose proof (sendMessage_only_wrote
                      (Master._sockets (this p) !!! Z.to_nat rank) msg p) as Hp.
        destruct (thd.sendMessage _ msg p) as [[] q|e q| |];
          cbn in H; inversion H; subst; exact Hp. }
  destruct Hk as [Ht Hw]. split; [exact Ht|]. split; [exact Hw|].
  intros fd' Hne. destruct Hw as (_ & _ & _ & evs & Hl & Hf).
  rewrite Hl, sent_app, (writes_on_sent_other _ fd' evs Hne Hf). now rewrite app_nil_r.
Qed.

Lemma sendMessage_writes_to_destination_only_witness :
  exists p',
    Exec.after (Master.sendMessage [x61; x62] 1 Demo.ready2) = Some p'
    /\ this p' = this Demo.ready2
    /\ wrote_on (Master._sockets (this Demo.ready2) !!! Z.to_nat 1)
         (os Demo.ready2) (os p').
Proof.
  assert (Hr : exists p', Master.sendMessage [x61; x62] 1 Demo.ready2 = Ret tt p')
    by (vm_compute; eexists; reflexivity).
  destruct Hr as (p' & Hr).
  assert (H : Exec.after (Master.sendMessage [x61; x62] 1 Demo.ready2) = Some p')
    by (rewrite Hr; reflexivity).
  destruct (sendMessage_writes_to_destination_only Demo.ready2 p' [x61; x62] 1 H)
    as (Ht & Hw & _).
  exists p'. split; [exact H|]. split; [exact Ht | exact Hw].
Defined.

(** ** Several frames on one connection *)

Module StreamFacts.
Import Wire WireFacts Stream.

(** The world after the frames have been written on [fd]. *)
Lemma send_all_run (msgs : list (list byte)) :
  forall (c : Master.MasterCommandChannel) (w : world) (rank : Z),
    Master._error c = None ->
    0 < rank < Z.of_nat (length (Master._sockets c)) ->
    usable (Master._sockets c !!! Z.to_nat rank) w = true ->
    Forall (fun m => Z.of_nat (length m) < 2 ^ 64) msgs ->
    exists w',
      send_all msgs rank (Proc c w) = Ret tt (Proc c w')
      /\ sent (Master._sockets c !!! Z.to_nat rank) (w_log w')
         = sent (Master._sockets c !!! Z.to_nat rank) (w_log w) ++ frames msgs.
Proof.
  induction msgs as [|m msgs IH]; intros c w rank He Hr Hu Hlen.
  - exists w. split; [reflexivity|]. cbn. now rewrite app_nil_r.
  - apply Forall_cons in Hlen as [Hm Hrest].
    unfold send_all. cbn [for_each]. unfold bind at 1.
    rewrite master_sendMessage_valid by assumption. cbn [this].
    rewrite sendMessage_usable by assumption. cbn [this os].
    set (fd := Master._sockets c !!! Z.to_nat rank) in *.
    set (w1 := transmit fd m (transmit fd _ w)).
    destruct (IH c w1 rank He Hr) as (w' & Hs & Hsent); [|exact Hrest|].
    { subst w1. now rewrite !usable_transmit. }
    exists w'. split; [exact Hs|]. fold fd in Hsent. rewrite Hsent. subst w1.
    rewrite !sent_transmit. unfold frames. cbn [flat_map]. unfold frame at 2.
    now rewrite <- !app_assoc.
Qed.

Lemma recv_all_frames (msgs : list (list byte)) :
  forall (pw : Worker.t) (later : list byte),
    Worker._socket (this pw) ∈ w_open (os pw) ->
    w_rx (os pw) !!! Worker._socket (this pw) = frames msgs ++ later ->
    Forall (fun m => Z.of_nat (length m) < 2 ^ 64) msgs ->
    exists pw',
      recv_all (length msgs) pw = Ret msgs pw'
      /\ this pw' = this pw
      /\ w_rx (os pw') !!! Worker._socket (this pw) = later.
Proof.
  induction msgs as [|m msgs IH]; intros pw later Ho Hrx Hlen.
  - exists pw. split; [reflexivity|]. split; [reflexivity | exact Hrx].
  - apply Forall_cons in Hlen as [Hm Hrest].
    unfold frames in Hrx. cbn [flat_map] in Hrx. unfold frame at 1 in Hrx.
    rewrite <- !app_assoc in Hrx. fold (frames msgs) in Hrx.
    cbn [length recv_all]. unfold bind at 1. unfold Worker.recvMessage.
    unfold bind at 1, get_this.
    set (s := Worker._socket (this pw)) in *.
    rewrite (receiveMessage_frame s pw _ m (frames msgs ++ later) Ho Hrx).
    2: { apply length_encode_uint. }
    2: { apply decode_encode_uint64. lia. }
    set (pw1 := Proc (this pw) _).
    destruct (IH pw1 later) as (pw' & Hr & Ht & Hl).
    + subst pw1. cbn [this os]. fold s. now rewrite !w_open_consume.
    + subst pw1. cbn [this os]. fold s. rewrite !w_rx_consume, Hrx.
      rewrite <- (length_encode_uint sizeof_uint64 (Z.of_nat (length m))) at 1.
      rewrite drop_app_length. apply drop_app_length.
    + exact Hrest.
    + unfold bind at 1. rewrite Hr. exists pw'. split; [reflexivity|].
      split; [exact Ht | exact Hl].
Qed.

End StreamFacts.

(** X8.  Frames keep their boundaries and their order.  When the caller
    sends any number of messages to one worker (valid rank, no failure
    latched, connection up, each length fitting [std::uint64_t]), what goes
    on the wire is the frames one after the other, and the worker that finds
    these bytes on its connection (followed by anything [later]) gets, from
    as many calls of [recvMessage], the same messages in the same order,
    with only [later] left unread. *)
Theorem frames_arrive_in_order
    (pm : Master.t) (pw : Worker.t) (msgs : list (list byte)) (rank : Z)
    (later : list byte) :
  Master._error (this pm) = None ->
  0 < rank < Z.of_nat (length (Master._sockets (this pm))) ->
  usable (Master._sockets (this pm) !!! Z.to_nat rank) (os pm) = true ->
  Forall (fun m => Z.of_nat (length m) < 2 ^ 64) msgs ->
  Worker._socket (this pw) ∈ w_open (os pw) ->
  w_rx (os pw) !!! Worker._socket (this pw)
  = transmitted (Master._sockets (this pm) !!! Z.to_nat rank) pm
      (Stream.send_all msgs rank pm) ++ later ->
  exists pm' pw',
    Stream.send_all msgs rank pm = Ret tt pm'
    /\ this pm' = this pm
    /\ transmitted (Master._sockets (this pm) !!! Z.to_nat rank) pm
         (Stream.send_all msgs rank pm) = Stream.frames msgs
    /\ Stream.recv_all (length msgs) pw = Ret msgs pw'
    /\ this pw' = this pw
    /\ w_rx (os pw') !!! Worker._socket (this pw) = later.
Proof.
  intros He Hr Hu Hlen Ho Hrx. destruct pm as [c w]. cbn [this os] in *.
  destruct (StreamFacts.send_all_run msgs c w rank He Hr Hu Hlen) as (w' & Hs & Hsent).
  assert (Htx : transmitted (Master._sockets c !!! Z.to_nat rank) (Proc c w)
                  (Stream.send_all msgs rank (Proc c w)) = Stream.frames msgs).
  { rewrite Hs. unfold transmitted. cbn [os]. rewrite Hsent. apply drop_app_length. }
  rewrite Htx in Hrx.
  destruct (StreamFacts.recv_all_frames msgs pw later Ho Hrx Hlen) as (pw' & Hrv & Ht & Hl).
  exists (Proc c w'), pw'. split; [exact Hs|]. split; [reflexivity|].
  split; [exact Htx|]. split; [exact Hrv|]. split; [exact Ht | exact Hl].
Qed.

Lemma frames_arrive_in_order_witness :
  exists pm' pw',
    Stream.send_all [[x61; x62]; []; [x63]] 1 Demo.ready2 = Ret tt pm'
    /\ Stream.recv_all 3
         (Demo.worker1 (Stream.frames [[x61; x62]; []; [x63]] ++ [x07]))
       = Ret [[x61; x62]; []; [x63]] pw'
    /\ w_rx (os pw') !!! 3 = [x07].
Proof.
  set (msgs := [[x61; x62]; []; [x63]]).
  set (pw := Demo.worker1 (Stream.frames msgs ++ [x07])).
  assert (H1 : Master._error (this Demo.ready2) = None) by (vm_compute; reflexivity).
  assert (H2 : 0 < 1 < Z.of_nat (length (Master._sockets (this Demo.ready2))))
    by (vm_compute; split; reflexivity).
  assert (H3 : usable (Master._sockets (this Demo.ready2) !!! Z.to_nat 1) (os Demo.ready2)
               = true) by (vm_compute; reflexivity).
  assert (H4 : Forall (fun m => Z.of_nat (length m) < 2 ^ 64) msgs)
    by (repeat constructor).
  assert (H5 : Worker._socket (this pw) ∈ w_open (os pw)) by (cbn; set_solver).
  assert (H6 : w_rx (os pw) !!! Worker._socket (this pw)
               = transmitted (Master._sockets (this Demo.ready2) !!! Z.to_nat 1) Demo.ready2
                   (Stream.send_all msgs 1 Demo.ready2) ++ [x07])
    by (vm_compute; reflexivity).
  destruct (frames_arrive_in_order Demo.ready2 pw msgs 1 [x07] H1 H2 H3 H4 H5 H6)
    as (pm' & pw' & Hs & _ & _ & Hr & _ & Hl).
  exists pm', pw'. split; [exact Hs|]. split; [exact Hr | exact Hl].
Defined.

(** ** [init] in any world *)

Module InitShape.
Import Master.

Lemma recv_bytes_ret {O} fd (n : Z) (p p' : proc O) bs :
  recv_bytes fd n p = Ret bs p' -> 0 < n ->
  this p' = this p /\ w_log (os p') = w_log (os p) ++ [SysRecv fd bs].
Proof.
  intros H Hn. destruct p as [c w]. unfold recv_bytes in H.
  replace (n <=? 0) with false in H by (symmetry; apply Z.leb_gt; lia).
  unfold bind at 1 in H. unfold get_os in H. cbn [os] in H.
  destruct (bool_decide (fd ∈ w_open w)); [|discriminate].
  destruct (n <=? Z.of_nat (length (w_rx w !!! fd))).
  - unfold bind, modify_os, ret in H. cbn [this os] in H. inversion H; subst.
    split; reflexivity.
  - destruct (bool_decide (fd ∈ w_hup w)); discriminate.
Qed.

Lemma accept_ret {O} lfd (p p' : proc O) r :
  accept lfd p = Ret r p' ->
  this p' = this p /\ w_log (os p') = w_log (os p) ++ [SysAccept lfd (fst r)].
Proof.
  intros H. destruct p as [c w]. unfold accept in H.
  unfold bind at 1 in H. unfold get_os in H. cbn [os] in H.
  destruct (bool_decide (w_listening w = Some lfd) && bool_decide (lfd ∈ w_open w));
    [|discriminate].
  destruct (w_backlog w) as [|[fd inbound] rest]; [discriminate|].
  unfold bind, modify_os, ret in H. cbn [this os] in H. inversion H; subst.
  split; reflexivity.
Qed.

Lemma accept_one_ret (p p' : Master.t) :
  accept_one p = Ret tt p' ->
  exists lfd fd data (rank : nat),
    w_log (os p') = w_log (os p) ++ [SysAccept lfd fd; SysRecv fd data]
    /\ this p' = set_sockets <[rank := fd]> (this p)
    /\ (rank < length (_sockets (this p)))%nat.
Proof.
  unfold accept_one. unfold bind at 1. unfold get_this. unfold bind at 1.
  destruct (accept _ p) as [r p1|e p1| |] eqn:Ea; try discriminate.
  destruct (accept_ret _ p p1 r Ea) as [Ht1 Hl1].
  unfold bind at 1, recv_uint. unfold bind at 1.
  destruct (recv_bytes r.1 _ p1) as [bs p2|e p2| |] eqn:Er; try discriminate.
  destruct (recv_bytes_ret _ _ p1 p2 bs Er) as [Ht2 Hl2]; [reflexivity|].
  unfold ret at 1. unfold sockets_at_put, bind, get_this, modify_this, throw.
  match goal with |- context [bool_decide ?P] => destruct (bool_decide P) eqn:Hr end;
    [|discriminate].
  intros H. inversion H; subst. cbn [this os].
  apply bool_decide_eq_true_1 in Hr. rewrite Ht2, Ht1 in Hr |- *.
  eexists _, _, _, _. split; [|split; [reflexivity|exact Hr]].
  rewrite Hl2, Hl1, <- app_assoc. reflexivity.
Qed.

Lemma accept_loop_ret (idx : list nat) :
  forall (p p' : Master.t),
    for_each idx (fun _ => accept_one) p = Ret tt p' ->
    exists joins,
      w_log (os p') = w_log (os p) ++ joins
      /\ length (accepted joins) = length idx
      /\ (forall fd, sent fd joins = [])
      /\ closes joins = []
      /\ length (_sockets (this p')) = length (_sockets (this p))
      /\ _port (this p') = _port (this p).
Proof.
  induction idx as [|i idx IH]; intros p p' H.
  - inversion H; subst. exists []. rewrite app_nil_r. auto 10.
  - cbn [for_each] in H. unfold bind at 1 in H.
    destruct (accept_one p) as [[] p1|e p1| |] eqn:E; try discriminate.
    destruct (accept_one_ret p p1 E) as (lfd & fd & data & rank & Hl & Ht & Hr).
    destruct (IH p1 p' H) as (joins & Hl' & Ha & Hs & Hc & Hlen & Hport).
    exists ([SysAccept lfd fd; SysRecv fd data] ++ joins).
    split; [now rewrite Hl', Hl, <- app_assoc|].
    split; [rewrite accepted_app, length_app, Ha; reflexivity|].
    split; [intros fd'; rewrite sent_app, Hs; reflexivity|].
    split; [rewrite closes_app, Hc; reflexivity|].
    rewrite Hlen, Hport, Ht. cbn [_sockets _port set_sockets].
    now rewrite length_insert.
Qed.

Lemma confirm_loop_ret (idx : list nat) :
  forall (p p' : Master.t),
    for_each idx confirm_one p = Ret tt p' ->
    this p' = this p
    /\ w_log (os p')
       = w_log (os p) ++ map (fun i => SysSend (_sockets (this p) !!! i) [x01]) idx.
Proof.
  induction idx as [|i idx IH]; intros p p' H.
  - inversion H; subst. split; [reflexivity|]. cbn. now rewrite app_nil_r.
  - cbn [for_each] in H. unfold bind at 1 in H.
    destruct (confirm_one i p) as [[] p1|e p1| |] eqn:E; try discriminate.
    assert (Hp1 : this p1 = this p
                  /\ w_log (os p1) = w_log (os p) ++ [SysSend (_sockets (this p) !!! i) [x01]]).
    { destruct p as [c w]. unfold confirm_one, bind, get_this, send_bytes in E.
      cbn [this] in E. unfold bind, get_os, modify_os, throw in E. cbn [this os] in E.
      destruct (usable _ w); inversion E; subst. split; reflexivity. }
    destruct Hp1 as [Ht Hl]. destruct (IH p1 p' H) as [Ht' Hl'].
    split; [congruence|]. rewrite Hl', Hl, Ht, <- app_assoc. reflexivity.
Qed.

End InitShape.

(** X9.  Whenever [MasterCommandChannel::init] returns, in any world and
    whatever the connections announced, it returns [true] with the thread
    started and slot 0 reset to -1, and its system calls are, in this
    order: the listen; one accept and one read of a rank for each of the
    [WorldSize - 1] turns, with no write and no close among them; one
    confirmation byte [1] to each of the slots 1 .. [WorldSize - 1] in rank
    order; the close of what slot 0 holds; the start of the listener.  So no
    worker is released before the last connection is in. *)
Theorem init_returns_after_all_joined (p p' : Master.t) (b : bool) :
  (1 <= length (Master._sockets (this p)))%nat ->
  Master.init p = Ret b p' ->
  b = true
  /\ Master._started (this p') = true
  /\ length (Master._sockets (this p')) = length (Master._sockets (this p))
  /\ Master._sockets (this p') !! 0%nat = Some (-1)
  /\ exists joins lfd',
       w_log (os p')
       = w_log (os p)
         ++ SysListen (Master._port (this p)) (w_next_fd (os p)) :: joins
         ++ map (fun i => SysSend (Master._sockets (this p') !!! i) [x01])
              (seq 1 (length (Master._sockets (this p)) - 1))
         ++ [SysClose lfd'; ThreadStart]
       /\ length (accepted joins) = (length (Master._sockets (this p)) - 1)%nat
       /\ (forall fd, sent fd joins = [])
       /\ closes joins = [].
Proof.
  intros Hn. destruct p as [c w]. cbn [this os] in *.
  unfold Master.init. unfold bind at 1. unfold get_this. cbn [this].
  unfold bind at 1. unfold listen, bind at 1, get_os. cbn [os].
  unfold bind at 1, modify_os, ret. cbn [this os fst].
  unfold bind at 1, modify_this. cbn [this os].
  set (p0 := Proc (Master.set_sockets <[0%nat := w_next_fd w]> c) _).
  unfold bind at 1.
  destruct (for_each _ (fun _ => Master.accept_one) p0) as [[] p1|e p1| |] eqn:Ea;
    try discriminate.
  destruct (InitShape.accept_loop_ret _ p0 p1 Ea)
    as (joins & Hl1 & Hacc & Hsent & Hcl & Hlen1 & Hport1).
  unfold bind at 1.
  destruct (for_each _ Master.confirm_one p1) as [[] p2|e p2| |] eqn:Ec;
    try discriminate.
  destruct (InitShape.confirm_loop_ret _ p1 p2 Ec) as [Ht2 Hl2].
  unfold bind at 1. unfold close, modify_os. unfold bind at 1. cbn [this os].
  unfold bind at 1. cbn [this os]. unfold bind at 1. cbn [this os].
  unfold bind at 1. cbn [this os].
  intros H. inversion H; subst b p'. clear H. cbn [this os].
  cbn [Master._started Master.set_started Master._sockets Master.set_sockets].
  subst p0. cbn [this os Master._sockets Master.set_sockets Master._port] in *.
  rewrite length_insert in Hlen1. rewrite length_seq in Hacc.
  split; [reflexivity|]. split; [reflexivity|].
  split; [rewrite length_insert, Ht2; exact Hlen1|].
  split; [apply list_lookup_insert_eq; rewrite Ht2, Hlen1; lia|].
  exists joins, (Master._sockets (this p2) !!! 0%nat).
  split; [|split; [exact Hacc|split; [exact Hsent | exact Hcl]]].
  cbn [w_log log closed set_listening set_open]. rewrite Hl2, Hl1.
  cbn [w_log log set_listening set_open]. rewrite <- !app_assoc. cbn [app].
  f_equal. f_equal. f_equal. f_equal. rewrite Ht2.
  apply map_ext_in. intros i Hi. apply in_seq in Hi.
  rewrite list_lookup_total_insert_ne by lia. reflexivity.
Qed.

Lemma init_returns_after_all_joined_witness :
  exists p',
    Master.init (Proc (Master.new 29500 4) Demo.world4) = Ret true p'
    /\ Master._started (this p') = true
    /\ Master._sockets (this p') !! 0%nat = Some (-1).
Proof.
  assert (H1 : (1 <= length (Master._sockets
                               (this (Proc (Master.new 29500 4) Demo.world4))))%nat)
    by (cbn; lia).
  assert (H2 : exists p', Master.init (Proc (Master.new 29500 4) Demo.world4) = Ret true p')
    by (vm_compute; eexists; reflexivity).
  destruct H2 as (p' & H2).
  destruct (init_returns_after_all_joined _ p' true H1 H2) as (_ & Hs & _ & H0 & _).
  exists p'. split; [exact H2|]. split; [exact Hs | exact H0].
Defined.

Module WaitFacts.
Import Master Join JoinFacts TableFacts RankFacts.

Lemma w_backlog_loop_state port (n : nat) w (arr : list arrival) more :
  w_backlog w = backlog_of arr ++ more ->
  w_backlog (os (loop_state port n w arr)) = more.
Proof.
  intros Hb. cbn [os loop_state]. apply w_backlog_foldl_accept. exact Hb.
Qed.

(** [init] gets to the turn of its first loop that follows the connections
    [arr], and does there what [accept_one] does when that is not to
    return. *)
Lemma init_stuck port (n : nat) w (arr : list arrival) more :
  (1 <= n)%nat -> Z.of_nat n <= 2 ^ 32 ->
  Forall (fun a => (1 <= a_rank a < n)%nat) arr ->
  (length arr < n - 1)%nat ->
  w_backlog w = backlog_of arr ++ more ->
  accept_one (loop_state port n w arr) = Block ->
  init (Proc (new port n) w) = Block.
Proof.
  intros Hn1 Hn2 Hgood Hlen Hb Hblock.
  unfold init. unfold bind at 1. unfold get_this. cbn [this].
  unfold bind at 1. unfold listen, bind at 1, get_os. cbn [os].
  unfold bind at 1, modify_os, ret. cbn [this os fst].
  unfold bind at 1, modify_this. cbn [this os].
  replace (length (_sockets (new port n)) - 1)%nat
    with (length arr + S (n - 2 - length arr))%nat
    by (cbn; rewrite length_replicate; lia).
  rewrite seq_app. cbn [seq].
  unfold bind at 1. rewrite for_each_app. unfold bind at 1.
  rewrite (accept_loop_good arr (seq 1 (length arr)) _ _ (w_next_fd w) more).
  - cbn [for_each]. unfold bind at 1.
    match goal with
    | |- context [accept_one ?q] => change q with (loop_state port n w arr)
    end.
    rewrite Hblock. reflexivity.
  - apply length_seq.
  - reflexivity.
  - cbn. set_solver.
  - cbn [_sockets set_sockets new]. apply list_lookup_total_insert_eq.
    rewrite length_replicate. lia.
  - exact Hb.
  - cbn [_sockets set_sockets new]. now rewrite length_insert, length_replicate.
  - cbn [_sockets set_sockets new]. now rewrite length_insert, length_replicate.
Qed.

Lemma accept_one_waits (p : Master.t) :
  w_listening (os p) = Some (_sockets (this p) !!! 0%nat) ->
  _sockets (this p) !!! 0%nat ∈ w_open (os p) ->
  w_backlog (os p) = [] ->
  accept_one p = Block.
Proof.
  intros Hl Ho Hb. destruct p as [c w]. cbn [this os] in *.
  unfold accept_one. unfold bind at 1. unfold get_this. cbn [this].
  unfold bind at 1. unfold accept, bind at 1, get_os. cbn [os].
  rewrite bool_decide_eq_true_2 by exact Hl.
  rewrite bool_decide_eq_true_2 by exact Ho. cbn [andb]. rewrite Hb. reflexivity.
Qed.

End WaitFacts.

(** X10.  [init] has no timeout: when fewer than [WorldSize - 1] workers
    connect (each announcing the rank of a worker) and nobody else does, the
    constructed master's [init] stays in [accept]; it neither returns nor
    throws, and in particular sends no confirmation byte. *)
Theorem init_waits_for_every_worker
    (port : Z) (n : nat) (w : world) (arr : list Join.arrival) :
  (1 <= n)%nat -> Z.of_nat n <= 2 ^ 32 ->
  Forall (fun a => (1 <= Join.a_rank a < n)%nat) arr ->
  (length arr < n - 1)%nat ->
  w_backlog w = Join.backlog_of arr ->
  Master.init (Proc (Master.new port n) w) = Block.
Proof.
  intros Hn1 Hn2 Hgood Hlen Hb.
  assert (Hb' : w_backlog w = Join.backlog_of arr ++ []) by now rewrite app_nil_r.
  apply (WaitFacts.init_stuck port n w arr [] Hn1 Hn2 Hgood Hlen Hb').
  assert (H0 : Master._sockets (this (Join.loop_state port n w arr)) !!! 0%nat
               = w_next_fd w).
  { apply list_lookup_total_correct. now apply RankFacts.loop_state_slot0. }
  apply WaitFacts.accept_one_waits.
  - rewrite H0. apply RankFacts.loop_state_listening; assumption.
  - rewrite H0. apply RankFacts.loop_state_listener_open; assumption.
  - now apply WaitFacts.w_backlog_loop_state.
Qed.

Lemma init_waits_for_every_worker_witness :
  Master.init (Proc (Master.new 29500 3)
                 (World ∅ None 4 (Join.backlog_of [(5, 2%nat, [])]) ∅ ∅ [] None []))
  = Block.
Proof.
  apply (init_waits_for_every_worker 29500 3 _ [(5, 2%nat, [])]).
  - lia.
  - vm_compute. discriminate.
  - constructor; [cbn; lia | constructor].
  - cbn. lia.
  - reflexivity.
Defined.

(** ** The worker's side of the handshake *)

Module WorkerFacts.
Import Worker.

(** The world after [connect] and the write of the rank. *)
Lemma init_announces (c : WorkerCommandChannel) (w : world) :
  w_next_fd w ∉ w_hup w ->
  Worker.init (Proc c w)
  = bind (recv_bytes (w_next_fd w) 1) (fun _ => ret true)
      (Proc (set_socket (w_next_fd w) c)
            (log (SysSend (w_next_fd w)
                    (Wire.encode_uint Wire.sizeof_rank_type (Z.of_nat (_rank c))))
               (log (SysConnect (_master_addr c) (_master_port c) (w_next_fd w))
                  (set_open (union {[w_next_fd w]}) w)))).
Proof.
  intros Hh. unfold Worker.init. unfold bind at 1. unfold get_this. cbn [this].
  unfold bind at 1. unfold connect, bind at 1, get_os. cbn [os].
  unfold bind at 1, modify_os, ret. cbn [this os].
  unfold bind at 1, modify_this. cbn [this os].
  unfold bind at 1, send_uint. rewrite send_bytes_usable.
  - reflexivity.
  - unfold usable. cbn [os w_open w_hup log set_open].
    rewrite bool_decide_eq_true_2 by set_solver.
    now rewrite bool_decide_eq_false_2 by exact Hh.
Qed.

End WorkerFacts.

(** X11.  [WorkerCommandChannel::init], on a connection the master has not
    dropped: it connects, stores the descriptor, writes its rank as one
    value of [rank_type], and then waits for one byte.  With no byte to
    read it stays blocked; with a byte it returns [true] whatever the value
    of that byte is (the confirmation is not compared with anything), having
    read this single byte and nothing after it. *)
Theorem worker_init_handshake (c : Worker.WorkerCommandChannel) (w : world) :
  w_next_fd w ∉ w_hup w ->
  (w_rx w !!! w_next_fd w = [] -> Worker.init (Proc c w) = Block)
  /\ forall (b : byte) (rest : list byte),
       w_rx w !!! w_next_fd w = b :: rest ->
       exists w',
         Worker.init (Proc c w) = Ret true (Proc (Worker.set_socket (w_next_fd w) c) w')
         /\ w_log w'
            = w_log w
              ++ [SysConnect (Worker._master_addr c) (Worker._master_port c) (w_next_fd w);
                  SysSend (w_next_fd w)
                    (Wire.encode_uint Wire.sizeof_rank_type (Z.of_nat (Worker._rank c)));
                  SysRecv (w_next_fd w) [b]]
         /\ w_rx w' !!! w_next_fd w = rest
         /\ w_open w' = {[w_next_fd w]} ∪ w_open w.
Proof.
  intros Hh. rewrite (WorkerFacts.init_announces c w Hh). split.
  - intros Hrx. unfold bind. rewrite recv_bytes_waits; [reflexivity| | |].
    + cbn. set_solver.
    + exact Hh.
    + cbn [os w_rx log set_open]. rewrite Hrx. cbn. lia.
  - intros b rest Hrx. unfold bind. change 1 with (Z.of_nat 1).
    rewrite recv_bytes_ready.
    + eexists. split; [reflexivity|]. cbn [this os consume w_log log set_rx w_rx set_open].
      rewrite Hrx, lookup_total_insert_eq. cbn [take drop].
      split; [now rewrite <- !app_assoc|]. split; reflexivity.
    + cbn. set_solver.
    + cbn [os w_rx log set_open]. rewrite Hrx. cbn. lia.
Qed.

Lemma worker_init_handshake_witness :
  exists w',
    Worker.init (Demo.worker_new 2 [x00; x07])
    = Ret true (Proc (Worker.set_socket 3 (Worker.new 2 "master" 29500)) w')
    /\ w_rx w' !!! 3 = [x07].
Proof.
  assert (H1 : w_next_fd (os (Demo.worker_new 2 [x00; x07]))
               ∉ w_hup (os (Demo.worker_new 2 [x00; x07]))) by (cbn; set_solver).
  assert (H2 : w_rx (os (Demo.worker_new 2 [x00; x07]))
                 !!! w_next_fd (os (Demo.worker_new 2 [x00; x07])) = x00 :: [x07])
    by (vm_compute; reflexivity).
  destruct (proj2 (worker_init_handshake (this (Demo.worker_new 2 [x00; x07]))
                     (os (Demo.worker_new 2 [x00; x07])) H1) x00 [x07] H2)
    as (w' & Hr & _ & Hrx & _).
  exists w'. split; [exact Hr | exact Hrx].
Defined.

Module HandshakeFacts.
Import Worker.

(** What a worker whose [init] returned has written: its rank, once. *)
Lemma init_transmitted (c : WorkerCommandChannel) (w : world) b pw' :
  Worker.init (Proc c w) = Ret b pw' ->
  transmitted (w_next_fd w) (Proc c w) (Worker.init (Proc c w))
  = Join.handshake (_rank c).
Proof.
  intros H. destruct (decide (w_next_fd w ∈ w_hup w)) as [Hh|Hh].
  - exfalso. revert H. unfold Worker.init. unfold bind at 1. unfold get_this. cbn [this].
    unfold bind at 1. unfold connect, bind at 1, get_os. cbn [os].
    unfold bind at 1, modify_os, ret. cbn [this os].
    unfold bind at 1, modify_this. cbn [this os].
    unfold bind at 1, send_uint. rewrite send_bytes_unusable; [discriminate| |].
    + unfold usable. cbn [os w_open w_hup log set_open].
      rewrite (bool_decide_eq_true_2 (w_next_fd w ∈ w_hup w)) by exact Hh.
      now rewrite andb_false_r.
    + cbn. discriminate.
  - rewrite H. rewrite (WorkerFacts.init_announces c w Hh) in H.
    unfold bind in H.
    destruct (recv_bytes (w_next_fd w) 1 _) as [bs p1|e p1| |] eqn:Er; try discriminate.
    destruct (InitShape.recv_bytes_ret _ _ _ p1 bs Er) as [_ Hl]; [reflexivity|].
    unfold ret in H. inversion H; subst. unfold transmitted. rewrite Hl.
    cbn [os w_log log set_open]. rewrite !sent_app. cbn [sent flat_map].
    rewrite Z.eqb_refl, !app_nil_r. apply drop_app_length.
Qed.

End HandshakeFacts.

(** X12.  The two halves of the handshake fit.  What a worker whose [init]
    returned has written on its connection is exactly what the master's
    accept loop reads as a rank: when that connection is the next one in,
    the turn of the loop stores its descriptor in the slot of the worker's
    own rank when the rank is inside the table, and throws
    [std::out_of_range] with the connection accepted but not stored when
    it is not; nothing that follows the rank on the connection is read. *)
Theorem handshake_files_worker_under_its_rank
    (cw : Worker.WorkerCommandChannel) (ww : world) (b : bool) (pw' : Worker.t)
    (c : Master.MasterCommandChannel) (w : world)
    (fd : Z) (extra : list byte) (rest : list (Z * list byte)) :
  Worker.init (Proc cw ww) = Ret b pw' ->
  Z.of_nat (Worker._rank cw) < 2 ^ 32 ->
  w_listening w = Some (Master._sockets c !!! 0%nat) ->
  Master._sockets c !!! 0%nat ∈ w_open w ->
  w_backlog w
  = (fd, transmitted (w_next_fd ww) (Proc cw ww) (Worker.init (Proc cw ww)) ++ extra)
    :: rest ->
  exists w',
    w_rx w' !!! fd = extra
    /\ fd ∈ w_open w'
    /\ w_backlog w' = rest
    /\ ((Worker._rank cw < length (Master._sockets c))%nat ->
        Master.accept_one (Proc c w)
        = Ret tt (Proc (Master.set_sockets <[Worker._rank cw := fd]> c) w'))
    /\ ((length (Master._sockets c) <= Worker._rank cw)%nat ->
        Master.accept_one (Proc c w)
        = Throw (out_of_range "vector::_M_range_check") (Proc c w')).
Proof.
  intros Hinit Hr Hl Ho Hb.
  rewrite (HandshakeFacts.init_transmitted cw ww b pw' Hinit) in Hb.
  set (a := (fd, Worker._rank cw, extra) : Join.arrival).
  exists (Join.accept_world (Master._sockets c !!! 0%nat) w a).
  split; [apply (JoinFacts.w_rx_accept _ w a)|].
  split; [rewrite JoinFacts.w_open_accept; cbn; set_solver|].
  split; [rewrite JoinFacts.w_backlog_accept, Hb; reflexivity|].
  split; intros Hrange.
  - rewrite (JoinFacts.accept_one_step c w _ a rest Hl Ho eq_refl Hb Hr).
    now rewrite JoinFacts.sockets_at_put_in_range.
  - rewrite (JoinFacts.accept_one_step c w _ a rest Hl Ho eq_refl Hb Hr).
    now rewrite JoinFacts.sockets_at_put_out_of_range.
Qed.

Lemma handshake_files_worker_under_its_rank_witness :
  exists w',
    Master.accept_one (Join.loop_state 29500 3 Demo.world3 [])
    = Ret tt (Proc (Master.set_sockets <[2%nat := 5]>
                      (this (Join.loop_state 29500 3 Demo.world3 []))) w')
    /\ w_rx w' !!! 5 = [].
Proof.
  set (ls := Join.loop_state 29500 3 Demo.world3 []).
  set (pw := Demo.worker_new 2 [x01]).
  assert (H1 : exists pw', Worker.init (Proc (this pw) (os pw)) = Ret true pw')
    by (vm_compute; eexists; reflexivity).
  destruct H1 as (pw' & H1).
  assert (H2 : Z.of_nat (Worker._rank (this pw)) < 2 ^ 32) by (vm_compute; reflexivity).
  assert (H3 : w_listening (os ls) = Some (Master._sockets (this ls) !!! 0%nat))
    by (vm_compute; reflexivity).
  assert (H4 : Master._sockets (this ls) !!! 0%nat ∈ w_open (os ls))
    by (vm_compute; set_solver).
  assert (H5 : w_backlog (os ls)
               = (5, transmitted (w_next_fd (os pw)) (Proc (this pw) (os pw))
                       (Worker.init (Proc (this pw) (os pw))) ++ [])
                 :: [(6, Demo.handshake 1 ++ Demo.frame "boom")])
    by (vm_compute; reflexivity).
  destruct (handshake_files_worker_under_its_rank (this pw) (os pw) true pw'
              (this ls) (os ls) 5 [] _ H1 H2 H3 H4 H5)
    as (w' & Hrx & _ & _ & Hin & _).
  exists w'. split; [|exact Hrx].
  apply Hin. vm_compute. repeat constructor.
Defined.

(** ** The destructor without assumptions on the table *)

Module LeakFacts.
Import Master Join JoinFacts TableFacts RankFacts TeardownFacts.

Lemma closes_join_events (b : bool) (n : nat) :
  closes (if b then [SysPoll n 500; ThreadJoin] else []) = [].
Proof. destruct b; reflexivity. Qed.

(** What the destructor leaves open, and what it closed, when there is no
    listener or the listener is in its wait. *)
Lemma destroy_open fuel (p : Master.t) :
  Wake.in_wait p ->
  exists p',
    destroy (S fuel) p = Ret tt p'
    /\ closes (w_log (os p')) = closes (w_log (os p)) ++ held (this p)
    /\ w_open (os p') = w_open (os p) ∖ list_to_set (held (this p)).
Proof.
  intros Hw.
  destruct (destroy_run fuel p Hw) as (c' & w1 & n & Hd & _ & Ho & Hl).
  eexists. split; [exact Hd|]. cbn [os]. split.
  - rewrite w_log_foldl_closed, Hl, !closes_app, closes_join_events, closes_map_close.
    now rewrite app_nil_r.
  - now rewrite w_open_foldl_closed, Ho.
Qed.

Lemma store_exiting_shape (p : Master.t) :
  exists c0,
    store_exiting p = Ret tt (Proc c0 (os p))
    /\ _sockets c0 = _sockets (this p) /\ _started c0 = _started (this p).
Proof.
  destruct p as [c w]. unfold store_exiting. cbn [this os].
  destruct (_started c) eqn:E; [destruct (w_exit_in w) as [[|k]|]|];
    eexists; (split; [reflexivity|]); cbn; auto.
Qed.

(** The listener never touches the connection table. *)
Lemma errorHandler_table fuel :
  forall (p p' : Master.t),
    errorHandler fuel p = Ret tt p' -> _sockets (this p') = _sockets (this p).
Proof.
  induction fuel as [|fuel IH]; intros p p' H; [discriminate|].
  cbn [errorHandler] in H. unfold bind at 1 in H.
  pose proof (ListenerTurn.errorHandler_body_cases (S fuel) p) as Hk.
  destruct (errorHandler_body (S fuel) p) as [go p1|e p1| |]; try discriminate.
  destruct Hk as (error & q & _ & Hs & _).
  destruct go.
  - rewrite (IH p1 p' H). exact Hs.
  - unfold ret in H. inversion H; subst. exact Hs.
Qed.

(** Whenever the destructor returns, this is what it closed and what it
    left open. *)
Lemma destroy_ret fuel (p p' : Master.t) :
  destroy fuel p = Ret tt p' ->
  closes (w_log (os p')) = closes (w_log (os p)) ++ held (this p)
  /\ w_open (os p') = w_open (os p) ∖ list_to_set (held (this p)).
Proof.
  unfold destroy. unfold bind at 1.
  destruct (store_exiting_shape p) as (c0 & -> & Hs0 & Hst0).
  unfold bind at 1. unfold get_this. cbn [this]. unfold bind at 1.
  unfold held. rewrite <- Hs0.
  destruct (_started c0).
  - unfold join. unfold bind at 1.
    pose proof (HearFacts.errorHandler_heard fuel (Proc c0 (os p))) as Hh.
    destruct (errorHandler fuel (Proc c0 (os p))) as [[] q|e q| |] eqn:E;
      try discriminate.
    pose proof (errorHandler_table fuel _ _ E) as Hs. cbn [this] in Hs.
    destruct Hh as (Ho & evs & Hl & Hev). cbn [os] in Ho, Hl.
    unfold modify_os. cbn [this os]. unfold bind at 1, get_this. cbn [this].
    rewrite close_loop. intros H. inversion H; subst p'. cbn [os].
    rewrite Hs. split.
    + rewrite w_log_foldl_closed. cbn [w_log log]. rewrite Hl, !closes_app.
      rewrite (HearFacts.listens_closes evs Hev), closes_map_close.
      cbn. now rewrite !app_nil_r.
    + rewrite w_open_foldl_closed. cbn [w_open log]. now rewrite Ho.
  - unfold ret at 1. unfold bind at 1, get_this. cbn [this].
    rewrite close_loop. intros H. inversion H; subst p'. cbn [os].
    split.
    + now rewrite w_log_foldl_closed, closes_app, closes_map_close.
    + now rewrite w_open_foldl_closed.
Qed.

Lemma held_in_table (c : MasterCommandChannel) fd :
  fd ∈ held c -> fd ∈ _sockets c.
Proof. unfold held. rewrite list_elem_of_filter. tauto. Qed.

Lemma foldl_slot_elem (arr : list arrival) :
  forall (s : list Z) x,
    x ∈ foldl slot s arr -> x ∈ s \/ x ∈ map a_fd arr.
Proof.
  induction arr as [|a arr IH]; intros s x H; [now left|].
  cbn [foldl] in H. destruct (IH _ x H) as [Hin|Hin].
  - unfold slot in Hin. apply list_elem_of_lookup in Hin as [i Hi].
    destruct (decide (i = a_rank a)) as [->|Hne].
    + destruct (decide (a_rank a < length s)%nat) as [Hlt|Hge].
      * rewrite list_lookup_insert_eq in Hi by exact Hlt. inversion Hi; subst.
        right. cbn [map]. left.
      * rewrite list_insert_ge in Hi by lia. left. eapply list_elem_of_lookup_2. exact Hi.
    + rewrite list_lookup_insert_ne in Hi by congruence.
      left. eapply list_elem_of_lookup_2. exact Hi.
  - right. cbn [map]. now right.
Qed.

Lemma loop_state_table port (n : nat) w (arr : list arrival) x :
  x ∈ _sockets (this (loop_state port n w arr)) ->
  x = -1 \/ x = w_next_fd w \/ x ∈ map a_fd arr.
Proof.
  cbn. intros H. apply foldl_slot_elem in H as [H|H]; [|auto].
  apply list_elem_of_lookup in H as [i Hi].
  destruct (decide (i = 0%nat)) as [->|Hne].
  - destruct (decide (0 < n)%nat) as [Hlt|Hge].
    + rewrite list_lookup_insert_eq in Hi by (rewrite length_replicate; exact Hlt).
      inversion Hi. auto.
    + rewrite list_insert_ge in Hi by (rewrite length_replicate; lia).
      apply lookup_replicate in Hi as [-> _]. auto.
  - rewrite list_lookup_insert_ne in Hi by congruence.
    apply lookup_replicate in Hi as [-> _]. auto.
Qed.

(** The listener returns only with the exit signal read. *)
Lemma errorHandler_exiting fuel :
  forall (p p' : Master.t),
    errorHandler fuel p = Ret tt p' -> _exiting (this p') = true.
Proof.
  induction fuel as [|fuel IH]; intros p p' H; [discriminate|].
  cbn [errorHandler] in H. unfold bind at 1 in H.
  pose proof (ListenerTurn.errorHandler_body_cases (S fuel) p) as Hk.
  destruct (errorHandler_body (S fuel) p) as [go p1|e p1| |]; try discriminate.
  destruct Hk as (error & q & _ & _ & _ & _ & _ & Hgo).
  destruct go.
  - exact (IH p1 p' H).
  - unfold ret in H. inversion H; subst. apply Hgo.
Qed.

(** Sending and listening do not touch [_started]. *)
Lemma exec_started a p p' :
  a <> Exec.Init -> Exec.exec a p = Some p' ->
  _started (this p') = _started (this p).
Proof.
  destruct a as [|msg rank|fuel]; [congruence| |]; intros _ H; cbn [Exec.exec] in H.
  - pose proof (MasterFrames.sendMessage_preserves msg rank p) as Hk.
    apply ExecFacts.after_Some in H as [[a Ha]|[e He]];
      [rewrite Ha in Hk | rewrite He in Hk]; destruct Hk as [Ht _]; now rewrite Ht.
  - pose proof (ListenerTurn.errorHandler_body_cases fuel p) as Hk.
    apply ExecFacts.after_Some in H as [[go Ha]|[e He]].
    + rewrite Ha in Hk. destruct Hk as (error & p1 & _ & _ & Hs & _). exact Hs.
    + rewrite He in Hk. destruct Hk as [p1 Hr].
      pose proof (ListenerTurn.errorHandler_body_unfold fuel p) as Hu.
      rewrite He, Hr in Hu. inversion Hu; subst.
      pose proof (ListenerTurn.recvError_keeps fuel p) as Hkeep. rewrite Hr in Hkeep.
      destruct Hkeep as (_ & _ & Hs & _). exact Hs.
Qed.

Lemma trace_started (acts : list Exec.action) :
  forall p1 (j : nat) pj,
    Forall (fun a => a <> Exec.Init) acts ->
    Exec.trace acts p1 !! j = Some pj ->
    _started (this pj) = _started (this p1).
Proof.
  induction acts as [|a acts IH]; intros p1 j pj Hacts Hj.
  - destruct j; [|destruct j; discriminate]. cbn in Hj. now inversion Hj; subst.
  - destruct j as [|j]; [cbn in Hj; now inversion Hj; subst|].
    apply Forall_cons in Hacts as [Ha Hacts].
    cbn [Exec.trace] in Hj. destruct (Exec.exec a p1) as [p2|] eqn:E; [|discriminate].
    rewrite (IH p2 j pj Hacts Hj). now apply exec_started with a.
Qed.

(** Whenever the destructor of a channel with a listener returns: the exit
    signal is set, and the log has grown by what the listener did (waits and
    reads), the join, and then one close for every slot that holds a
    descriptor. *)
Lemma destroy_ret_log fuel (p p' : Master.t) :
  _started (this p) = true ->
  destroy fuel p = Ret tt p' ->
  _exiting (this p') = true
  /\ exists evs,
       Forall listens evs
       /\ w_log (os p')
          = w_log (os p) ++ evs ++ [ThreadJoin] ++ map SysClose (held (this p)).
Proof.
  intros Hst. unfold destroy. unfold bind at 1.
  destruct (store_exiting_shape p) as (c0 & -> & Hs0 & Hst0).
  unfold bind at 1. unfold get_this. cbn [this]. unfold bind at 1.
  unfold held. rewrite <- Hs0. rewrite Hst0, Hst.
  unfold join. unfold bind at 1.
  pose proof (HearFacts.errorHandler_heard fuel (Proc c0 (os p))) as Hh.
  destruct (errorHandler fuel (Proc c0 (os p))) as [[] q|e q| |] eqn:E;
    try discriminate.
  pose proof (errorHandler_table fuel _ _ E) as Hs. cbn [this] in Hs.
  pose proof (errorHandler_exiting fuel _ _ E) as Hex.
  destruct Hh as (Ho & evs & Hl & Hev). cbn [os] in Ho, Hl.
  unfold modify_os. cbn [this os]. unfold bind at 1, get_this. cbn [this].
  rewrite close_loop. intros H. inversion H; subst p'. cbn [this os].
  split; [exact Hex|]. exists evs. split; [exact Hev|].
  rewrite w_log_foldl_closed. cbn [w_log log]. rewrite Hl, Hs.
  now rewrite <- !app_assoc.
Qed.

End LeakFacts.

(** X13.  What the destructor closes, in any state of the object.  It
    returns when no thread was started or the listener is in its wait when
    [_exiting] is stored (a listener stuck in a read keeps the join, and
    with it the destructor, from returning).  Whenever it returns, the
    descriptors it has passed to [::close] are the entries of the
    connection table other than -1, in table order, each as often as the
    table holds it, and nothing else is closed: a descriptor that is open
    but no longer in the table is still open afterwards. *)
Theorem destructor_closes_the_table_only (fuel : nat) (p : Master.t) :
  (Wake.in_wait p -> exists p', Master.destroy (S fuel) p = Ret tt p')
  /\ forall p',
       Master.destroy fuel p = Ret tt p' ->
       closes (w_log (os p')) = closes (w_log (os p)) ++ Join.held (this p)
       /\ w_open (os p') = w_open (os p) ∖ list_to_set (Join.held (this p))
       /\ forall fd, fd ∈ w_open (os p) -> (fd ∉ Master._sockets (this p)) ->
                     fd ∈ w_open (os p').
Proof.
  split.
  - intros Hw. destruct (LeakFacts.destroy_open fuel p Hw) as (p' & Hd & _).
    exists p'. exact Hd.
  - intros p' Hd. destruct (LeakFacts.destroy_ret fuel p p' Hd) as [Hc Ho].
    split; [exact Hc|]. split; [exact Ho|].
    intros fd Hin Hnot. rewrite Ho. apply elem_of_difference. split; [exact Hin|].
    rewrite elem_of_list_to_set. intros Hh. apply Hnot.
    now apply LeakFacts.held_in_table.
Qed.

Lemma destructor_closes_the_table_only_witness :
  5 ∈ w_open (os Demo.master3_rejected)
  /\ exists p',
       Master.destroy 1 Demo.master3_rejected = Ret tt p'
       /\ closes (w_log (os p')) = [4]
       /\ 5 ∈ w_open (os p').
Proof.
  assert (H1 : 5 ∈ w_open (os Demo.master3_rejected)) by (vm_compute; set_solver).
  assert (H2 : 5 ∉ Master._sockets (this Demo.master3_rejected)).
  { vm_compute. intros H. repeat (apply elem_of_cons in H as [H|H]; [discriminate|]).
    now apply elem_of_nil in H. }
  assert (H3 : Wake.in_wait Demo.master3_rejected) by (left; vm_compute; reflexivity).
  destruct (destructor_closes_the_table_only 0 Demo.master3_rejected) as [Hret _].
  destruct (Hret H3) as (p' & Hd).
  destruct (proj2 (destructor_closes_the_table_only 1 Demo.master3_rejected) p' Hd)
    as (Hc & _ & Hleak).
  split; [exact H1|]. exists p'. split; [exact Hd|]. split.
  - rewrite Hc. vm_compute. reflexivity.
  - exact (Hleak 5 H1 H2).
Defined.

(** X14.  A connection that announces a rank outside the table is lost:
    [init] has accepted it when [_sockets.at(rank)] throws, it is in no
    slot, and the destructor that runs afterwards (which does not join,
    the thread was never started) closes the listening socket and the
    connections stored before, but not this one, which stays open. *)
Theorem rejected_connection_outlives_destructor
    (fuel : nat) (port : Z) (n : nat) (w : world)
    (arr : list Join.arrival) (a : Join.arrival) (rest : list (Z * list byte)) :
  (1 <= n)%nat -> Z.of_nat n <= 2 ^ 32 ->
  Forall (fun a' => (1 <= Join.a_rank a' < n)%nat) arr ->
  (length arr < n - 1)%nat ->
  w_backlog w
  = Join.backlog_of arr
    ++ (Join.a_fd a, Join.handshake (Join.a_rank a) ++ Join.a_extra a) :: rest ->
  Z.of_nat (Join.a_rank a) < 2 ^ 32 ->
  (n <= Join.a_rank a)%nat ->
  Join.a_fd a <> -1 -> Join.a_fd a <> w_next_fd w ->
  (Join.a_fd a ∉ map Join.a_fd arr) ->
  exists p1 p2,
    Master.init (Proc (Master.new port n) w)
    = Throw (out_of_range "vector::_M_range_check") p1
    /\ Master._started (this p1) = false
    /\ Join.a_fd a ∈ w_open (os p1)
    /\ (Join.a_fd a ∉ Master._sockets (this p1))
    /\ Master.destroy (S fuel) p1 = Ret tt p2
    /\ closes (w_log (os p2)) = closes (w_log (os p1)) ++ Join.held (this p1)
    /\ Join.a_fd a ∈ w_open (os p2).
Proof.
  intros Hn1 Hn2 Hgood Hlen Hb Hr Hout Hm1 Hlfd Hfresh.
  set (ls := Join.loop_state port n w arr).
  set (p1 := Proc (this ls) (Join.accept_world (w_next_fd w) (os ls) a)).
  assert (Hacc : Master.accept_one ls
                 = Throw (out_of_range "vector::_M_range_check") p1).
  { subst ls. rewrite (RankFacts.loop_turn port n w arr Hn1 Hn2 Hgood a rest).
    - apply JoinFacts.sockets_at_put_out_of_range.
      rewrite RankFacts.loop_state_length. exact Hout.
    - apply WaitFacts.w_backlog_loop_state. exact Hb.
    - exact Hr. }
  assert (Hnot : Join.a_fd a ∉ Master._sockets (this p1)).
  { intros Hin. apply LeakFacts.loop_state_table in Hin as [H|[H|H]]; contradiction. }
  assert (Hopen : Join.a_fd a ∈ w_open (os p1)).
  { cbn [os p1]. rewrite JoinFacts.w_open_accept. set_solver. }
  destruct (LeakFacts.destroy_open fuel p1) as (p2 & Hd & Hc & Ho);
    [left; reflexivity|].
  exists p1, p2.
  split; [exact (RankFacts.init_reaches port n w arr Hn1 Hn2 Hgood _ _ _ Hlen Hb Hacc)|].
  split; [reflexivity|]. split; [exact Hopen|]. split; [exact Hnot|].
  split; [exact Hd|]. split; [exact Hc|].
  rewrite Ho. apply elem_of_difference. split; [exact Hopen|].
  rewrite elem_of_list_to_set. intros Hh. apply Hnot.
  now apply LeakFacts.held_in_table.
Qed.

Lemma rejected_connection_outlives_destructor_witness :
  exists p1 p2,
    Master.init (Proc (Master.new 29500 3) (Demo.world3_announcing 9))
    = Throw (out_of_range "vector::_M_range_check") p1
    /\ Master.destroy 1 p1 = Ret tt p2
    /\ 5 ∈ w_open (os p2).
Proof.
  destruct (rejected_connection_outlives_destructor 0 29500 3 (Demo.world3_announcing 9)
              [] (5, 9%nat, []) [(6, Join.handshake 1 ++ [])])
    as (p1 & p2 & Hi & _ & _ & _ & Hd & _ & Ho).
  - lia.
  - vm_compute. discriminate.
  - constructor.
  - cbn. lia.
  - reflexivity.
  - vm_compute. reflexivity.
  - cbn. lia.
  - cbn. discriminate.
  - cbn. discriminate.
  - cbn. apply not_elem_of_nil.
  - exists p1, p2. split; [exact Hi|]. split; [exact Hd | exact Ho].
Defined.

(** ** The connection table along an execution *)

Module SizeFacts.
Import Master Exec ListenerTurn.

Lemma exec_table_length a p p' :
  exec a p = Some p' ->
  length (_sockets (this p')) = length (_sockets (this p)).
Proof.
  destruct a as [|msg rank|fuel]; simpl; intros H.
  - pose proof (MasterFrames.init_preserves p) as Hk.
    apply ExecFacts.after_Some in H as [[a Ha]|[e He]];
      [rewrite Ha in Hk | rewrite He in Hk]; apply Hk.
  - pose proof (MasterFrames.sendMessage_preserves msg rank p) as Hk.
    apply ExecFacts.after_Some in H as [[a Ha]|[e He]];
      [rewrite Ha in Hk | rewrite He in Hk]; destruct Hk as [-> _]; reflexivity.
  - pose proof (errorHandler_body_cases fuel p) as Hk.
    apply ExecFacts.after_Some in H as [[go Ha]|[e He]].
    + rewrite Ha in Hk. destruct Hk as (error & p1 & _ & Hs & _). now rewrite Hs.
    + exfalso. exact (NoThrow.no_throw_errorHandler_body fuel p e p' He).
Qed.

Lemma exec_table_kept a p p' :
  a <> Init -> exec a p = Some p' -> _sockets (this p') = _sockets (this p).
Proof.
  destruct a as [|msg rank|fuel]; simpl; intros Hne H; [congruence| |].
  - pose proof (MasterFrames.sendMessage_preserves msg rank p) as Hk.
    apply ExecFacts.after_Some in H as [[a Ha]|[e He]];
      [rewrite Ha in Hk | rewrite He in Hk]; destruct Hk as [-> _]; reflexivity.
  - pose proof (errorHandler_body_cases fuel p) as Hk.
    apply ExecFacts.after_Some in H as [[go Ha]|[e He]].
    + rewrite Ha in Hk. destruct Hk as (error & p1 & _ & Hs & _). exact Hs.
    + exfalso. exact (NoThrow.no_throw_errorHandler_body fuel p e p' He).
Qed.

End SizeFacts.

(** X15.  The connection table keeps the size the constructor gave it:
    in every state of every execution of a constructed master ([init],
    sends and listener turns in any order, whether they return or throw)
    [_sockets] has [WorldSize] entries.  Only [init] ever writes an entry:
    in an execution in which [init] is not called again, the table is in
    every state the one of the first state. *)
Theorem table_size_is_fixed (port : Z) (world_size : nat) (w : world)
    (acts : list Exec.action) :
  Forall (fun p => length (Master._sockets (this p)) = world_size)
    (Exec.trace acts (Proc (Master.new port world_size) w))
  /\ forall (p : Master.t) (acts' : list Exec.action),
       Forall (fun a => a <> Exec.Init) acts' ->
       Forall (fun p' => Master._sockets (this p') = Master._sockets (this p))
         (Exec.trace acts' p).
Proof.
  split.
  - assert (H : forall p, length (Master._sockets (this p)) = world_size ->
                Forall (fun p => length (Master._sockets (this p)) = world_size)
                  (Exec.trace acts p)).
    { induction acts as [|a acts IH]; intros p Hp; cbn [Exec.trace].
      - constructor; [exact Hp | constructor].
      - constructor; [exact Hp|].
        destruct (Exec.exec a p) as [p'|] eqn:E; [|constructor].
        apply IH. rewrite (SizeFacts.exec_table_length a p p' E). exact Hp. }
    apply H. cbn. apply length_replicate.
  - intros p acts'. revert p.
    induction acts' as [|a acts' IH]; intros p Hne; cbn [Exec.trace].
    + constructor; [reflexivity | constructor].
    + apply Forall_cons in Hne as [Ha Hrest].
      constructor; [reflexivity|].
      destruct (Exec.exec a p) as [p'|] eqn:E; [|constructor].
      rewrite <- (SizeFacts.exec_table_kept a p p' Ha E). apply IH. exact Hrest.
Qed.

Lemma table_size_is_fixed_witness :
  Forall (fun p' => Master._sockets (this p') = Master._sockets (this Demo.ready2))
    (Exec.trace [Exec.Listen 1; Exec.Send [x61] 1] Demo.ready2).
Proof.
  apply (proj2 (table_size_is_fixed 29500 2 Demo.world2 [])).
  repeat constructor; discriminate.
Defined.

(** ** The text of a latched report *)

Module TextFacts.

(** The digits of a number end where the closing parenthesis stands. *)
Lemma digits_then_paren (d1 : Decimal.uint) :
  forall (d2 : Decimal.uint) (s1 s2 : string),
    NilEmpty.string_of_uint d1 +:+ String ")"%char s1
    = NilEmpty.string_of_uint d2 +:+ String ")"%char s2 ->
    d1 = d2 /\ s1 = s2.
Proof.
  induction d1 as [|d1 IH|d1 IH|d1 IH|d1 IH|d1 IH|d1 IH|d1 IH|d1 IH|d1 IH|d1 IH];
    intros d2 s1 s2 H; destruct d2; cbn in H; try discriminate;
    try (injection H as H; destruct (IH _ _ _ H) as [-> ->]; split; reflexivity).
  injection H as ->. split; reflexivity.
Qed.

Lemma to_string_digits (n : nat) :
  to_string n = NilEmpty.string_of_uint (digits_of n).
Proof. unfold to_string, digits_of. destruct (Nat.to_uint n); reflexivity. Qed.

Lemma of_digits (n : nat) : Nat.of_uint (digits_of n) = n.
Proof.
  unfold digits_of. pose proof (DecimalNat.Unsigned.of_to n) as H.
  destruct (Nat.to_uint n); exact H.
Qed.

End TextFacts.

(** X16.  The message the listener latches, and [sendMessage] then throws,
    tells rank and text apart: two reports give the same message only when
    both the rank and the text are the same. *)
Theorem format_error_injective (r1 r2 : nat) (t1 t2 : string) :
  Master.format_error (r1, t1) = Master.format_error (r2, t2) ->
  r1 = r2 /\ t1 = t2.
Proof.
  unfold Master.format_error. cbn [fst snd]. intros H.
  apply (String.app_inj "error (rank ") in H.
  rewrite !TextFacts.to_string_digits in H.
  change ("): " +:+ t1) with (String ")"%char (": " +:+ t1)) in H.
  change ("): " +:+ t2) with (String ")"%char (": " +:+ t2)) in H.
  apply TextFacts.digits_then_paren in H as [Hd Ht].
  split.
  - rewrite <- (TextFacts.of_digits r1), <- (TextFacts.of_digits r2). now rewrite Hd.
  - now apply (String.app_inj ": ") in Ht.
Qed.

Lemma format_error_injective_witness :
  (1 = 1)%nat /\ "boom"%string = "boom"%string.
Proof.
  apply (format_error_injective 1 1 "boom" "boom"). reflexivity.
Defined.

(** ** Failures of the transport in [sendMessage] *)

(** X17.  A write that fails inside [sendMessage] is not a channel failure:
    for a valid rank whose connection is down, with no failure latched, the
    exception of the write (a [std::system_error], not the invalid-rank
    error) leaves [sendMessage], nothing is written, and the object is
    unchanged; in particular the failure flag stays unset, so a later send
    to a rank whose connection is up goes through. *)
Theorem send_failure_is_not_latched
    (p : Master.t) (msg msg' : list byte) (rank rank' : Z) :
  Master._error (this p) = None ->
  0 < rank < Z.of_nat (length (Master._sockets (this p))) ->
  usable (Master._sockets (this p) !!! Z.to_nat rank) (os p) = false ->
  exists e,
    Master.sendMessage msg rank p = Throw e p
    /\ is_runtime_error e = true
    /\ (0 < rank' < Z.of_nat (length (Master._sockets (this p))) ->
        usable (Master._sockets (this p) !!! Z.to_nat rank') (os p) = true ->
        Z.of_nat (length msg') < 2 ^ 64 ->
        exists p', Master.sendMessage msg' rank' p = Ret tt p'
                   /\ transmitted (Master._sockets (this p) !!! Z.to_nat rank') p
                        (Master.sendMessage msg' rank' p)
                      = Stream.frame msg').
Proof.
  intros He Hr Hu. exists (system_error "send"). split; [|split; [reflexivity|]].
  - rewrite master_sendMessage_valid by assumption.
    unfold thd.sendMessage, send_uint, bind.
    rewrite send_bytes_unusable; [reflexivity | exact Hu | cbn; discriminate].
  - intros Hr' Hu' Hlen. rewrite master_sendMessage_valid by assumption.
    rewrite transmitted_sendMessage by assumption.
    rewrite sendMessage_usable by assumption. eexists. split; reflexivity.
Qed.

Lemma send_failure_is_not_latched_witness :
  exists e p',
    Master.sendMessage [x61] 1 Demo.master3_cut = Throw e Demo.master3_cut
    /\ is_runtime_error e = true
    /\ Master.sendMessage [x62] 2 Demo.master3_cut = Ret tt p'.
Proof.
  assert (H1 : Master._error (this Demo.master3_cut) = None) by (vm_compute; reflexivity).
  assert (H2 : 0 < 1 < Z.of_nat (length (Master._sockets (this Demo.master3_cut))))
    by (vm_compute; split; reflexivity).
  assert (H3 : usable (Master._sockets (this Demo.master3_cut) !!! Z.to_nat 1)
                 (os Demo.master3_cut) = false) by (vm_compute; reflexivity).
  assert (H4 : 0 < 2 < Z.of_nat (length (Master._sockets (this Demo.master3_cut))))
    by (vm_compute; split; reflexivity).
  assert (H5 : usable (Master._sockets (this Demo.master3_cut) !!! Z.to_nat 2)
                 (os Demo.master3_cut) = true) by (vm_compute; reflexivity).
  assert (H6 : Z.of_nat (length [x62]) < 2 ^ 64) by (vm_compute; reflexivity).
  destruct (send_failure_is_not_latched Demo.master3_cut [x61] [x62] 1 2 H1 H2 H3)
    as (e & Ht & Hk & Hnext).
  destruct (Hnext H4 H5 H6) as (p' & Hs & _).
  exists e, p'. split; [exact Ht|]. split; [exact Hk | exact Hs].
Defined.

(** ** From [sendError] to the caller of [sendMessage] *)

(** X18.  End to end: a text a worker hands to [sendError] is what the
    master's caller gets.  With no teardown under way, when the first poll
    entry with events is plainly readable and holds what the worker's call
    wrote, the listener's turn latches [error (rank k): text], and every
    [sendMessage] after that, to any rank, throws a [std::runtime_error]
    with exactly this message and writes nothing. *)
Theorem worker_error_reaches_sender
    (fuel : nat) (pw : Worker.t) (text : string)
    (c : Master.MasterCommandChannel) (w : world)
    (r : Z) (revs : list Z) (rest : list poll_result)
    (k : nat) (e : pollfd) (later : list byte) :
  usable (Worker._socket (this pw)) (os pw) = true ->
  Z.of_nat (String.length text) < 2 ^ 64 ->
  Master._exiting c = false -> w_exit_in w = None ->
  w_polls w = PollReady r revs :: rest -> r <> 0 ->
  (k < length (Master._sockets c))%nat ->
  Wake.cache c !! k = Some e -> 0 <= fd e -> fd e ∈ w_open w ->
  revents_at revs k = POLLIN ->
  (forall (j : nat) ej, (j < k)%nat -> Wake.cache c !! j = Some ej ->
                        fd ej < 0 \/ revents_at revs j = 0) ->
  w_rx w !!! fd e
  = transmitted (Worker._socket (this pw)) pw (Worker.sendError text pw) ++ later ->
  exists p2,
    Master.errorHandler_body (S fuel) (Proc c w) = Ret true p2
    /\ Master._error (this p2)
       = Some ("error (rank " +:+ to_string k +:+ "): " +:+ text)
    /\ forall payload rank,
         Master.sendMessage payload rank p2
         = Throw (runtime_error ("error (rank " +:+ to_string k +:+ "): " +:+ text)) p2.
Proof.
  intros Hu Hlen E Hx Hp Hr Hk He Hfd Ho Hrv Hfirst Hrx.
  rewrite sendError_is_sendMessage in Hrx.
  rewrite transmitted_sendMessage, <- app_assoc in Hrx
    by (rewrite ?ReadFacts.length_list_byte_of_string; assumption).
  pose proof (WireFacts.length_encode_uint Wire.sizeof_uint64
                (Z.of_nat (length (list_byte_of_string text)))) as Hh.
  assert (Hx0 : w_exit_in w <> Some 0%nat) by (rewrite Hx; discriminate).
  rewrite ListenerTurn.errorHandler_body_unfold.
  rewrite (ReadFacts.recvError_frame fuel c w r revs rest k e _ _ later
             E Hx0 Hp Hr Hk He Hfd Ho Hrv Hfirst Hrx Hh).
  2: { apply WireFacts.decode_encode_uint64.
       rewrite ReadFacts.length_list_byte_of_string. lia. }
  rewrite string_of_list_byte_of_string.
  rewrite WakeFacts.load_exiting_not.
  - eexists. split; [reflexivity|]. cbn [this]. split; [reflexivity|].
    intros payload rank. reflexivity.
  - exact E.
  - rewrite !ReadFacts.w_exit_in_consume, ReadFacts.w_exit_in_after_wake by exact Hx.
    discriminate.
Qed.

Lemma worker_error_reaches_sender_witness :
  exists p2,
    Master.errorHandler_body 1 (Proc (this Demo.master3) (os Demo.master3)) = Ret true p2
    /\ Master.sendMessage [x61] 2 p2
       = Throw (runtime_error ("error (rank " +:+ to_string 1 +:+ "): " +:+ "boom")) p2.
Proof.
  assert (H1 : usable (Worker._socket (this (Demo.worker1 []))) (os (Demo.worker1 [])) = true)
    by (vm_compute; reflexivity).
  assert (H2 : Z.of_nat (String.length "boom") < 2 ^ 64) by (vm_compute; reflexivity).
  assert (H3 : Master._exiting (this Demo.master3) = false) by (vm_compute; reflexivity).
  assert (H4 : w_exit_in (os Demo.master3) = None) by (vm_compute; reflexivity).
  assert (H5 : w_polls (os Demo.master3) = PollReady 2 [0; POLLIN; 16] :: [])
    by (vm_compute; reflexivity).
  assert (H6 : (2 : Z) <> 0) by discriminate.
  assert (H7 : (1 < length (Master._sockets (this Demo.master3)))%nat)
    by (vm_compute; repeat constructor).
  assert (H8 : Wake.cache (this Demo.master3) !! 1%nat = Some (Pollfd 6 POLLIN 0))
    by (vm_compute; reflexivity).
  assert (H9 : 0 <= fd (Pollfd 6 POLLIN 0)) by (vm_compute; discriminate).
  assert (H10 : fd (Pollfd 6 POLLIN 0) ∈ w_open (os Demo.master3))
    by (vm_compute; set_solver).
  assert (H11 : revents_at [0; POLLIN; 16] 1%nat = POLLIN) by reflexivity.
  assert (H12 : forall (j : nat) ej, (j < 1)%nat ->
              Wake.cache (this Demo.master3) !! j = Some ej ->
              fd ej < 0 \/ revents_at [0; POLLIN; 16] j = 0).
  { intros j ej Hj _. right. destruct j as [|j]; [reflexivity | lia]. }
  assert (H13 : w_rx (os Demo.master3) !!! fd (Pollfd 6 POLLIN 0)
                = transmitted (Worker._socket (this (Demo.worker1 []))) (Demo.worker1 [])
                    (Worker.sendError "boom" (Demo.worker1 [])) ++ [])
    by (vm_compute; reflexivity).
  destruct (worker_error_reaches_sender 0 (Demo.worker1 []) "boom"
              (this Demo.master3) (os Demo.master3) 2 [0; POLLIN; 16] [] 1
              (Pollfd 6 POLLIN 0) [] H1 H2 H3 H4 H5 H6 H7 H8 H9 H10 H11 H12 H13)
    as (p2 & Hb & _ & Hs).
  exists p2. split; [exact Hb | apply Hs].
Defined.

(** ** What [recvMessage] can return *)

Module WholeFacts.

(** A completed [recv_bytes]: nothing was asked for, or the bytes were at
    the head of what was waiting. *)
Lemma recv_bytes_took {O} fd (n : Z) (p p' : proc O) bs :
  recv_bytes fd n p = Ret bs p' ->
  this p' = this p
  /\ w_rx (os p) !!! fd = bs ++ w_rx (os p') !!! fd
  /\ (if n <=? 0 then bs = [] else Z.of_nat (length bs) = n).
Proof.
  intros H. destruct p as [c w]. unfold recv_bytes in H.
  destruct (n <=? 0) eqn:En.
  - inversion H; subst. split; [reflexivity|]. split; reflexivity.
  - unfold bind at 1 in H. unfold get_os in H. cbn [os] in H.
    destruct (bool_decide (fd ∈ w_open w)); [|discriminate].
    destruct (n <=? Z.of_nat (length (w_rx w !!! fd))) eqn:El.
    + unfold bind, modify_os, ret in H. cbn [this os] in H. inversion H; subst.
      cbn [this os w_rx log set_rx]. rewrite lookup_total_insert_eq.
      split; [reflexivity|]. split; [now rewrite take_drop|].
      apply Z.leb_le in El. apply Z.leb_gt in En. rewrite length_take. lia.
    + destruct (bool_decide (fd ∈ w_hup w)); discriminate.
Qed.

End WholeFacts.

(** X19.  [recvMessage] returns whole frames only.  Whatever it returns
    was waiting on the worker's connection as eight bytes that decode to the
    length of the returned message, followed by exactly these bytes; they
    are consumed, what came after them is left, and the object is
    unchanged.  A frame of which a part is missing is never returned. *)
Theorem recvMessage_returns_whole_frames_only
    (pw pw' : Worker.t) (msg : list byte) :
  Worker.recvMessage pw = Ret msg pw' ->
  this pw' = this pw
  /\ exists hdr,
       length hdr = 8%nat
       /\ Wire.decode_uint hdr = Z.of_nat (length msg)
       /\ w_rx (os pw) !!! Worker._socket (this pw)
          = hdr ++ msg ++ w_rx (os pw') !!! Worker._socket (this pw).
Proof.
  unfold Worker.recvMessage, bind, get_this.
  set (s := Worker._socket (this pw)).
  unfold thd.receiveMessage, recv_uint. unfold bind at 1. unfold bind at 1.
  destruct (recv_bytes s _ pw) as [hdr p1|e p1| |] eqn:E1; try discriminate.
  unfold ret at 1. unfold bind at 1.
  destruct (recv_bytes s _ p1) as [body p2|e p2| |] eqn:E2; try discriminate.
  unfold ret. intros H. inversion H; subst body p2. clear H.
  destruct (WholeFacts.recv_bytes_took s _ pw p1 hdr E1) as (Ht1 & Hrx1 & Hn1).
  destruct (WholeFacts.recv_bytes_took s _ p1 pw' msg E2) as (Ht2 & Hrx2 & Hn2).
  assert (Hh : Z.of_nat (length hdr) = 8) by exact Hn1.
  split; [congruence|]. exists hdr. split; [lia|]. split.
  - destruct (Wire.decode_uint hdr <=? 0) eqn:Ed.
    + subst msg. apply Z.leb_le in Ed.
      pose proof (WireFacts.decode_uint_bound hdr) as Hb. cbn [length Z.of_nat]. lia.
    + lia.
  - rewrite Hrx1, Hrx2. reflexivity.
Qed.

Lemma recvMessage_returns_whole_frames_only_witness :
  exists pw' hdr,
    Worker.recvMessage (Demo.worker1 (Stream.frame [x61; x62] ++ [x07]))
    = Ret [x61; x62] pw'
    /\ length hdr = 8%nat
    /\ Wire.decode_uint hdr = 2.
Proof.
  assert (H : exists pw',
            Worker.recvMessage (Demo.worker1 (Stream.frame [x61; x62] ++ [x07]))
            = Ret [x61; x62] pw') by (vm_compute; eexists; reflexivity).
  destruct H as (pw' & H).
  destruct (recvMessage_returns_whole_frames_only _ pw' [x61; x62] H)
    as (_ & hdr & Hh & Hd & _).
  exists pw', hdr. split; [exact H|]. split; [exact Hh | exact Hd].
Defined.

(** ** The poll entries and the table *)

Module CacheFacts.
Import Master Wake ListenerFrames ListenerTurn WakeFacts.

Lemma sized_refl n p : sized n p p.
Proof.
  intros Hf Hs. split; [exact Hf|]. split; [exact Hs|].
  exists []. split; [now rewrite app_nil_r | constructor].
Qed.

Lemma sized_trans n p1 p2 p3 : sized n p1 p2 -> sized n p2 p3 -> sized n p1 p3.
Proof.
  intros H12 H23 Hf Hs.
  destruct (H12 Hf Hs) as (Hf2 & Hs2 & evs & Hl & He).
  destruct (H23 Hf2 Hs2) as (Hf3 & Hs3 & evs' & Hl' & He').
  split; [exact Hf3|]. split; [exact Hs3|].
  exists (evs ++ evs'). split; [now rewrite Hl', Hl, app_assoc | now apply Forall_app].
Qed.

Lemma sized_after {A} n (m : M Master.t A) p p1 :
  sized n p p1 -> preserves (sized n) m ->
  match m p1 with
  | Ret _ p' | Throw _ p' => sized n p p'
  | Block | Fuel => True
  end.
Proof.
  intros H1 Hm. specialize (Hm p1).
  destruct (m p1); auto; eapply sized_trans; eauto.
Qed.

(** The object is as it was, and no [::poll] was made. *)
Lemma sized_untouched n p p' :
  this p' = this p ->
  (exists evs, w_log (os p') = w_log (os p) ++ evs /\ Forall (polls_all n) evs) ->
  sized n p p'.
Proof. intros Ht Hl Hf Hs. rewrite Ht. auto. Qed.

Lemma load_exiting_sized n : preserves (sized n) load_exiting.
Proof.
  intros [c w]. unfold load_exiting. cbn [this os].
  destruct (_exiting c); [apply sized_refl|].
  destruct (w_exit_in w) as [[|k]|]; try apply sized_refl.
  - intros Hf Hs. split; [exact Hf|]. split; [exact Hs|].
    exists []. split; [cbn; now rewrite app_nil_r | constructor].
  - apply sized_untouched; [reflexivity|].
    exists []. split; [cbn; now rewrite app_nil_r | constructor].
Qed.

Lemma recv_bytes_sized n fd k : preserves (sized n) (@recv_bytes MasterCommandChannel fd k).
Proof.
  intros [c w]. unfold recv_bytes.
  destruct (k <=? 0); [apply sized_refl|].
  unfold bind, get_os, modify_os, ret, throw, block. cbn [this os].
  destruct (bool_decide (fd ∈ w_open w)); [|apply sized_refl].
  destruct (k <=? Z.of_nat (length (w_rx w !!! fd))).
  - apply sized_untouched; [reflexivity|]. eexists [_]. split; [reflexivity|].
    constructor; [exact I | constructor].
  - destruct (bool_decide (fd ∈ w_hup w)); [|exact I].
    apply sized_untouched; [reflexivity|].
    exists []. split; [cbn; now rewrite app_nil_r | constructor].
Qed.

Lemma receive_error_sized n rank socket : preserves (sized n) (receive_error rank socket).
Proof.
  unfold receive_error, recv_uint.
  apply preserves_bind; [apply sized_trans| |].
  - apply preserves_bind; [apply sized_trans|apply recv_bytes_sized|].
    intros bs. apply preserves_ret, sized_refl.
  - intros k. apply preserves_bind; [apply sized_trans|apply recv_bytes_sized|].
    intros bs. apply preserves_ret, sized_refl.
Qed.

(** Writing new entries of the same number that ask for the same events. *)
Lemma sized_entries n c w w' (pe' : list pollfd) :
  (forall pe, _poll_events c = Some pe ->
     length pe' = length pe
     /\ (Forall (fun e => events e = POLLIN) pe ->
         Forall (fun e => events e = POLLIN) pe')) ->
  (exists evs, w_log w' = w_log w ++ evs /\ Forall (polls_all n) evs) ->
  sized n (Proc c w) (Proc (set_poll_events (Some pe') c) w').
Proof.
  intros Hpe Hl [Hlen Hc] Hs. cbn [this os] in *.
  destruct (_poll_events c) as [pe|] eqn:E; [|congruence].
  destruct (Hpe pe eq_refl) as [Hl' Hev]. destruct (Hc pe eq_refl) as [Hn Hp].
  split; [|split; [discriminate | exact Hl]].
  split; [exact Hlen|]. cbn. intros pe0 H0. inversion H0; subst pe0.
  split; [congruence | auto].
Qed.

Lemma scan_sized n ranks : preserves (sized n) (scan ranks).
Proof.
  induction ranks as [|rank ranks IH]; [apply preserves_ret, sized_refl|].
  intros [c w]. cbn [scan]. unfold bind at 1. unfold get_this. cbn [this].
  destruct (revents (poll_events c !!! rank) =? 0); [apply IH|].
  destruct (negb (Z.lxor (revents (poll_events c !!! rank)) POLLIN =? 0)).
  - unfold bind, modify_this, ret. cbn [this os].
    apply sized_entries.
    + intros pe E. unfold poll_events. rewrite E. split; [apply length_insert|].
      intros Hp. destruct (decide (rank < length pe)%nat) as [Hlt|Hge].
      * apply Forall_insert; [exact Hp|]. cbn.
        rewrite Forall_forall in Hp. apply Hp.
        apply list_elem_of_lookup. exists rank.
        apply list_lookup_lookup_total_lt. exact Hlt.
      * rewrite list_insert_ge by lia. exact Hp.
    + exists []. split; [now rewrite app_nil_r | constructor].
  - apply preserves_try_catch;
      [apply sized_trans | apply receive_error_sized | intros e].
    apply preserves_ret, sized_refl.
Qed.

Lemma Forall_events_report (revs : list Z) (pe : list pollfd) :
  Forall (fun e => events e = POLLIN) pe ->
  Forall (fun e => events e = POLLIN) (imap (fun i e => report e (revents_at revs i)) pe).
Proof.
  intros Hp. apply Forall_lookup. intros i e Hi.
  rewrite list_lookup_imap in Hi.
  destruct (pe !! i) as [e0|] eqn:E; [|discriminate]. cbn in Hi. inversion Hi; subst e.
  rewrite Forall_lookup in Hp. specialize (Hp i e0 E).
  unfold report. destruct (fd e0 <? 0); exact Hp.
Qed.

Lemma Forall_events_clear (pe : list pollfd) :
  Forall (fun e => events e = POLLIN) pe ->
  Forall (fun e => events e = POLLIN) (map (set_revents 0) pe).
Proof. intros Hp. apply Forall_map. exact Hp. Qed.

Lemma wait_loop_sized n fuel : preserves (sized n) (wait_loop fuel).
Proof.
  induction fuel as [|fuel IH]; [intros p; exact I|].
  intros [c w]. cbn [wait_loop]. unfold bind at 1. unfold get_this. cbn [this].
  unfold bind at 1. unfold poll, bind at 1, get_os. cbn [os].
  unfold bind at 1, modify_os. cbn [this os].
  set (w1 := log _ _) in *.
  assert (Hrest : forall r pe',
    sized n (Proc c w) (Proc (set_poll_events (Some pe') c) w1) ->
    match
      (modify_this (set_poll_events (Some pe')) ;;
       exiting <- load_exiting ;;
       if exiting then ret (Some (0%nat, ""%string))
       else if fst (r, pe') =? 0 then wait_loop fuel else ret None)%cmd
        (Proc c w1)
    with
    | Ret _ p' | Throw _ p' => sized n (Proc c w) p'
    | Block | Fuel => True
    end).
  { intros r pe' Hs. unfold bind at 1. unfold modify_this. cbn [this os].
    apply sized_after; [exact Hs|].
    apply preserves_bind;
      [apply sized_trans | apply load_exiting_sized | intros b].
    destruct b; [apply preserves_ret, sized_refl|].
    apply preserves_if; [exact IH | apply preserves_ret, sized_refl]. }
  assert (Hpoll : cache_fits n c -> _poll_events c <> None ->
                  exists evs, w_log w1 = w_log w ++ evs /\ Forall (polls_all n) evs).
  { intros [_ Hc] Hs. exists [SysPoll (length (poll_events c)) 500].
    split; [reflexivity|]. constructor; [|constructor]. cbn.
    unfold poll_events. destruct (_poll_events c) as [pe|]; [|congruence].
    apply (Hc pe eq_refl). }
  destruct (w_polls w) as [|[msg|r revs] rest].
  - apply (Hrest 0). intros Hf Hs.
    apply (sized_entries n c w w1); [|now apply Hpoll|exact Hf|exact Hs].
    intros pe E. unfold poll_events. rewrite E.
    split; [apply length_map | apply Forall_events_clear].
  - unfold throw. intros Hf Hs. split; [exact Hf|]. split; [exact Hs|]. now apply Hpoll.
  - apply (Hrest r). intros Hf Hs.
    apply (sized_entries n c w w1); [|now apply Hpoll|exact Hf|exact Hs].
    intros pe E. unfold poll_events. rewrite E.
    split; [apply length_imap | apply Forall_events_report].
Qed.

(** A call of [recvError] in a state whose entries, if cached, fit. *)
Lemma recvError_fits n fuel (p : Master.t) :
  cache_fits n (this p) ->
  match recvError fuel p with
  | Ret _ p' | Throw _ p' =>
      cache_fits n (this p')
      /\ exists evs, w_log (os p') = w_log (os p) ++ evs /\ Forall (polls_all n) evs
  | Block | Fuel => True
  end.
Proof.
  intros Hf. destruct p as [c w]. cbn [this os] in *. rewrite recvError_arm.
  set (p0 := Proc (set_poll_events (Some (armed c)) c) w).
  assert (H0 : cache_fits n (this p0) /\ _poll_events (this p0) <> None).
  { split; [|discriminate]. destruct Hf as [Hlen Hc]. split; [exact Hlen|].
    cbn. intros pe H. inversion H; subst pe. unfold armed, cache.
    destruct (_poll_events c) as [pe|] eqn:E.
    - destruct (Hc pe eq_refl) as [Hn Hp].
      split; [now rewrite length_map | now apply Forall_events_clear].
    - split; [now rewrite !length_map|].
      apply Forall_map, Forall_map. apply Forall_forall. intros x _. reflexivity. }
  assert (Hm : preserves (sized n)
                 (bind (try_catch (wait_loop fuel)
                          (fun e => ret (Some (0%nat, "poll: " +:+ what e))))
                       (fun early => match early with
                                     | Some r => ret r
                                     | None => scan (seq 0 (length (_sockets c)))
                                     end))).
  { apply preserves_bind; [apply sized_trans| |].
    - apply preserves_try_catch; [apply sized_trans|apply wait_loop_sized|].
      intros e. apply preserves_ret, sized_refl.
    - intros [r|]; [apply preserves_ret, sized_refl | apply scan_sized]. }
  specialize (Hm p0). destruct H0 as [Hf0 Hs0].
  match goal with |- match ?o with _ => _ end =>
    destruct o as [r p'|e p'| |]; try exact I;
      destruct (Hm Hf0 Hs0) as (Hf' & _ & Hl); split; assumption
  end.
Qed.

End CacheFacts.

Module CacheExec.
Import Master Exec ListenerTurn CacheFacts.

Lemma load_exiting_fits n (p : Master.t) b p' :
  load_exiting p = Ret b p' -> cache_fits n (this p) ->
  cache_fits n (this p') /\ w_log (os p') = w_log (os p).
Proof.
  destruct p as [c w]. unfold load_exiting. cbn [this os].
  destruct (_exiting c).
  - intros H Hf. inversion H; subst. auto.
  - destruct (w_exit_in w) as [[|k]|]; intros H Hf; inversion H; subst; auto.
Qed.

Lemma exec_fits n a p p' :
  exec a p = Some p' -> cache_fits n (this p) -> cache_fits n (this p').
Proof.
  destruct a as [|msg rank|fuel]; simpl; intros H Hf.
  - pose proof (MasterFrames.init_preserves p) as Hk.
    assert (Hi : init_keeps (this p) (this p')).
    { apply ExecFacts.after_Some in H as [[a Ha]|[e He]];
        [rewrite Ha in Hk | rewrite He in Hk]; exact Hk. }
    destruct Hi as (_ & Hpe & _ & Hlen). destruct Hf as [Hn Hc].
    split; [congruence|]. rewrite Hpe. exact Hc.
  - pose proof (MasterFrames.sendMessage_preserves msg rank p) as Hk.
    apply ExecFacts.after_Some in H as [[a Ha]|[e He]];
      [rewrite Ha in Hk | rewrite He in Hk]; destruct Hk as [-> _]; exact Hf.
  - apply ExecFacts.after_Some in H as [[go Ha]|[e He]].
    2: { exfalso. exact (NoThrow.no_throw_errorHandler_body fuel p e p' He). }
    rewrite errorHandler_body_unfold in Ha.
    pose proof (recvError_fits n fuel p Hf) as Hr.
    destruct (recvError fuel p) as [error p1|e p1| |]; try discriminate.
    destruct Hr as [Hf1 _].
    destruct (load_exiting p1) as [b p2|e p2| |] eqn:El; try discriminate.
    destruct (load_exiting_fits n p1 b p2 El Hf1) as [Hf2 _].
    destruct b; inversion Ha; subst; [exact Hf2|].
    cbn [this]. exact Hf2.
Qed.

End CacheExec.

(** X20.  Every [::poll] of the listener covers the whole table.  In every
    state of every execution of a constructed master the cached poll
    entries, once built, are as many as the table has slots, [WorldSize],
    and each still asks for [POLLIN] only; and a call of [recvError] made
    in such a state passes exactly [WorldSize] entries to every [::poll]
    it makes (the count the code passes is [_sockets.size()]). *)
Theorem poll_covers_every_slot (port : Z) (world_size : nat) (w : world)
    (acts : list Exec.action) :
  Forall (fun p =>
            cache_fits world_size (this p)
            /\ forall fuel report p',
                 Master.recvError fuel p = Ret report p' ->
                 exists evs,
                   w_log (os p') = w_log (os p) ++ evs
                   /\ Forall (polls_all world_size) evs)
    (Exec.trace acts (Proc (Master.new port world_size) w)).
Proof.
  assert (Hstate : forall p, cache_fits world_size (this p) ->
            cache_fits world_size (this p)
            /\ forall fuel report p',
                 Master.recvError fuel p = Ret report p' ->
                 exists evs,
                   w_log (os p') = w_log (os p) ++ evs
                   /\ Forall (polls_all world_size) evs).
  { intros p Hf. split; [exact Hf|]. intros fuel report p' Hr.
    pose proof (CacheFacts.recvError_fits world_size fuel p Hf) as H.
    rewrite Hr in H. apply H. }
  assert (H : forall p, cache_fits world_size (this p) ->
            Forall (fun p => cache_fits world_size (this p)) (Exec.trace acts p)).
  { induction acts as [|a acts IH]; intros p Hp; cbn [Exec.trace].
    - constructor; [exact Hp | constructor].
    - constructor; [exact Hp|].
      destruct (Exec.exec a p) as [p'|] eqn:E; [|constructor].
      apply IH. exact (CacheExec.exec_fits world_size a p p' E Hp). }
  eapply Forall_impl; [apply H|].
  - split; [cbn; apply length_replicate|]. cbn. discriminate.
  - intros p Hf. apply Hstate. exact Hf.
Qed.

(** ** Teardown after a successful [init] *)

(** C7 (amended).  Teardown of a master whose [init] has returned: the
    workers all connected, each announcing its own rank on a connection of
    its own, in a process that held no descriptor before.  After any sends
    and listener turns the thread is started, and the destructor returns
    when the listener is in its wait as [_exiting] is stored.  Whenever the
    destructor returns, [_exiting] is set, the log has grown by waits and
    reads of the listener, then the join, then one close for every
    descriptor the table holds, in slot order; afterwards no descriptor is
    open, every descriptor that was open has been closed, and no descriptor
    appears twice among all the closes of the process.  Worker: the
    destructor of a channel whose [init] was never called does nothing at
    all; once the channel holds a connection, the destructor closes it,
    once. *)
Theorem teardown_after_init_closes_once
    (port : Z) (n : nat) (w : world)
    (conn : nat -> Z) (extra : nat -> list byte) (order : list nat)
    (more : list (Z * list byte)) (acts : list Exec.action) :
  (1 <= n)%nat -> Z.of_nat n <= 2 ^ 32 ->
  order ≡ₚ seq 1 (n - 1) ->
  w_backlog w = Join.backlog_of (Join.workers conn extra order) ++ more ->
  (forall r, r ∈ order -> conn r ∉ w_hup w) ->
  w_open w = ∅ -> closes (w_log w) = [] ->
  NoDup (map conn order) ->
  (forall r, r ∈ order -> conn r <> -1 /\ conn r <> w_next_fd w) ->
  Forall (fun a => a <> Exec.Init) acts ->
  (exists p1,
      Master.init (Proc (Master.new port n) w) = Ret true p1
      /\ forall (j : nat) pj,
           Exec.trace acts p1 !! j = Some pj ->
           Master._started (this pj) = true
           /\ (Wake.in_wait pj ->
               forall fuel, exists p', Master.destroy (S fuel) pj = Ret tt p')
           /\ forall fuel p',
                Master.destroy fuel pj = Ret tt p' ->
                Master._exiting (this p') = true
                /\ (exists evs,
                       Forall listens evs
                       /\ w_log (os p')
                          = w_log (os pj) ++ evs ++ [ThreadJoin]
                            ++ map SysClose (Join.held (this pj)))
                /\ w_open (os p') = ∅
                /\ NoDup (closes (w_log (os p')))
                /\ forall fd, fd ∈ w_open (os pj) -> fd ∈ closes (w_log (os p')))
  /\ (forall rank addr port' w',
        Worker.destroy (Proc (Worker.new rank addr port') w')
        = Ret tt (Proc (Worker.new rank addr port') w'))
  /\ (forall pw : Worker.t,
        Worker._socket (this pw) <> -1 ->
        Worker.destroy pw
        = Ret tt (Proc (this pw) (closed (Worker._socket (this pw)) (os pw)))).
Proof.
  intros Hn1 Hn2 Hperm Hb Hup Hopen Hcl Hnd Hfd Hacts. split; [|split].
  - destruct (InitFacts.init_result port n w conn extra order more Hn1 Hn2 Hperm Hb Hup)
      as (w' & Hinit & _).
    eexists. split; [exact Hinit|]. intros j pj Hj.
    assert (Ht : Join.tidy pj).
    { eapply (tidy_after_init port n w conn extra order more _ acts j pj); eauto. }
    assert (Hst : Master._started (this pj) = true).
    { rewrite (LeakFacts.trace_started acts _ j pj Hacts Hj). reflexivity. }
    destruct Ht as [Hnd' Ho].
    split; [exact Hst|]. split.
    + intros Hw fuel.
      destruct (LeakFacts.destroy_open fuel pj Hw) as (p' & Hd & _).
      exists p'. exact Hd.
    + intros fuel p' Hd.
      destruct (LeakFacts.destroy_ret fuel pj p' Hd) as [Hc Hop].
      destruct (LeakFacts.destroy_ret_log fuel pj p' Hst Hd) as [He Hlog].
      split; [exact He|]. split; [exact Hlog|]. split; [|split].
      * rewrite Hop. apply set_eq. intros fd.
        rewrite elem_of_difference, elem_of_list_to_set, Ho. set_solver.
      * rewrite Hc. exact Hnd'.
      * intros fd Hfd'. rewrite Hc. apply elem_of_app. right. now apply Ho.
  - intros rank addr port' w'. reflexivity.
  - intros [c w'] Hs. unfold Worker.destroy, bind, get_this. cbn [this os] in *.
    apply Z.eqb_neq in Hs. rewrite Hs. reflexivity.
Qed.

Lemma teardown_after_init_closes_once_witness :
  exists p' evs,
    Master.destroy 1 Demo.ready2 = Ret tt p'
    /\ Master._exiting (this p') = true
    /\ w_log (os p') = w_log (os Demo.ready2) ++ evs ++ [ThreadJoin] ++ [SysClose 5]
    /\ w_open (os p') = ∅
    /\ NoDup (closes (w_log (os p'))).
Proof.
  destruct (teardown_after_init_closes_once 29500 2 Demo.world2
              (fun _ => 5) (fun _ => Demo.frame "boom") [1%nat] [] [])
    as ((p1 & Hinit & Hall) & _).
  - lia.
  - vm_compute; discriminate.
  - reflexivity.
  - reflexivity.
  - intros r _. cbn. set_solver.
  - reflexivity.
  - reflexivity.
  - cbn. apply NoDup_singleton.
  - intros r _. cbn. split; discriminate.
  - constructor.
  - assert (Hp1 : p1 = Demo.ready2).
    { assert (Hi : Master.init (Proc (Master.new 29500 2) Demo.world2)
                   = Ret true Demo.ready2) by (vm_compute; reflexivity).
      rewrite Hi in Hinit. now inversion Hinit. }
    subst p1.
    destruct (Hall 0%nat Demo.ready2 eq_refl) as (_ & Hret & Hdone).
    destruct (Hret (or_intror (or_introl eq_refl)) 0%nat) as (p' & Hd).
    destruct (Hdone 1%nat p' Hd) as (He & (evs & _ & Hl) & Ho & Hn & _).
    exists p', evs. split; [exact Hd|]. split; [exact He|].
    split; [exact Hl|]. split; [exact Ho | exact Hn].
Defined.
